(** * toba/node-tools: the in-memory cache and its compressing variant

    A shallow embedding of [src/cache.ts] (class [Cache]) and of the
    [CompressCache] class, with the helpers they call ([byteSize],
    [EventEmitter]), followed by the properties of the specification.

    Conventions of the embedding.
    - JavaScript values are the inductive [jsval]; the type parameter [T] of
      [Cache<T>] is erased at run time, so the cache stores [jsval]s.
    - A JavaScript [Map] iterates in insertion order, and [prune] sorts the
      iteration with a stable sort: the store is an association list that
      keeps insertion order ([JsMap]).  Maps that are only read by key
      ([zipBuffer], [zipQueue], the listener table) are [gmap]s.
    - Numbers are [Z]: every number the cache computes with is a length, a
      count or a millisecond time stamp.
    - [new Date().getTime()] is the argument [now] of the operation that
      reads the clock.
    - Listeners are opaque closures: a listener is a name, and calling it is
      recorded, with the store as it is at that moment, in the trace.
    - Timers: [setTimeout] and [clearTimeout] act on the table of armed
      timers kept beside the cache.
    - The one loop of the code that can fail to end (the byte pass of
      [prune]) returns [None] when it does not end. *)

From stdpp Require Import base option list sorting strings gmap.
From Stdlib Require Import ZArith Lia.

Open Scope Z_scope.

(** ** JavaScript values *)

Definition Buffer := list Byte.byte.

Inductive jsval :=
| VUndefined
| VNull
| VString (s : string)
| VBuffer (b : Buffer)
| VObject (id : nat).

Module Is.

(** Modelled from the spec: [is.value] of the package @toba/tools is not
    under src/; the README gives it as "whether x is not undefined and not
    null". *)
Definition value (x : jsval) : bool :=
  match x with
  | VUndefined | VNull => false
  | _ => true
  end.

(** Modelled from the spec: [is.empty] of @toba/tools is not under src/; the
    README gives it as "whether x is undefined, null or an empty string". *)
Definition empty (x : jsval) : bool :=
  match x with
  | VUndefined | VNull => true
  | VString s => bool_decide (s = EmptyString)
  | _ => false
  end.

End Is.

(** [byteSize]: "only handling the very simple cases of strings and
    Buffers"; [-1] for everything else. *)
Definition byteSize (obj : jsval) : Z :=
  match obj with
  | VString s => Z.of_nat (String.length s)
  | VBuffer b => Z.of_nat (List.length b)
  | _ => -1
  end.

(** [Array.prototype.indexOf]: the first index of [x], or [-1]. *)
Fixpoint indexOf {A} `{EqDecision A} (x : A) (l : list A) : Z :=
  match l with
  | [] => -1
  | y :: l' =>
      if decide (y = x) then 0
      else let i := indexOf x l' in if decide (i = -1) then -1 else 1 + i
  end.

(** ** The JavaScript [Map], in insertion order *)

Module JsMap.
Section JsMap.
Context {V : Type}.

Definition t := list (string * V).

Definition has (k : string) (m : t) : bool := bool_decide (k ∈ m.*1).

Fixpoint get (k : string) (m : t) : option V :=
  match m with
  | [] => None
  | (k', v) :: m' => if decide (k' = k) then Some v else get k m'
  end.

(** [set] on a key already there replaces the value and keeps the key's
    place in the iteration order; a new key goes last. *)
Fixpoint set (k : string) (v : V) (m : t) : t :=
  match m with
  | [] => [(k, v)]
  | (k', v') :: m' =>
      if decide (k' = k) then (k, v) :: m' else (k', v') :: set k v m'
  end.

Definition delete (k : string) (m : t) : t :=
  filter (λ kv, kv.1 ≠ k) m.

Definition clear (m : t) : t := [].

Definition values (m : t) : list V := m.*2.

Definition size (m : t) : Z := Z.of_nat (List.length m).

End JsMap.
Arguments t : clear implicits.
End JsMap.

(** ** EventEmitter *)

Module EventEmitter.

(** A listener is a closure of the caller: the model keeps its name. *)
Definition listener := nat.

Section EventEmitter.
Context {E : Type}.

(** [listeners: { [key: number]: ((event: E) => void)[] }] *)
Record t := { listeners : gmap nat (list listener) }.

Definition new : t := {| listeners := ∅ |}.

(** [is.defined(this.listeners, type)]: whether [type] is a property of
    the listener table. *)
Definition hasType (type : nat) (e : t) : bool :=
  bool_decide (is_Some (listeners e !! type)).

(** [emit] calls every listener of the type with the event, in the order
    they subscribed; the calls it makes are returned beside its result. *)
Definition emit (type : nat) (event : E) (e : t) : bool * list (listener * E) :=
  if hasType type e
  then (true, (λ fn, (fn, event)) <$> default [] (listeners e !! type))
  else (false, []).

Definition subscribe (type : nat) (fn : listener) (e : t) : listener * t :=
  let l := if hasType type e then default [] (listeners e !! type) else [] in
  (fn, {| listeners := <[type := l ++ [fn]]> (listeners e) |}).

Definition unsubscribeAll (type : option nat) (e : t) : bool * t :=
  match type with
  | None => (true, {| listeners := ∅ |})
  | Some ty =>
      if hasType ty e then (true, {| listeners := <[ty := []]> (listeners e) |})
      else (false, e)
  end.

End EventEmitter.
End EventEmitter.

(** ** Cache *)

Module CacheItem.
Record t := mk { key : string; added : Z; value : jsval; size : Z }.
End CacheItem.

(** A threshold is a number or [undefined] ([None]). *)
Record CachePolicy := mkPolicy {
  maxItems : option Z;
  maxAge : option Z;
  maxBytes : option Z
}.

Inductive EventType := ItemsEvicted | KeyNotFound.

(** The numeric value of the enum member. *)
Definition EventType_code (ty : EventType) : nat :=
  match ty with ItemsEvicted => 0%nat | KeyNotFound => 1%nat end.

(** What a notification carries: the list of evicted keys, or the key that
    was not found. *)
Inductive event :=
| Keys (ks : list string)
| Key (k : string).

Definition store := JsMap.t CacheItem.t.

(** [totalSize]: the sizes of the entries whose key is not in [except],
    added up from the left. *)
Definition totalSize (items : store) (except : list string) : Z :=
  foldl (λ total i, total + CacheItem.size i) 0
    (filter (λ i, indexOf (CacheItem.key i) except < 0) (JsMap.values items)).

Definition defaultPolicy : CachePolicy :=
  {| maxItems := Some 0; maxAge := Some 0; maxBytes := Some 0 |}.

(** Modelled from the spec: [merge] of @toba/tools is not under src/; the
    policy is "merged over defaults - any omitted field reverts to no
    limit": a field the caller gives wins, an omitted one is the default's. *)
Definition merge (base p : CachePolicy) : CachePolicy :=
  {| maxItems := match maxItems p with Some v => Some v | None => maxItems base end;
     maxAge := match maxAge p with Some v => Some v | None => maxAge base end;
     maxBytes := match maxBytes p with Some v => Some v | None => maxBytes base end |}.

(** [Array.prototype.sort] with the comparator [a.added - b.added] is a
    stable sort by [added]; a stable sort has one result, here computed by
    insertion from the right. *)
Fixpoint insert_by_added (x : CacheItem.t) (l : list CacheItem.t) : list CacheItem.t :=
  match l with
  | [] => [x]
  | y :: l' =>
      if decide (CacheItem.added x ≤ CacheItem.added y) then x :: l
      else y :: insert_by_added x l'
  end.

Definition sort_by_added (l : list CacheItem.t) : list CacheItem.t :=
  foldr insert_by_added [] l.

(** [x != 0] for a number or [undefined]: [undefined != 0] holds. *)
Definition ne0 (x : option Z) : bool :=
  match x with
  | Some v => bool_decide (v ≠ 0)
  | None => true
  end.

(** [x !== undefined && x > 0] *)
Definition positive_limit (x : option Z) : option Z :=
  match x with
  | Some v => if decide (0 < v) then Some v else None
  | None => None
  end.

Module Cache.

(** One call of [events.emit], as an observer sees it: the type and the
    event, the listener calls it made, and the store at that moment. *)
Record Emission := mkEmission {
  em_type : EventType;
  em_event : event;
  em_calls : list (EventEmitter.listener * event);
  em_store : store
}.

(** The fields of the class, then the environment of the instance: the
    timers armed with [this.prune], the next timer handle, and the trace of
    the emissions made so far. *)
Record t := mk {
  items : store;
  policy : CachePolicy;
  evictTimer : option nat;
  canMeasureSize : bool;
  events : EventEmitter.t;
  timers : list nat;
  next_timer : nat;
  trace : list Emission
}.

Definition with_items (m : store) (c : t) : t :=
  mk m (policy c) (evictTimer c) (canMeasureSize c) (events c)
     (timers c) (next_timer c) (trace c).

Definition with_policy (p : CachePolicy) (c : t) : t :=
  mk (items c) p (evictTimer c) (canMeasureSize c) (events c)
     (timers c) (next_timer c) (trace c).

Definition with_canMeasureSize (b : bool) (c : t) : t :=
  mk (items c) (policy c) (evictTimer c) b (events c)
     (timers c) (next_timer c) (trace c).

Definition with_events (e : EventEmitter.t) (c : t) : t :=
  mk (items c) (policy c) (evictTimer c) (canMeasureSize c) e
     (timers c) (next_timer c) (trace c).

(** [constructor(policy = {})]; timer handles are positive, so [0] is never
    one. *)
Definition new (p : CachePolicy) : t :=
  {| items := [];
     policy := merge defaultPolicy p;
     evictTimer := None;
     canMeasureSize := true;
     events := EventEmitter.new;
     timers := [];
     next_timer := 1;
     trace := [] |}.

(** [get length()] *)
Definition length (c : t) : Z := JsMap.size (items c).

(** [get size()]: "total byte size of items or -1 if size can't be
    measured". *)
Definition size (c : t) : Z :=
  if canMeasureSize c then totalSize (items c) [] else -1.

(** What [is.empty] is given by [contains]: the result of
    [this.items.get(key)], an entry (an object) or [undefined]. *)
Definition entry_as_value (o : option CacheItem.t) : jsval :=
  match o with
  | Some _ => VObject 0
  | None => VUndefined
  end.

Definition contains (key : string) (allowEmpty : bool) (c : t) : bool :=
  JsMap.has key (items c)
  && (allowEmpty || negb (Is.empty (entry_as_value (JsMap.get key (items c))))).

(** [clearTimeout(h)] and [setTimeout(this.prune.bind(this), 10)]. *)
Definition clearTimeout (h : nat) (c : t) : t :=
  mk (items c) (policy c) (evictTimer c) (canMeasureSize c) (events c)
     (filter (λ h', h' ≠ h) (timers c)) (next_timer c) (trace c).

Definition setTimeout (c : t) : nat * t :=
  (next_timer c,
   mk (items c) (policy c) (evictTimer c) (canMeasureSize c) (events c)
      (timers c ++ [next_timer c]) (S (next_timer c)) (trace c)).

Definition schedulePrune (c : t) : t :=
  let c1 := match evictTimer c with
            | Some h => clearTimeout h c
            | None => c
            end in
  let '(h, c2) := setTimeout c1 in
  mk (items c2) (policy c2) (Some h) (canMeasureSize c2) (events c2)
     (timers c2) (next_timer c2) (trace c2).

Section Estimator.
(** The size estimator [add] imports. *)
Variable measure : jsval → Z.

Definition add_with (now : Z) (key : string) (value : jsval) (c : t) : t :=
  let c1 :=
    if Is.value value then
      let '(size, can) :=
        if canMeasureSize c then
          let size := measure value in
          if decide (size = -1) then (0, false) else (size, true)
        else (0, false) in
      with_items
        (JsMap.set key (CacheItem.mk key now value size) (items c))
        (with_canMeasureSize can c)
    else c in
  schedulePrune c1.

End Estimator.

Definition add : Z → string → jsval → t → t := add_with byteSize.

(** [this.events.emit(type, event)], recorded in the trace. *)
Definition events_emit (ty : EventType) (ev : event) (c : t) : t :=
  let '(_, calls) := EventEmitter.emit (EventType_code ty) ev (events c) in
  mk (items c) (policy c) (evictTimer c) (canMeasureSize c) (events c)
     (timers c) (next_timer c)
     (trace c ++ [mkEmission ty ev calls (items c)]).

(** The working state of [prune]: [sorted] and [remove]. *)
Definition working := (list CacheItem.t * list string)%type.

Definition age_pass (now : Z) (p : CachePolicy) (w : working) : working :=
  let '(sorted, remove) := w in
  match positive_limit (maxAge p) with
  | Some maxAge =>
      let oldest := now - maxAge in
      let remove :=
        remove ++ (CacheItem.key <$> filter (λ i, CacheItem.added i < oldest) sorted) in
      (filter (λ i, indexOf (CacheItem.key i) remove = -1) sorted, remove)
  | None => w
  end.

Definition count_pass (p : CachePolicy) (w : working) : working :=
  let '(sorted, remove) := w in
  match positive_limit (maxItems p) with
  | Some maxItems =>
      if decide (maxItems < Z.of_nat (List.length sorted)) then
        let tooMany := Z.of_nat (List.length sorted) - maxItems in
        let remove := remove ++ (CacheItem.key <$> take (Z.to_nat tooMany) sorted) in
        (filter (λ i, indexOf (CacheItem.key i) remove = -1) sorted, remove)
      else w
  | None => w
  end.

(** [while (remainingSize > maxBytes) { item = sorted.shift(); ... }]: with
    [sorted] empty the body changes nothing and the loop does not end. *)
Fixpoint byte_loop (maxBytes remainingSize : Z) (sorted : list CacheItem.t)
    (remove : list string) : option working :=
  if decide (maxBytes < remainingSize) then
    match sorted with
    | [] => None
    | item :: sorted' =>
        byte_loop maxBytes (remainingSize - CacheItem.size item) sorted'
          (remove ++ [CacheItem.key item])
    end
  else Some (sorted, remove).

Definition byte_pass (c : t) (w : working) : option working :=
  match positive_limit (maxBytes (policy c)) with
  | Some maxBytes =>
      if canMeasureSize c
      then byte_loop maxBytes (totalSize (items c) w.2) w.1 w.2
      else Some w
  | None => Some w
  end.

(** The keys [prune] marks, when its passes end. *)
Definition marked (now : Z) (c : t) : option working :=
  byte_pass c
    (count_pass (policy c)
       (age_pass now (policy c) (sort_by_added (JsMap.values (items c)), []))).

Definition delete_all (remove : list string) (m : store) : store :=
  foldl (λ m key, JsMap.delete key m) m remove.

Definition prune (now : Z) (c : t) : option t :=
  if bool_decide (0 < length c)
     && (ne0 (maxAge (policy c)) || ne0 (maxItems (policy c))
         || ne0 (maxBytes (policy c)))
  then
    w ← marked now c;
    let remove := w.2 in
    if decide (0 < Z.of_nat (List.length remove)) then
      Some (events_emit ItemsEvicted (Keys remove)
              (with_items (delete_all remove (items c)) c))
    else Some c
  else Some c.

(** [get(key, silent = false)]; [null] is the result for a missing key. *)
Definition get (key : string) (silent : bool) (c : t) : jsval * t :=
  if JsMap.has key (items c) then
    match JsMap.get key (items c) with
    | Some item => (CacheItem.value item, c)
    | None => (VNull, c)
    end
  else (VNull, if silent then c else events_emit KeyNotFound (Key key) c).

Definition remove (key : string) (c : t) : t :=
  with_items (JsMap.delete key (items c)) c.

Definition clear (c : t) : t := with_items (JsMap.clear (items c)) c.

Definition updatePolicy (p : CachePolicy) (c : t) : t :=
  schedulePrune (with_policy (merge defaultPolicy p) c).

(** The event loop runs the callback of an armed timer: the timer leaves
    the table and [prune] runs.  A handle that is not armed does nothing. *)
Definition fire (now : Z) (h : nat) (c : t) : option t :=
  if bool_decide (h ∈ timers c) then prune now (clearTimeout h c) else Some c.

(** What a user of the instance, or the event loop, can do to it. *)
Inductive op :=
| Add (now : Z) (key : string) (value : jsval)
| Get (key : string) (silent : bool)
| Remove (key : string)
| Clear
| UpdatePolicy (p : CachePolicy)
| Prune (now : Z)
| Fire (now : Z) (h : nat)
| Subscribe (ty : EventType) (fn : EventEmitter.listener).

Definition step (o : op) (c : t) : option t :=
  match o with
  | Add now key value => Some (add now key value c)
  | Get key silent => Some (get key silent c).2
  | Remove key => Some (remove key c)
  | Clear => Some (clear c)
  | UpdatePolicy p => Some (updatePolicy p c)
  | Prune now => prune now c
  | Fire now h => fire now h c
  | Subscribe ty fn =>
      Some (with_events (EventEmitter.subscribe (EventType_code ty) fn (events c)).2 c)
  end.

Fixpoint run (ops : list op) (c : t) : option t :=
  match ops with
  | [] => Some c
  | o :: ops' => c' ← step o c; run ops' c'
  end.

(** What every reachable instance satisfies: keys are unique, an entry is
    stored under its own key, and no recorded size is negative. *)
Definition wf (c : t) : Prop :=
  NoDup (items c).*1
  ∧ Forall (λ kv, CacheItem.key kv.2 = kv.1 ∧ 0 ≤ CacheItem.size kv.2) (items c).

End Cache.

(** ** CompressCache

    [CompressCache extends Cache<Buffer>].  Its base class is the [Cache]
    that stands in the same file; that class is [Cache] above, up to the
    names of the private fields, except that its [get] has no [silent]
    parameter (it always notifies a miss), that it tests
    [_evictTimer > 0] where the other tests [is.value(evictTimer)], which
    agree since [_evictTimer] starts at [0] and handles are positive, and
    that the loop of its byte pass reads [item.size] of the [undefined] that
    [shift()] returns on an empty [sorted]: it throws where the other loops
    for ever, and in both cases [prune] has no result ([None]).

    An [async] method runs until its first [await] inside the call; what
    follows the [await] runs when the awaited operation completes.  The
    operations in flight ([gzip], [unzip], the loader) are the [jobs] of the
    event loop, each with the rest of the method that waits for it.  A
    continuation that waits on a promise which is already settled, or which
    is settled by the running callback, is run at once: it runs before the
    event loop turns to anything else, and none of them reads what the rest
    of the callback writes.  Failures of [gzip] and of the loader are
    outside the model; [unzip] fails on what it cannot read. *)

Module CompressCache.

Definition promise := nat.

(** How a promise is settled: with a value, with the cache itself (the
    result of [super.add]), or by a rejection. *)
Inductive outcome :=
| Value (v : jsval)
| This
| Rejected.

(** What waits for an operation in flight. *)
Inductive job :=
(** [await gzip(value)] in [addText(key, value)], whose promise is [pa] *)
| Gzip (value : string) (key : string) (pa : promise)
(** [return unzip(bytes)] in a [getText] whose promise is [p] *)
| Unzip (bytes : Buffer) (p : promise)
(** [this.loader(key).then(text => ...)] in a [getZip] whose promise is [q] *)
| LoadForZip (key : string) (q : promise)
(** [await this.loader(key)] in a [getText] whose promise is [p] *)
| LoadForText (key : string) (p : promise).

(** The event loop and the promises, as far as the cache is concerned. *)
Module Loop.
Record t := mk {
  jobs : gmap nat job;
  next_job : nat;
  next_promise : promise;
  (** the promises settled so far, oldest first *)
  settled : list (promise * outcome);
  (** [bytes = await this.getZip(key)]: the promise of [getZip], with the
      key and the promise of the [getText] that waits *)
  awaiting : gmap promise (string * promise);
  (** [this.addText(key, text).then(() => super.get(key))]: the promise of
      [addText], with the key and the promise of the [getZip] that waits *)
  chained : gmap promise (string * promise);
  (** the texts [gzip] was called with, oldest first *)
  gzip_calls : list string
}.

Definition new : t := mk ∅ 0%nat 0%nat [] ∅ ∅ [].

Definition fresh (l : t) : promise * t :=
  (next_promise l,
   mk (jobs l) (next_job l) (S (next_promise l)) (settled l) (awaiting l)
      (chained l) (gzip_calls l)).

Definition record (p : promise) (r : outcome) (l : t) : t :=
  mk (jobs l) (next_job l) (next_promise l) (settled l ++ [(p, r)])
     (awaiting l) (chained l) (gzip_calls l).

Definition start (jb : job) (l : t) : t :=
  mk (<[next_job l := jb]> (jobs l)) (S (next_job l)) (next_promise l)
     (settled l) (awaiting l) (chained l)
     (match jb with
      | Gzip value _ _ => gzip_calls l ++ [value]
      | _ => gzip_calls l
      end).

Definition finish (j : nat) (l : t) : t :=
  mk (delete j (jobs l)) (next_job l) (next_promise l) (settled l)
     (awaiting l) (chained l) (gzip_calls l).

Definition await (q : promise) (key : string) (p : promise) (l : t) : t :=
  mk (jobs l) (next_job l) (next_promise l) (settled l)
     (<[q := (key, p)]> (awaiting l)) (chained l) (gzip_calls l).

Definition awaited (q : promise) (l : t) : t :=
  mk (jobs l) (next_job l) (next_promise l) (settled l)
     (delete q (awaiting l)) (chained l) (gzip_calls l).

Definition chain (pa : promise) (key : string) (q : promise) (l : t) : t :=
  mk (jobs l) (next_job l) (next_promise l) (settled l) (awaiting l)
     (<[pa := (key, q)]> (chained l)) (gzip_calls l).

Definition unchain (pa : promise) (l : t) : t :=
  mk (jobs l) (next_job l) (next_promise l) (settled l) (awaiting l)
     (delete pa (chained l)) (gzip_calls l).

(** The outcome of a promise, once settled. *)
Definition outcome_of (p : promise) (l : t) : option outcome :=
  (λ x, x.2.2) <$> list_find (λ pr, pr.1 = p) (settled l).

End Loop.

Definition CacheLoader := string → string.

Record t := mk {
  base : Cache.t;
  loader : option CacheLoader;
  zipBuffer : gmap string string;
  zipQueue : gmap string (list promise);
  loop : Loop.t
}.

Definition with_base (b : Cache.t) (s : t) : t :=
  mk b (loader s) (zipBuffer s) (zipQueue s) (loop s).

Definition with_loop (l : Loop.t) (s : t) : t :=
  mk (base s) (loader s) (zipBuffer s) (zipQueue s) l.

(** [constructor(loaderOrPolicy?, policy?)], after its overloads are told
    apart: no loader is [null], no policy is [{}]. *)
Definition new (ld : option CacheLoader) (policy : option CachePolicy) : t :=
  {| base := Cache.new (default (mkPolicy None None None) policy);
     loader := ld;
     zipBuffer := ∅;
     zipQueue := ∅;
     loop := Loop.new |}.

(** [super.get(key)] of the base class of this file: a miss is always
    notified. *)
Definition super_get (key : string) (s : t) : jsval * t :=
  let '(v, b) := Cache.get key false (base s) in (v, with_base b s).

Definition super_add (now : Z) (key : string) (value : jsval) (s : t) : t :=
  with_base (Cache.add now key value (base s)) s.

Definition contains (key : string) (s : t) : bool :=
  Cache.contains key false (base s).

Definition beginZip (key value : string) (s : t) : t :=
  mk (base s) (loader s) (<[key := value]> (zipBuffer s))
     (<[key := []]> (zipQueue s)) (loop s).

(** [addText] up to [await gzip(value)]. *)
Definition addText (key value : string) (s : t) : promise * t :=
  let '(pa, l) := Loop.fresh (loop s) in
  let s := with_loop l s in
  if Is.empty (VString value) then
    (pa, with_loop (Loop.record pa (Value VUndefined) (loop s)) s)
  else
    let s := beginZip key value s in
    (pa, with_loop (Loop.start (Gzip value key pa) (loop s)) s).

(** [getText] after [bytes = await this.getZip(key)], for the [getText]
    whose promise is [p], given how the promise of [getZip] was settled. *)
Definition getText_resume (key : string) (p : promise) (r : outcome) (s : t) : t :=
  match r with
  | Value VNull =>
      match loader s with
      | Some _ => with_loop (Loop.start (LoadForText key p) (loop s)) s
      | None => with_loop (Loop.record p (Value VNull) (loop s)) s
      end
  | Value (VBuffer bytes) => with_loop (Loop.start (Unzip bytes p) (loop s)) s
  | _ => with_loop (Loop.record p Rejected (loop s)) s
  end.

(** Settling the promise a [getZip] returned: the [getText] that awaits
    it, if there is one, goes on. *)
Definition settle (q : promise) (r : outcome) (s : t) : t :=
  let s := with_loop (Loop.record q r (loop s)) s in
  match Loop.awaiting (loop s) !! q with
  | Some (key, p) => getText_resume key p r (with_loop (Loop.awaited q (loop s)) s)
  | None => s
  end.

(** Settling the promise of an [addText]: a [.then(() => super.get(key))]
    chained to it, if there is one, runs when it is fulfilled and is
    rejected with it otherwise. *)
Definition settle_addText (pa : promise) (r : outcome) (s : t) : t :=
  let s := with_loop (Loop.record pa r (loop s)) s in
  match Loop.chained (loop s) !! pa with
  | Some (key, q) =>
      let s := with_loop (Loop.unchain pa (loop s)) s in
      match r with
      | Rejected => settle q Rejected s
      | _ => let '(v, s) := super_get key s in settle q (Value v) s
      end
  | None => s
  end.

(** [endZip]: [false] when [queue.forEach] throws because the key has no
    queue (the two deletions before it stay done). *)
Definition endZip (key : string) (zipped : Buffer) (s : t) : bool * t :=
  let queue := zipQueue s !! key in
  let s := mk (base s) (loader s) (delete key (zipBuffer s))
              (delete key (zipQueue s)) (loop s) in
  match queue with
  | Some fns => (true, foldl (λ s fn, settle fn (Value (VBuffer zipped)) s) s fns)
  | None => (false, s)
  end.

Definition getZip (key : string) (s : t) : promise * t :=
  let '(q, l) := Loop.fresh (loop s) in
  let s := with_loop l s in
  if contains key s then
    let '(v, s) := super_get key s in
    (q, with_loop (Loop.record q (Value v) (loop s)) s)
  else if bool_decide (is_Some (zipQueue s !! key)) then
    (q, mk (base s) (loader s) (zipBuffer s)
           (<[key := default [] (zipQueue s !! key) ++ [q]]> (zipQueue s))
           (loop s))
  else
    match loader s with
    | Some _ => (q, with_loop (Loop.start (LoadForZip key q) (loop s)) s)
    | None => (q, with_loop (Loop.record q (Value VNull) (loop s)) s)
    end.

Definition getText (key : string) (s : t) : promise * t :=
  let '(p, l) := Loop.fresh (loop s) in
  let s := with_loop l s in
  match zipBuffer s !! key with
  | Some text => (p, with_loop (Loop.record p (Value (VString text)) (loop s)) s)
  | None =>
      let '(q, s) := getZip key s in
      match Loop.outcome_of q (loop s) with
      | Some r => (p, getText_resume key p r s)
      | None => (p, with_loop (Loop.await q key p (loop s)) s)
      end
  end.

Section Codec.
(** [gzip] and [unzip], by what their promises are fulfilled with; [unzip]
    rejects ([None]) what it cannot read. *)
Variable gzip : string → Buffer.
Variable unzip : Buffer → option string.

(** The operation [j] in flight completes and what waits for it runs. *)
Definition complete (now : Z) (j : nat) (s : t) : t :=
  match Loop.jobs (loop s) !! j with
  | None => s
  | Some jb =>
      let s := with_loop (Loop.finish j (loop s)) s in
      match jb with
      | Gzip value key pa =>
          let zipped := gzip value in
          let '(ok, s) := endZip key zipped s in
          if ok then settle_addText pa This (super_add now key (VBuffer zipped) s)
          else settle_addText pa Rejected s
      | Unzip bytes p =>
          match unzip bytes with
          | Some text => with_loop (Loop.record p (Value (VString text)) (loop s)) s
          | None => with_loop (Loop.record p Rejected (loop s)) s
          end
      | LoadForZip key q =>
          match loader s with
          | Some ld =>
              let '(pa, s) := addText key (ld key) s in
              match Loop.outcome_of pa (loop s) with
              | Some _ => let '(v, s) := super_get key s in settle q (Value v) s
              | None => with_loop (Loop.chain pa key q (loop s)) s
              end
          | None => s
          end
      | LoadForText key p =>
          match loader s with
          | Some ld =>
              let value := ld key in
              let '(_, s) := addText key value s in
              with_loop (Loop.record p (Value (VString value)) (loop s)) s
          | None => s
          end
      end
  end.

(** What a user of the instance, or the event loop, can do to it. *)
Inductive op :=
| AddText (key value : string)
| GetZip (key : string)
| GetText (key : string)
| Complete (now : Z) (j : nat)
| Base (o : Cache.op).

Definition step (o : op) (s : t) : option t :=
  match o with
  | AddText key value => Some (addText key value s).2
  | GetZip key => Some (getZip key s).2
  | GetText key => Some (getText key s).2
  | Complete now j => Some (complete now j s)
  | Base o => b ← Cache.step o (base s); Some (with_base b s)
  end.

Fixpoint run (ops : list op) (s : t) : option t :=
  match ops with
  | [] => Some s
  | o :: ops' => s' ← step o s; run ops' s'
  end.

End Codec.

End CompressCache.

(** Promise names are handed out in increasing order: in every reachable
    state each name held anywhere is below the next one to hand out. *)
Definition job_promise (jb : CompressCache.job) : CompressCache.promise :=
  match jb with
  | CompressCache.Gzip _ _ pa => pa
  | CompressCache.Unzip _ p => p
  | CompressCache.LoadForZip _ q => q
  | CompressCache.LoadForText _ p => p
  end.

Definition promises_below (n : nat) (s : CompressCache.t) : Prop :=
  let l := CompressCache.loop s in
  Forall (λ pr, (pr.1 < n)%nat) (CompressCache.Loop.settled l)
  ∧ (∀ q key p, CompressCache.Loop.awaiting l !! q = Some (key, p) → (q < n)%nat ∧ (p < n)%nat)
  ∧ (∀ pa key q, CompressCache.Loop.chained l !! pa = Some (key, q) → (pa < n)%nat ∧ (q < n)%nat)
  ∧ (∀ j jb, CompressCache.Loop.jobs l !! j = Some jb → (job_promise jb < n)%nat)
  ∧ (∀ key fns, CompressCache.zipQueue s !! key = Some fns → Forall (λ q, (q < n)%nat) fns).

Definition promises_fresh (s : CompressCache.t) : Prop :=
  promises_below (CompressCache.Loop.next_promise (CompressCache.loop s)) s.

(** ** A codec and a few instances to run the model on *)

(** The codec that stores the text as its bytes: lossless, as [gzip] and
    [unzip] are required to be. *)
Definition stored_gzip (text : string) : Buffer := String.list_byte_of_string text.
Definition stored_unzip (bytes : Buffer) : option string :=
  Some (String.string_of_list_byte bytes).

Definition no_limits : CachePolicy := mkPolicy None None None.

(** Three entries of sizes 1, 2 and 3 added at times 1, 2 and 3, under
    [{maxItems: 2}] and under [{maxBytes: 4}]. *)
Definition three_adds (p : CachePolicy) : Cache.t :=
  Cache.add 3 "c" (VString "zzz")
    (Cache.add 2 "b" (VString "yy")
       (Cache.add 1 "a" (VString "x") (Cache.new p))).

Definition max_two_items : CachePolicy := mkPolicy (Some 2) None None.
Definition max_four_bytes : CachePolicy := mkPolicy None None (Some 4).
Definition max_age_18 : CachePolicy := mkPolicy None (Some 18) None.
Definition all_limits : CachePolicy := mkPolicy (Some 2) (Some 18) (Some 4).

(** The same under [{maxItems: 2}], with listener 7 subscribed to
    [ItemsEvicted]. *)
Definition three_adds_listening : Cache.t :=
  Cache.with_events
    (EventEmitter.subscribe (EventType_code ItemsEvicted) 7%nat
       (Cache.events (three_adds max_two_items))).2
    (three_adds max_two_items).

(** An instance that was given a value [byteSize] cannot measure. *)
Definition unmeasurable_cache : Cache.t :=
  Cache.add 1 "o" (VObject 7) (Cache.new no_limits).

(** A compressing cache that holds key "k", compressed from "a", and is
    compressing "b" for the same key. *)
Definition holds_k : CompressCache.t :=
  CompressCache.complete stored_gzip stored_unzip 5 0
    (CompressCache.addText "k" "a" (CompressCache.new None None)).2.

Definition holds_k_compressing_b : CompressCache.t :=
  (CompressCache.addText "k" "b" holds_k).2.


(** A decoder that rejects the empty buffer and reads every other one as
    [stored_unzip] does. *)
Definition strict_unzip (bytes : Buffer) : option string :=
  if decide (bytes = []) then None else stored_unzip bytes.

(** A compressing cache that was given an empty Buffer by [add]. *)
Definition holds_empty_buffer : CompressCache.t :=
  CompressCache.with_base
    (Cache.add 1 "k" (VBuffer []) (CompressCache.base (CompressCache.new None None)))
    (CompressCache.new None None).

(** ** Notions the properties are stated with *)

(** [a] was added no later than [b]. *)
Definition older (a b : CacheItem.t) : Prop := CacheItem.added a ≤ CacheItem.added b.

(** The sizes of the entries of [l], added up as [totalSize] does. *)
Definition sizes (l : list CacheItem.t) : Z :=
  foldl (λ total i, total + CacheItem.size i) 0 l.

(** The entries of [l] whose key is not in [except]. *)
Definition unmarked (except : list string) (l : list CacheItem.t) : list CacheItem.t :=
  filter (λ i, CacheItem.key i ∉ except) l.

(** What [add] takes for empty: it stores a value only when [is.value]
    holds of it. *)
Definition empty_for_add (v : jsval) : bool := negb (Is.value v).

(** What holds of the working state of [prune] between its passes: [sorted]
    holds, oldest first, the entries not marked so far, and the marked keys
    are keys of the store, each marked once. *)
Definition pass_inv (m : store) (w : Cache.working) : Prop :=
  w.1 ≡ₚ unmarked w.2 (JsMap.values m)
  ∧ StronglySorted older w.1
  ∧ NoDup w.2
  ∧ (∀ k, k ∈ w.2 → k ∈ m.*1).

(** [c'] differs from [c] in the store at most: same policy, same flag,
    same listeners, same timers and timer handle, same trace. *)
Definition same_but_items (c c' : Cache.t) : Prop :=
  Cache.policy c' = Cache.policy c
  ∧ Cache.evictTimer c' = Cache.evictTimer c
  ∧ Cache.canMeasureSize c' = Cache.canMeasureSize c
  ∧ Cache.events c' = Cache.events c
  ∧ Cache.timers c' = Cache.timers c
  ∧ Cache.next_timer c' = Cache.next_timer c
  ∧ Cache.trace c' = Cache.trace c.

(** The timers armed after [schedulePrune]: the one the instance held is
    cleared and a new one is armed. *)
Definition rearmed (c : Cache.t) : list nat :=
  match Cache.evictTimer c with
  | Some h => filter (λ h', h' ≠ h) (Cache.timers c)
  | None => Cache.timers c
  end ++ [Cache.next_timer c].

(** An operation that leaves the staging of [key] alone: it is no
    [addText] of the key, and it completes neither a compression nor a load
    for the key. *)
Definition leaves_staging (key : string) (s : CompressCache.t) (o : CompressCache.op) : Prop :=
  match o with
  | CompressCache.AddText key' _ => key' ≠ key
  | CompressCache.Complete _ j =>
      match CompressCache.Loop.jobs (CompressCache.loop s) !! j with
      | Some (CompressCache.Gzip _ key' _)
      | Some (CompressCache.LoadForZip key' _)
      | Some (CompressCache.LoadForText key' _) => key' ≠ key
      | _ => True
      end
  | _ => True
  end.

(** A run of operations each of which leaves the staging of [key] alone. *)
Fixpoint quiet (gzip : string → Buffer) (unzip : Buffer → option string)
    (key : string) (ops : list CompressCache.op) (s : CompressCache.t) : Prop :=
  match ops with
  | [] => True
  | o :: ops' =>
      leaves_staging key s o
      ∧ match CompressCache.step gzip unzip o s with
        | Some s' => quiet gzip unzip key ops' s'
        | None => True
        end
  end.

(** An operation that leaves the queue of [key] alone: it is no [addText]
    and no [getZip] of the key, it completes neither a compression nor a
    load for the key, and it is no [add] of the key to the store. *)
Definition leaves_queue (key : string) (s : CompressCache.t) (o : CompressCache.op) : Prop :=
  match o with
  | CompressCache.AddText key' _ => key' ≠ key
  | CompressCache.GetZip key' => key' ≠ key
  | CompressCache.GetText _ => True
  | CompressCache.Complete _ j =>
      match CompressCache.Loop.jobs (CompressCache.loop s) !! j with
      | Some (CompressCache.Gzip _ key' _)
      | Some (CompressCache.LoadForZip key' _)
      | Some (CompressCache.LoadForText key' _) => key' ≠ key
      | _ => True
      end
  | CompressCache.Base (Cache.Add _ key' _) => key' ≠ key
  | CompressCache.Base _ => True
  end.

(** [waits key s qs s']: from [s] the cache has come to [s'] by calls of
    [getZip(key)], which returned the promises [qs] in this order, and by
    operations that leave the queue of [key] alone. *)
Inductive waits (gzip : string → Buffer) (unzip : Buffer → option string)
    (key : string) (s : CompressCache.t) :
    list CompressCache.promise → CompressCache.t → Prop :=
| waits_none : waits gzip unzip key s [] s
| waits_call qs s' :
    waits gzip unzip key s qs s' →
    waits gzip unzip key s (qs ++ [(CompressCache.getZip key s').1])
      (CompressCache.getZip key s').2
| waits_other qs s' o s'' :
    waits gzip unzip key s qs s' →
    leaves_queue key s' o →
    CompressCache.step gzip unzip o s' = Some s'' →
    waits gzip unzip key s qs s''.

(** The promises [qs] have no part yet: none is settled, none is the
    promise of a waiting [getText], of a waiting [getZip] or of an operation
    in flight, and none stands in the queue of a key other than [key]. *)
Definition apart (key : string) (qs : list CompressCache.promise)
    (s : CompressCache.t) : Prop :=
  (∀ q, q ∈ qs → q ∉ (CompressCache.Loop.settled (CompressCache.loop s)).*1)
  ∧ (∀ q0 k p, CompressCache.Loop.awaiting (CompressCache.loop s) !! q0 = Some (k, p) →
               p ∉ qs)
  ∧ (∀ pa k q, CompressCache.Loop.chained (CompressCache.loop s) !! pa = Some (k, q) →
               q ∉ qs)
  ∧ (∀ j jb, CompressCache.Loop.jobs (CompressCache.loop s) !! j = Some jb →
             job_promise jb ∉ qs)
  ∧ (∀ key' fns, key' ≠ key → CompressCache.zipQueue s !! key' = Some fns →
                 ∀ q, q ∈ fns → q ∉ qs).

(** The compression of [text] for [key], started by an [addText] whose
    promise is [pa], is in flight as operation [j]; nothing is chained to
    that promise; the queue of the key holds [qs], which no [getText]
    awaits and which have no part yet; the store does not hold the key. *)
Definition in_flight (key text : string) (j : nat) (pa : CompressCache.promise)
    (qs : list CompressCache.promise) (s : CompressCache.t) : Prop :=
  ((j < CompressCache.Loop.next_job (CompressCache.loop s))%nat
   ∧ CompressCache.Loop.jobs (CompressCache.loop s) !! j
     = Some (CompressCache.Gzip text key pa)
   ∧ CompressCache.Loop.chained (CompressCache.loop s) !! pa = None
   ∧ CompressCache.zipQueue s !! key = Some qs
   ∧ (∀ q, q ∈ qs → CompressCache.Loop.awaiting (CompressCache.loop s) !! q = None)
   ∧ JsMap.has key (Cache.items (CompressCache.base s)) = false
   ∧ CompressCache.zipBuffer s !! key = Some text)
  ∧ apart key qs s.

(** What claim C8 says of an [addText(key, text)] from [s], of the calls of
    [getZip(key)] made since, which returned [qs] and led to [s2], of one
    more such call, and of the completion of the compression: [addText]
    called [gzip] once, with [text]; the queue of the key holds [qs],
    distinct and not settled; one more call returns a new promise, appends
    it to the queue, starts no operation, calls no [gzip] and settles
    nothing; the completion fulfils [qs] in their order with the one buffer
    [gzip text], then the promise of [addText], drops the queue and calls no
    [gzip]. *)
Definition queues_in_flight (gzip : string → Buffer) (unzip : Buffer → option string)
    (now : Z) (key text : string) (s : CompressCache.t)
    (qs : list CompressCache.promise) (s2 : CompressCache.t) : Prop :=
  let pa := (CompressCache.addText key text s).1 in
  let s1 := (CompressCache.addText key text s).2 in
  let call := CompressCache.getZip key s2 in
  let s3 := CompressCache.complete gzip unzip now
              (CompressCache.Loop.next_job (CompressCache.loop s)) s2 in
  let zipped := CompressCache.Value (VBuffer (gzip text)) in
  CompressCache.Loop.gzip_calls (CompressCache.loop s1)
  = CompressCache.Loop.gzip_calls (CompressCache.loop s) ++ [text]
  ∧ CompressCache.zipQueue s2 !! key = Some qs
  ∧ NoDup qs
  ∧ Forall (λ q, CompressCache.Loop.outcome_of q (CompressCache.loop s2) = None) qs
  ∧ ¬ (call.1 ∈ qs)
  ∧ CompressCache.zipQueue call.2 !! key = Some (qs ++ [call.1])
  ∧ CompressCache.Loop.jobs (CompressCache.loop call.2)
    = CompressCache.Loop.jobs (CompressCache.loop s2)
  ∧ CompressCache.Loop.gzip_calls (CompressCache.loop call.2)
    = CompressCache.Loop.gzip_calls (CompressCache.loop s2)
  ∧ CompressCache.Loop.settled (CompressCache.loop call.2)
    = CompressCache.Loop.settled (CompressCache.loop s2)
  ∧ CompressCache.Loop.settled (CompressCache.loop s3)
    = CompressCache.Loop.settled (CompressCache.loop s2)
      ++ ((λ q, (q, zipped)) <$> qs) ++ [(pa, CompressCache.This)]
  ∧ Forall (λ q, CompressCache.Loop.outcome_of q (CompressCache.loop s3) = Some zipped) qs
  ∧ CompressCache.zipQueue s3 !! key = None
  ∧ CompressCache.Loop.gzip_calls (CompressCache.loop s3)
    = CompressCache.Loop.gzip_calls (CompressCache.loop s2).

(** The entries of the store, oldest first, as [prune] sorts them. *)
Definition by_age (c : Cache.t) : list CacheItem.t :=
  sort_by_added (JsMap.values (Cache.items c)).

(** The entries [l] are within the limits [prune] enforces at time [now]:
    none was added more than a positive [maxAge] ago, they are at most a
    positive [maxItems], and, when sizes can be measured, their sizes add up
    to at most a positive [maxBytes]. *)
Definition within_policy (now : Z) (p : CachePolicy) (measurable : bool)
    (l : list CacheItem.t) : Prop :=
  (∀ A, positive_limit (maxAge p) = Some A →
        Forall (λ i, now - A ≤ CacheItem.added i) l)
  ∧ (∀ N, positive_limit (maxItems p) = Some N → Z.of_nat (List.length l) ≤ N)
  ∧ (∀ B, positive_limit (maxBytes p) = Some B → measurable = true → sizes l ≤ B).

(** At most one timer is armed with [prune], and the instance holds its
    handle. *)
Definition one_timer (c : Cache.t) : Prop :=
  Cache.timers c = []
  ∨ ∃ h, Cache.timers c = [h] ∧ Cache.evictTimer c = Some h.

(** A policy none of whose limits is positive: [prune] has nothing to
    enforce. *)
Definition unlimited (p : CachePolicy) : Prop :=
  positive_limit (maxAge p) = None
  ∧ positive_limit (maxItems p) = None
  ∧ positive_limit (maxBytes p) = None.

(** An operation that neither replaces the policy nor removes an entry at
    the caller's request. *)
Definition keeps_entries (o : Cache.op) : Prop :=
  match o with
  | Cache.UpdatePolicy _ | Cache.Remove _ | Cache.Clear => False
  | _ => True
  end.

(** The size recorded for an entry is the byte size of its value. *)
Definition measured (i : CacheItem.t) : Prop :=
  CacheItem.size i = byteSize (CacheItem.value i) ∧ 0 ≤ byteSize (CacheItem.value i).

(** [subscribe] called for each pair of a type and a listener, in order. *)
Definition subscribe_all (subs : list (nat * EventEmitter.listener))
    (e : EventEmitter.t) : EventEmitter.t :=
  foldl (λ e s, (EventEmitter.subscribe s.1 s.2 e).2) e subs.

(** [s'] differs from [s] by promises settled and by what that resumed: the
    entries of the store, the staging and the queues are those of [s], and
    so are the operations in flight in [s]. *)
Definition resumes (s s' : CompressCache.t) : Prop :=
  Cache.items (CompressCache.base s') = Cache.items (CompressCache.base s)
  ∧ CompressCache.zipBuffer s' = CompressCache.zipBuffer s
  ∧ CompressCache.zipQueue s' = CompressCache.zipQueue s
  ∧ (CompressCache.Loop.next_job (CompressCache.loop s)
     ≤ CompressCache.Loop.next_job (CompressCache.loop s'))%nat
  ∧ ∀ j, (j < CompressCache.Loop.next_job (CompressCache.loop s))%nat →
         CompressCache.Loop.jobs (CompressCache.loop s') !! j
         = CompressCache.Loop.jobs (CompressCache.loop s) !! j.

(** The compression of [text] for [key], started by an [addText] whose
    promise is [pa], is in flight as operation [j]: the text is staged and
    the key has a queue. *)
Definition compressing (key text : string) (j : nat) (pa : CompressCache.promise)
    (s : CompressCache.t) : Prop :=
  (j < CompressCache.Loop.next_job (CompressCache.loop s))%nat
  ∧ CompressCache.Loop.jobs (CompressCache.loop s) !! j
    = Some (CompressCache.Gzip text key pa)
  ∧ is_Some (CompressCache.zipQueue s !! key)
  ∧ CompressCache.zipBuffer s !! key = Some text.

(** What claim C7 says of an [addText(key, text)] from [s] and of a state
    [s'] reached while its compression is in flight.  In [s'] the
    compression is still in flight and [getText(key)] is fulfilled at once
    with [text].  When the compression completes, the store holds the
    compressed buffer under [key], nothing is staged for [key], and in
    every state [s3] reached from there in which that is still so,
    [getText(key)] starts [unzip] on that buffer, its promise is pending,
    and it is fulfilled with [text] when [unzip] completes. *)
Definition round_trip (gzip : string → Buffer) (unzip : Buffer → option string)
    (now : Z) (key text : string) (s s' : CompressCache.t) : Prop :=
  let pa := (CompressCache.addText key text s).1 in
  let j := CompressCache.Loop.next_job (CompressCache.loop s) in
  CompressCache.Loop.jobs (CompressCache.loop s') !! j
  = Some (CompressCache.Gzip text key pa)
  ∧ CompressCache.Loop.outcome_of (CompressCache.getText key s').1
      (CompressCache.loop (CompressCache.getText key s').2)
    = Some (CompressCache.Value (VString text))
  ∧ (let s2 := CompressCache.complete gzip unzip now j s' in
     (Cache.get key true (CompressCache.base s2)).1 = VBuffer (gzip text)
     ∧ CompressCache.zipBuffer s2 !! key = None
     ∧ CompressCache.Loop.jobs (CompressCache.loop s2) !! j = None
     ∧ ∀ (ops : list CompressCache.op) (s3 : CompressCache.t) (now' : Z),
         CompressCache.run gzip unzip ops s2 = Some s3 →
         (Cache.get key true (CompressCache.base s3)).1 = VBuffer (gzip text) →
         CompressCache.zipBuffer s3 !! key = None →
         let p := (CompressCache.getText key s3).1 in
         let s4 := (CompressCache.getText key s3).2 in
         let j' := CompressCache.Loop.next_job (CompressCache.loop s3) in
         CompressCache.Loop.jobs (CompressCache.loop s4) !! j'
         = Some (CompressCache.Unzip (gzip text) p)
         ∧ CompressCache.Loop.outcome_of p (CompressCache.loop s4) = None
         ∧ CompressCache.Loop.outcome_of p
             (CompressCache.loop (CompressCache.complete gzip unzip now' j' s4))
           = Some (CompressCache.Value (VString text))).

(** * Properties *)

(** ** Lists, [indexOf] and the insertion-ordered map *)

Section ListFacts.
Context {A : Type} `{EqDecision A}.

Lemma indexOf_ge (x : A) (l : list A) : -1 ≤ indexOf x l.
Proof.
  induction l as [|y l IH]; simpl; [lia|].
  destruct (decide (y = x)); [lia|].
  destruct (decide (indexOf x l = -1)); lia.
Qed.

Lemma indexOf_notin (x : A) (l : list A) : indexOf x l = -1 ↔ x ∉ l.
Proof.
  induction l as [|y l IH]; simpl.
  - split; [intros _; apply not_elem_of_nil | done].
  - rewrite not_elem_of_cons. destruct (decide (y = x)) as [->|Hne].
    + split; [lia | intros [? _]; done].
    + pose proof (indexOf_ge x l).
      destruct (decide (indexOf x l = -1)) as [Hi|Hi].
      * split; [intros _; split; [congruence | by apply IH] | done].
      * split; [lia | intros [_ Hn]; apply IH in Hn; done].
Qed.

Lemma indexOf_neg (x : A) (l : list A) : indexOf x l < 0 ↔ x ∉ l.
Proof.
  rewrite <- indexOf_notin. pose proof (indexOf_ge x l). lia.
Qed.

End ListFacts.

Section JsMapFacts.
Context {V : Type}.
Implicit Types (m : JsMap.t V) (k : string) (v : V).

Lemma has_true k m : JsMap.has k m = true ↔ k ∈ m.*1.
Proof. unfold JsMap.has. apply bool_decide_eq_true. Qed.

Lemma has_false k m : JsMap.has k m = false ↔ k ∉ m.*1.
Proof. unfold JsMap.has. apply bool_decide_eq_false. Qed.

Lemma get_None k m : JsMap.get k m = None ↔ k ∉ m.*1.
Proof.
  induction m as [|[k' v'] m IH]; simpl.
  - split; [intros _; apply not_elem_of_nil | done].
  - rewrite not_elem_of_cons. destruct (decide (k' = k)) as [->|Hne].
    + split; [done | intros [? _]; done].
    + rewrite IH. split; [intros ?; split; [congruence | done] | intros [_ ?]; done].
Qed.

Lemma get_Some_elem k v m : JsMap.get k m = Some v → (k, v) ∈ m.
Proof.
  induction m as [|[k' v'] m IH]; simpl; [done|].
  destruct (decide (k' = k)) as [->|Hne].
  - intros [= ->]. apply list_elem_of_here.
  - intros Hg. apply list_elem_of_further. by apply IH.
Qed.

Lemma has_get k m : JsMap.has k m = true → is_Some (JsMap.get k m).
Proof.
  rewrite has_true. intros Hin.
  destruct (JsMap.get k m) eqn:Hg; [by eexists|].
  apply get_None in Hg. done.
Qed.

Lemma set_keys k v m :
  (JsMap.set k v m).*1 = if decide (k ∈ m.*1) then m.*1 else m.*1 ++ [k].
Proof.
  induction m as [|[k' v'] m IH].
  - cbn [JsMap.set fmap list_fmap fst app].
    destruct (decide (k ∈ [])) as [Hin|Hin]; [by inversion Hin | done].
  - cbn [JsMap.set]. rewrite (fmap_cons fst (k', v') m). cbn [fst].
    destruct (decide (k' = k)) as [->|Hne].
    + rewrite fmap_cons. cbn [fst].
      rewrite decide_True; [done | apply list_elem_of_here].
    + rewrite fmap_cons, IH. cbn [fst].
      destruct (decide (k ∈ m.*1)) as [Hin|Hin].
      * rewrite decide_True; [done | by apply list_elem_of_further].
      * rewrite decide_False; [done|].
        rewrite not_elem_of_cons. split; [congruence | done].
Qed.

Lemma set_NoDup k v m : NoDup m.*1 → NoDup (JsMap.set k v m).*1.
Proof.
  intros Hnd. rewrite set_keys. destruct (decide (k ∈ m.*1)); [done|].
  apply NoDup_app. split; [done|]. split; [|apply NoDup_singleton].
  intros x Hx Hx'. apply list_elem_of_singleton in Hx'. by subst.
Qed.

Lemma set_Forall (P : string * V → Prop) k v m :
  P (k, v) → Forall P m → Forall P (JsMap.set k v m).
Proof.
  intros HP. induction 1 as [|[k' v'] m Hx Hm IH]; simpl.
  - by constructor.
  - destruct (decide (k' = k)); constructor; done.
Qed.

Lemma get_set k v m : JsMap.get k (JsMap.set k v m) = Some v.
Proof.
  induction m as [|[k' v'] m IH]; simpl.
  - by rewrite decide_True.
  - destruct (decide (k' = k)) as [->|Hne]; simpl.
    + by rewrite decide_True.
    + by rewrite decide_False.
Qed.

Lemma has_set k v m : JsMap.has k (JsMap.set k v m) = true.
Proof.
  apply has_true. rewrite set_keys. destruct (decide (k ∈ m.*1)); [done|].
  apply elem_of_app. right. apply list_elem_of_here.
Qed.

Lemma delete_keys k m : (JsMap.delete k m).*1 = filter (λ k', k' ≠ k) m.*1.
Proof.
  unfold JsMap.delete. induction m as [|[k' v'] m IH]; [done|].
  rewrite fmap_cons. change ((k', v').1) with k'.
  destruct (decide (k' ≠ k)) as [Hne|He].
  - rewrite (filter_cons_True (λ kv : string * V, kv.1 ≠ k)) by done.
    rewrite (filter_cons_True (λ k', k' ≠ k)) by done.
    rewrite fmap_cons. by f_equal.
  - rewrite (filter_cons_False (λ kv : string * V, kv.1 ≠ k)) by done.
    by rewrite (filter_cons_False (λ k', k' ≠ k)) by done.
Qed.

Lemma delete_NoDup k m : NoDup m.*1 → NoDup (JsMap.delete k m).*1.
Proof. rewrite delete_keys. apply NoDup_filter. Qed.

Lemma delete_Forall (P : string * V → Prop) k m :
  Forall P m → Forall P (JsMap.delete k m).
Proof. intros H. apply Forall_forall. intros x [_ Hx]%list_elem_of_filter. by eapply Forall_forall in H. Qed.

Lemma delete_not_elem k m : k ∉ (JsMap.delete k m).*1.
Proof. rewrite delete_keys, list_elem_of_filter. intros [? _]. done. Qed.

Lemma delete_absent k m : k ∉ m.*1 → JsMap.delete k m = m.
Proof.
  unfold JsMap.delete. induction m as [|[k' v'] m IH]; [done|].
  rewrite fmap_cons, not_elem_of_cons. intros [Hne Hn].
  rewrite (filter_cons_True (λ kv : string * V, kv.1 ≠ k)) by (cbn; intros ->; apply Hne; done).
  f_equal. by apply IH.
Qed.

End JsMapFacts.

(** ** Sorting by [added] *)

Lemma insert_by_added_perm x l : insert_by_added x l ≡ₚ x :: l.
Proof.
  induction l as [|y l IH]; simpl; [done|].
  destruct (decide (CacheItem.added x ≤ CacheItem.added y)); [done|].
  rewrite IH. apply Permutation_swap.
Qed.

Lemma sort_by_added_perm l : sort_by_added l ≡ₚ l.
Proof.
  induction l as [|x l IH]; simpl; [done|].
  by rewrite insert_by_added_perm, IH.
Qed.

Lemma insert_by_added_sorted x l :
  StronglySorted older l → StronglySorted older (insert_by_added x l).
Proof.
  induction 1 as [|y l Hl IH Hy]; simpl.
  - repeat constructor.
  - destruct (decide (CacheItem.added x ≤ CacheItem.added y)) as [Hle|Hgt].
    + constructor; [by constructor|].
      constructor; [done|].
      eapply Forall_impl; [exact Hy|]. unfold older. intros z ?. lia.
    + constructor; [done|].
      rewrite insert_by_added_perm. constructor; [unfold older; lia | done].
Qed.

Lemma sort_by_added_sorted l : StronglySorted older (sort_by_added l).
Proof.
  induction l as [|x l IH]; simpl; [constructor|].
  by apply insert_by_added_sorted.
Qed.

Lemma StronglySorted_filter {A} (R : relation A) (P : A → Prop)
    `{!∀ x, Decision (P x)} (l : list A) :
  StronglySorted R l → StronglySorted R (filter P l).
Proof.
  induction 1 as [|x l Hl IH Hx]; [constructor|].
  destruct (decide (P x)).
  - rewrite filter_cons_True by done. constructor; [done|].
    apply Forall_forall. intros y [_ Hy]%list_elem_of_filter.
    by eapply Forall_forall in Hx.
  - by rewrite filter_cons_False.
Qed.

(** In a sorted list every entry of a prefix is at most as recent as every
    entry after it. *)
Lemma StronglySorted_take_drop {A} (R : relation A) (n : nat) (l : list A) a b :
  StronglySorted R l → a ∈ take n l → b ∈ drop n l → R a b.
Proof.
  intros Hs Ha Hb. rewrite <- (take_drop n l) in Hs.
  by eapply StronglySorted_app_1_elem_of.
Qed.

(** ** Adding sizes up *)

Lemma foldl_size_acc (acc : Z) (l : list CacheItem.t) :
  foldl (λ total i, total + CacheItem.size i) acc l = acc + sizes l.
Proof.
  unfold sizes. revert acc. induction l as [|x l IH]; intros acc; simpl; [lia|].
  rewrite (IH (acc + _)), (IH (0 + _)). lia.
Qed.

Lemma sizes_cons x l : sizes (x :: l) = CacheItem.size x + sizes l.
Proof. unfold sizes at 1. simpl. rewrite foldl_size_acc. lia. Qed.

Lemma sizes_app l1 l2 : sizes (l1 ++ l2) = sizes l1 + sizes l2.
Proof.
  induction l1 as [|x l1 IH]; simpl; [done|].
  rewrite !sizes_cons, IH. lia.
Qed.

Lemma sizes_perm l1 l2 : l1 ≡ₚ l2 → sizes l1 = sizes l2.
Proof.
  induction 1; rewrite ?sizes_cons; try lia.
Qed.

Lemma sizes_nonneg l : Forall (λ i, 0 ≤ CacheItem.size i) l → 0 ≤ sizes l.
Proof.
  induction 1; [done|]. rewrite sizes_cons. lia.
Qed.

Lemma filter_indexOf_neg except l :
  filter (λ i, indexOf (CacheItem.key i) except < 0) l = unmarked except l.
Proof. apply list_filter_iff. intros i. apply indexOf_neg. Qed.

Lemma filter_indexOf_notin except l :
  filter (λ i, indexOf (CacheItem.key i) except = -1) l = unmarked except l.
Proof. apply list_filter_iff. intros i. apply indexOf_notin. Qed.

Lemma totalSize_sizes items except :
  totalSize items except = sizes (unmarked except (JsMap.values items)).
Proof. unfold totalSize. by rewrite filter_indexOf_neg. Qed.

Lemma unmarked_nil l : unmarked [] l = l.
Proof.
  unfold unmarked. induction l as [|x l IH]; [done|].
  rewrite filter_cons_True by apply not_elem_of_nil. by rewrite IH.
Qed.

Lemma unmarked_app ex1 ex2 l : unmarked (ex1 ++ ex2) l = unmarked ex2 (unmarked ex1 l).
Proof.
  unfold unmarked. rewrite list_filter_filter. apply list_filter_iff.
  intros i. rewrite not_elem_of_app. tauto.
Qed.

(** ** The store of a reachable cache *)

Section CacheFacts.
Import Cache.

Lemma filter_ext_elem {A} (P Q : A → Prop) `{!∀ x, Decision (P x)}
    `{!∀ x, Decision (Q x)} (l : list A) :
  (∀ x, x ∈ l → (P x ↔ Q x)) → filter P l = filter Q l.
Proof.
  induction l as [|x l IH]; intros Hext; [done|].
  assert (P x ↔ Q x) as Hx by (apply Hext, list_elem_of_here).
  assert (filter P l = filter Q l) as Hl.
  { apply IH. intros y Hy. by apply Hext, list_elem_of_further. }
  destruct (decide (P x)) as [HP|HP].
  - rewrite !filter_cons_True by tauto. by rewrite Hl.
  - rewrite !filter_cons_False by tauto. done.
Qed.

Lemma values_keys (m : store) :
  Forall (λ kv, CacheItem.key kv.2 = kv.1) m →
  CacheItem.key <$> JsMap.values m = m.*1.
Proof.
  unfold JsMap.values. induction 1 as [|[k i] m Hk Hm IH]; [done|].
  rewrite !fmap_cons. simpl in *. by rewrite Hk, IH.
Qed.

Lemma wf_keys_match c : wf c → Forall (λ kv, CacheItem.key kv.2 = kv.1) (items c).
Proof. intros [_ H]. eapply Forall_impl; [exact H|]. by intros kv [? _]. Qed.

Lemma wf_sizes c : wf c → Forall (λ i, 0 ≤ CacheItem.size i) (JsMap.values (items c)).
Proof.
  intros [_ H]. unfold JsMap.values. apply Forall_fmap.
  eapply Forall_impl; [exact H|]. by intros kv [_ ?].
Qed.

Lemma wf_NoDup_keys c : wf c → NoDup (CacheItem.key <$> JsMap.values (items c)).
Proof. intros Hwf. rewrite values_keys by by apply wf_keys_match. apply Hwf. Qed.

Lemma delete_all_filter (remove : list string) (m : store) :
  delete_all remove m = filter (λ kv, kv.1 ∉ remove) m.
Proof.
  unfold delete_all. revert m.
  induction remove as [|k remove IH]; intros m; cbn [foldl].
  - symmetry. induction m as [|kv m IHm]; [done|].
    rewrite (filter_cons_True (λ kv : string * CacheItem.t, kv.1 ∉ []))
      by apply not_elem_of_nil.
    by f_equal.
  - rewrite IH. unfold JsMap.delete.
    rewrite (list_filter_filter (λ kv : string * CacheItem.t, kv.1 ∉ remove)
               (λ kv, kv.1 ≠ k)).
    apply list_filter_iff. intros kv. rewrite not_elem_of_cons. tauto.
Qed.

Lemma delete_all_keys (remove : list string) (m : store) :
  (delete_all remove m).*1 = filter (λ k, k ∉ remove) m.*1.
Proof.
  rewrite delete_all_filter. induction m as [|[k i] m IH]; [done|].
  rewrite fmap_cons. change ((k, i).1) with k.
  destruct (decide (k ∉ remove)) as [Hk|Hk].
  - rewrite (filter_cons_True (λ kv : string * CacheItem.t, kv.1 ∉ remove)) by done.
    rewrite (filter_cons_True (λ k, k ∉ remove)) by done.
    rewrite fmap_cons. by f_equal.
  - rewrite (filter_cons_False (λ kv : string * CacheItem.t, kv.1 ∉ remove)) by done.
    by rewrite (filter_cons_False (λ k, k ∉ remove)) by done.
Qed.

Lemma delete_all_values (remove : list string) (m : store) :
  Forall (λ kv, CacheItem.key kv.2 = kv.1) m →
  JsMap.values (delete_all remove m) = unmarked remove (JsMap.values m).
Proof.
  rewrite delete_all_filter. unfold JsMap.values, unmarked.
  induction 1 as [|[k i] m Hk Hm IH]; [done|].
  rewrite fmap_cons. simpl in Hk. change ((k, i).2) with i.
  destruct (decide (k ∉ remove)) as [Hin|Hin].
  - rewrite (filter_cons_True (λ kv : string * CacheItem.t, kv.1 ∉ remove)) by done.
    rewrite (filter_cons_True (λ i, CacheItem.key i ∉ remove)) by by rewrite Hk.
    rewrite fmap_cons. by f_equal.
  - rewrite (filter_cons_False (λ kv : string * CacheItem.t, kv.1 ∉ remove)) by done.
    by rewrite (filter_cons_False (λ i, CacheItem.key i ∉ remove)) by by rewrite Hk.
Qed.

Lemma wf_with_items m c :
  NoDup m.*1 →
  Forall (λ kv, CacheItem.key kv.2 = kv.1 ∧ 0 ≤ CacheItem.size kv.2) m →
  wf (with_items m c).
Proof. by split. Qed.

Lemma wf_delete_all remove c : wf c → wf (with_items (delete_all remove (items c)) c).
Proof.
  intros [Hnd Hall]. apply wf_with_items.
  - rewrite delete_all_keys. by apply NoDup_filter.
  - rewrite delete_all_filter. apply Forall_forall.
    intros x [_ Hx]%list_elem_of_filter. by eapply Forall_forall in Hall.
Qed.

Lemma wf_new p : wf (new p).
Proof. split; [apply NoDup_nil_2 | constructor]. Qed.

Lemma schedulePrune_items c : items (schedulePrune c) = items c.
Proof. unfold schedulePrune. by destruct (evictTimer c). Qed.

Lemma schedulePrune_canMeasureSize c :
  canMeasureSize (schedulePrune c) = canMeasureSize c.
Proof. unfold schedulePrune. by destruct (evictTimer c). Qed.

Lemma schedulePrune_trace c : trace (schedulePrune c) = trace c.
Proof. unfold schedulePrune. by destruct (evictTimer c). Qed.

Lemma schedulePrune_policy c : policy (schedulePrune c) = policy c.
Proof. unfold schedulePrune. by destruct (evictTimer c). Qed.

Lemma schedulePrune_events c : events (schedulePrune c) = events c.
Proof. unfold schedulePrune. by destruct (evictTimer c). Qed.

Lemma wf_schedulePrune c : wf c → wf (schedulePrune c).
Proof. unfold wf. by rewrite schedulePrune_items. Qed.

(** The size [add] records: the estimate in the measurable state, unless
    it is the unmeasurable sign, and [0] otherwise. *)
Lemma add_with_items measure now key v c :
  items (add_with measure now key v c) =
  if Is.value v then
    JsMap.set key
      (CacheItem.mk key now v
         (if canMeasureSize c
          then (if decide (measure v = -1) then 0 else measure v)
          else 0))
      (items c)
  else items c.
Proof.
  unfold add_with. rewrite schedulePrune_items.
  destruct (Is.value v); [|done].
  destruct (canMeasureSize c); [|done].
  by destruct (decide (measure v = -1)).
Qed.

Lemma add_with_canMeasureSize measure now key v c :
  canMeasureSize (add_with measure now key v c) =
  if Is.value v then
    canMeasureSize c && bool_decide (measure v ≠ -1)
  else canMeasureSize c.
Proof.
  unfold add_with. rewrite schedulePrune_canMeasureSize.
  destruct (Is.value v); [|done].
  destruct (canMeasureSize c); [|done].
  destruct (decide (measure v = -1)); simpl.
  - by rewrite bool_decide_eq_false_2 by tauto.
  - by rewrite bool_decide_eq_true_2.
Qed.

Lemma byteSize_ge v : -1 ≤ byteSize v.
Proof. destruct v; simpl; lia. Qed.

Lemma wf_add now key v c : wf c → wf (add now key v c).
Proof.
  intros [Hnd Hall]. unfold wf, add. rewrite add_with_items.
  destruct (Is.value v); [|done].
  split; [by apply set_NoDup|].
  apply set_Forall; [|done]. simpl. split; [done|].
  pose proof (byteSize_ge v).
  destruct (canMeasureSize c); [|done].
  destruct (decide (byteSize v = -1)); lia.
Qed.

Lemma events_emit_items ty ev c : items (events_emit ty ev c) = items c.
Proof. unfold events_emit. by destruct (EventEmitter.emit _ _ _). Qed.

Lemma events_emit_canMeasureSize ty ev c :
  canMeasureSize (events_emit ty ev c) = canMeasureSize c.
Proof. unfold events_emit. by destruct (EventEmitter.emit _ _ _). Qed.

Lemma events_emit_trace ty ev c :
  trace (events_emit ty ev c) =
  trace c ++ [mkEmission ty ev (EventEmitter.emit (EventType_code ty) ev (events c)).2 (items c)].
Proof. unfold events_emit. by destruct (EventEmitter.emit _ _ _). Qed.

Lemma wf_events_emit ty ev c : wf c → wf (events_emit ty ev c).
Proof. unfold wf. by rewrite events_emit_items. Qed.

Lemma wf_remove key c : wf c → wf (remove key c).
Proof.
  intros [Hnd Hall]. apply wf_with_items;
    [by apply delete_NoDup | by apply delete_Forall].
Qed.

Lemma wf_clear c : wf (clear c).
Proof. apply wf_with_items; [apply NoDup_nil_2 | constructor]. Qed.

Lemma wf_prune now c c' : wf c → prune now c = Some c' → wf c'.
Proof.
  intros Hwf. unfold prune.
  destruct (_ && _); [|by intros [= <-]].
  destruct (marked now c) as [w|]; [|done]. simpl.
  destruct (decide _); intros [= <-]; [|done].
  by apply wf_events_emit, wf_delete_all.
Qed.

Lemma wf_step o c c' : wf c → step o c = Some c' → wf c'.
Proof.
  intros Hwf. destruct o; simpl.
  - intros [= <-]. by apply wf_add.
  - intros [= <-]. unfold get.
    destruct (JsMap.has _ _); [by destruct (JsMap.get _ _)|].
    simpl. destruct silent; [done | by apply wf_events_emit].
  - intros [= <-]. by apply wf_remove.
  - intros [= <-]. apply wf_clear.
  - intros [= <-]. by apply wf_schedulePrune.
  - by apply wf_prune.
  - unfold fire. destruct (bool_decide _); [|by intros [= <-]].
    by apply wf_prune.
  - intros [= <-]. done.
Qed.

Lemma wf_run ops c c' : wf c → run ops c = Some c' → wf c'.
Proof.
  revert c. induction ops as [|o ops IH]; intros c Hwf; simpl.
  - by intros [= <-].
  - destruct (step o c) as [c1|] eqn:Hs; [|done]. simpl.
    apply IH. by eapply wf_step.
Qed.

(** Every cache built by the constructor and then operated on is
    well formed. *)
Lemma reachable_wf p ops c : run ops (new p) = Some c → wf c.
Proof. apply wf_run, wf_new. Qed.

End CacheFacts.

(** ** The passes of [prune] *)

Section Passes.
Import Cache.

#[global] Instance unmarked_Permutation ex : Proper ((≡ₚ) ==> (≡ₚ)) (unmarked ex).
Proof. intros l1 l2 Hl. unfold unmarked. by rewrite Hl. Qed.

Lemma unmarked_all ex l :
  (∀ i, i ∈ l → CacheItem.key i ∉ ex) → unmarked ex l = l.
Proof.
  unfold unmarked. induction l as [|x l IH]; intros Hall; [done|].
  rewrite (filter_cons_True (λ i, CacheItem.key i ∉ ex))
    by apply Hall, list_elem_of_here.
  f_equal. apply IH. intros i Hi. by apply Hall, list_elem_of_further.
Qed.

Lemma unmarked_take_drop k l :
  NoDup (CacheItem.key <$> l) →
  unmarked (CacheItem.key <$> take k l) l = drop k l.
Proof.
  revert k. induction l as [|x l IH]; intros k Hnd.
  - by destruct k.
  - destruct k as [|k]; [apply unmarked_nil|].
    rewrite fmap_cons in Hnd. apply NoDup_cons in Hnd as [Hx Hnd].
    cbn [take drop]. rewrite fmap_cons. unfold unmarked.
    rewrite (filter_cons_False (λ i, CacheItem.key i ∉ _))
      by (intros Hn; apply Hn, list_elem_of_here).
    rewrite <- (IH k Hnd). apply filter_ext_elem. intros i Hi.
    rewrite not_elem_of_cons. split; [tauto|]. intros Hn. split; [|done].
    intros Heq. apply Hx. rewrite <- Heq. by apply list_elem_of_fmap_2.
Qed.

Lemma pass_inv_init c :
  wf c → pass_inv (items c) (sort_by_added (JsMap.values (items c)), []).
Proof.
  intros Hwf. split; [|split; [|split]]; simpl.
  - rewrite unmarked_nil. apply sort_by_added_perm.
  - apply sort_by_added_sorted.
  - apply NoDup_nil_2.
  - intros k Hk. by apply elem_of_nil in Hk.
Qed.

Lemma pass_inv_elem (m : store) w i :
  pass_inv m w → i ∈ w.1 → i ∈ JsMap.values m ∧ CacheItem.key i ∉ w.2.
Proof.
  intros (Hp & _) Hi. rewrite Hp in Hi.
  apply list_elem_of_filter in Hi. tauto.
Qed.

Lemma pass_inv_NoDup (m : store) w :
  NoDup (CacheItem.key <$> JsMap.values m) → pass_inv m w →
  NoDup (CacheItem.key <$> w.1).
Proof.
  intros Hnd (Hp & _). rewrite Hp.
  eapply sublist_NoDup; [exact Hnd|]. apply fmap_sublist, sublist_filter.
Qed.

(** Marking entries of [sorted] and filtering them out, as the age pass and
    the count pass do, keeps the invariant. *)
Lemma pass_inv_mark (m : store) sorted remove extra :
  Forall (λ kv, CacheItem.key kv.2 = kv.1) m → NoDup m.*1 →
  pass_inv m (sorted, remove) → extra `sublist_of` sorted →
  pass_inv m
    (filter (λ i, indexOf (CacheItem.key i) (remove ++ (CacheItem.key <$> extra)) = -1)
       sorted,
     remove ++ (CacheItem.key <$> extra)).
Proof.
  intros Hkeys Hnd Hinv Hsub.
  assert (NoDup (CacheItem.key <$> JsMap.values m)) as Hndv
    by by rewrite values_keys.
  pose proof (pass_inv_NoDup _ _ Hndv Hinv) as Hnds.
  destruct Hinv as (Hp & Hs & Hr & Hin). simpl in *.
  rewrite filter_indexOf_notin.
  split; [|split; [|split]]; simpl.
  - rewrite Hp. unfold unmarked.
    rewrite list_filter_filter_l; [done|].
    intros i. rewrite not_elem_of_app. tauto.
  - by apply StronglySorted_filter.
  - apply NoDup_app. split; [done|]. split.
    + intros k Hk Hk'. apply list_elem_of_fmap in Hk' as (i & -> & Hi).
      eapply elem_of_sublist in Hi; [|exact Hsub].
      rewrite Hp in Hi. apply list_elem_of_filter in Hi as [Hn _]. done.
    + eapply sublist_NoDup; [exact Hnds|]. by apply fmap_sublist.
  - intros k [Hk|Hk]%elem_of_app; [by apply Hin|].
    apply list_elem_of_fmap in Hk as (i & -> & Hi).
    eapply elem_of_sublist in Hi; [|exact Hsub].
    rewrite Hp in Hi. apply list_elem_of_filter in Hi as [_ Hi].
    rewrite <- values_keys by done. by apply list_elem_of_fmap_2.
Qed.

(** Marking a prefix of [sorted] leaves the rest of [sorted]. *)
Lemma mark_prefix (m : store) sorted remove k :
  NoDup (CacheItem.key <$> JsMap.values m) →
  pass_inv m (sorted, remove) →
  filter (λ i, indexOf (CacheItem.key i)
                 (remove ++ (CacheItem.key <$> take k sorted)) = -1) sorted
  = drop k sorted.
Proof.
  intros Hnd Hinv. rewrite filter_indexOf_notin, unmarked_app.
  rewrite (unmarked_all remove).
  - apply unmarked_take_drop. by apply (pass_inv_NoDup m (sorted, remove)).
  - intros i Hi. by apply (pass_inv_elem m (sorted, remove)).
Qed.

Lemma pass_inv_prefix c sorted remove k :
  wf c → pass_inv (items c) (sorted, remove) →
  pass_inv (items c) (drop k sorted, remove ++ (CacheItem.key <$> take k sorted)).
Proof.
  intros Hwf Hinv.
  rewrite <- (mark_prefix (items c) sorted remove k);
    [|by apply wf_NoDup_keys | done].
  apply pass_inv_mark; [by apply wf_keys_match | apply Hwf | done | apply sublist_take].
Qed.

Lemma pass_inv_age now c w :
  wf c → pass_inv (items c) w → pass_inv (items c) (age_pass now (policy c) w).
Proof.
  intros Hwf Hinv. destruct w as [sorted remove]. unfold age_pass.
  destruct (positive_limit _) as [maxAge|]; [|done].
  apply pass_inv_mark; [by apply wf_keys_match | apply Hwf | done | apply sublist_filter].
Qed.

Lemma pass_inv_count c w :
  wf c → pass_inv (items c) w → pass_inv (items c) (count_pass (policy c) w).
Proof.
  intros Hwf Hinv. destruct w as [sorted remove]. unfold count_pass.
  destruct (positive_limit _) as [maxItems|]; [|done].
  destruct (decide _); [|done].
  apply pass_inv_mark; [by apply wf_keys_match | apply Hwf | done | apply sublist_take].
Qed.

(** The total [prune] starts its byte pass with is the total of [sorted]. *)
Lemma pass_inv_totalSize (m : store) w :
  pass_inv m w → totalSize m w.2 = sizes w.1.
Proof.
  intros (Hp & _). rewrite totalSize_sizes. symmetry. by apply sizes_perm.
Qed.

Lemma sizes_take_drop k l : sizes l = sizes (take k l) + sizes (drop k l).
Proof. by rewrite <- sizes_app, take_drop. Qed.

(** The loop of the byte pass ends whenever the running total is at most
    the total of [sorted] above the limit; it marks the shortest prefix of
    [sorted] that brings the running total to the limit. *)
Lemma byte_loop_spec maxBytes sorted remainingSize remove :
  remainingSize - sizes sorted ≤ maxBytes →
  ∃ k, (k ≤ List.length sorted)%nat
    ∧ byte_loop maxBytes remainingSize sorted remove
      = Some (drop k sorted, remove ++ (CacheItem.key <$> take k sorted))
    ∧ remainingSize - sizes (take k sorted) ≤ maxBytes
    ∧ ∀ j, (j < k)%nat → maxBytes < remainingSize - sizes (take j sorted).
Proof.
  revert remainingSize remove.
  induction sorted as [|item sorted IH]; intros remainingSize remove Hle.
  - exists 0%nat. cbn [byte_loop]. change (sizes []) with 0 in Hle.
    rewrite decide_False by lia. rewrite app_nil_r.
    repeat split; [done | simpl; unfold sizes; simpl; lia | lia].
  - cbn [byte_loop]. destruct (decide (maxBytes < remainingSize)) as [Hgt|Hok].
    + rewrite sizes_cons in Hle.
      destruct (IH (remainingSize - CacheItem.size item)
                  (remove ++ [CacheItem.key item])) as (k & Hk & Hloop & Hend & Hmin);
        [lia|].
      exists (S k). cbn [take drop]. rewrite fmap_cons, sizes_cons.
      rewrite Hloop, <- app_assoc. repeat split; [simpl; lia | lia |].
      intros [|j] Hj; [unfold sizes; simpl; lia|].
      cbn [take]. rewrite sizes_cons. specialize (Hmin j). lia.
    + exists 0%nat. rewrite app_nil_r.
      repeat split; [simpl; lia | unfold sizes; simpl; lia | lia].
Qed.

End Passes.

(** ** The byte pass (claim C1) *)

Section BytePass.
Import Cache.

Lemma delete_all_totalSize remove c :
  wf c → totalSize (delete_all remove (items c)) [] = totalSize (items c) remove.
Proof.
  intros Hwf. rewrite !totalSize_sizes, unmarked_nil.
  by rewrite delete_all_values by by apply wf_keys_match.
Qed.

Lemma pass_inv_before_byte_pass now c :
  wf c →
  pass_inv (items c)
    (count_pass (policy c)
       (age_pass now (policy c) (sort_by_added (JsMap.values (items c)), []))).
Proof.
  intros Hwf. by apply pass_inv_count, pass_inv_age, pass_inv_init.
Qed.

(** What [prune] leaves in the store, given what its passes marked. *)
Lemma prune_items now c w :
  marked now c = Some w →
  ∃ c', prune now c = Some c' ∧ items c' = delete_all w.2 (items c).
Proof.
  intros Hm. unfold prune. destruct (_ && _) eqn:Hguard.
  - rewrite Hm. simpl. destruct (decide _) as [Hlen|Hlen].
    + eexists. split; [done|]. by rewrite events_emit_items.
    + exists c. split; [done|]. destruct (w.2); [done | simpl in Hlen; lia].
  - exists c. split; [done|].
    apply andb_false_iff in Hguard as [Hempty|Hpol].
    + apply bool_decide_eq_false in Hempty. unfold length, JsMap.size in Hempty.
      destruct (items c); [|simpl in Hempty; lia].
      by rewrite delete_all_filter.
    + unfold marked, byte_pass in Hm.
      apply orb_false_iff in Hpol as [[Hage Hitems]%orb_false_iff Hbytes].
      unfold age_pass, count_pass in Hm.
      destruct (maxAge (policy c)) as [a|]; [|done].
      destruct (maxItems (policy c)) as [i|]; [|done].
      destruct (maxBytes (policy c)) as [b|]; [|done]. simpl in *.
      apply bool_decide_eq_false in Hage, Hitems, Hbytes.
      rewrite !decide_False in Hm by lia. by injection Hm as <-.
Qed.

Lemma prune_canMeasureSize now c c' :
  prune now c = Some c' → canMeasureSize c' = canMeasureSize c.
Proof.
  unfold prune. destruct (_ && _); [|by intros [= <-]].
  destruct (marked now c) as [w|]; [|done]. simpl.
  destruct (decide _); intros [= <-]; [|done].
  by rewrite events_emit_canMeasureSize.
Qed.

(** [prune] puts nothing into the store. *)
Lemma prune_Forall (P : string * CacheItem.t → Prop) now c c' :
  prune now c = Some c' → Forall P (items c) → Forall P (items c').
Proof.
  unfold prune. destruct (_ && _); [|by intros [= <-]].
  destruct (marked now c) as [w|]; [|done]. simpl.
  destruct (decide _); intros [= <-]; [|done].
  rewrite events_emit_items. simpl. rewrite delete_all_filter.
  intros H. apply Forall_forall. intros x [_ Hx]%list_elem_of_filter.
  by eapply Forall_forall in H.
Qed.

End BytePass.

(** C1. In the measurable state and under [maxBytes = N > 0], the byte pass
    takes the entries that survive the age and count passes (the entries of
    the store whose key is not marked yet) oldest first: [sorted] holds
    them in ascending order of [added], and the pass marks a prefix of it,
    so no entry it marks was added later than one it leaves.  It stops at
    the first prefix after which the sizes of the entries left add up to at
    most [N]: the loop ends, and every shorter prefix leaves more than [N].
    After [prune] the store holds the entries whose key was not marked, as
    they were and in their order, they are the entries the byte pass left,
    and their sizes add up to at most [N]. *)
Theorem prune_byte_pass_minimal (now : Z) (c : Cache.t) (N : Z) :
  Cache.wf c →
  Cache.canMeasureSize c = true →
  maxBytes (Cache.policy c) = Some N →
  0 < N →
  let w := Cache.count_pass (Cache.policy c)
             (Cache.age_pass now (Cache.policy c)
                (sort_by_added (JsMap.values (Cache.items c)), [])) in
  ∃ (k : nat) (c' : Cache.t),
    let evicted := take k w.1 in
    (k ≤ List.length w.1)%nat
    ∧ w.1 ≡ₚ filter (λ i, CacheItem.key i ∉ w.2) (JsMap.values (Cache.items c))
    ∧ StronglySorted older w.1
    ∧ Cache.byte_pass c w = Some (drop k w.1, w.2 ++ (CacheItem.key <$> evicted))
    ∧ sizes (drop k w.1) ≤ N
    ∧ (∀ j, (j < k)%nat → N < sizes (drop j w.1))
    ∧ (∀ e s, e ∈ evicted → s ∈ drop k w.1 → CacheItem.added e ≤ CacheItem.added s)
    ∧ Cache.prune now c = Some c'
    ∧ Cache.items c'
      = filter (λ kv, kv.1 ∉ w.2 ++ (CacheItem.key <$> evicted)) (Cache.items c)
    ∧ JsMap.values (Cache.items c') ≡ₚ drop k w.1
    ∧ sizes (JsMap.values (Cache.items c')) ≤ N
    ∧ Cache.size c' = sizes (JsMap.values (Cache.items c')).
Proof.
  intros Hwf Hcan Hmax HN w.
  pose proof (pass_inv_before_byte_pass now c Hwf) as Hinv. fold w in Hinv.
  assert (∀ j, sizes (drop j w.1) = sizes w.1 - sizes (take j w.1)) as Hrest.
  { intros j. rewrite (sizes_take_drop j w.1). lia. }
  destruct (byte_loop_spec N w.1 (sizes w.1) w.2) as (k & Hk & Hloop & Hend & Hmin);
    [lia|].
  assert (Cache.byte_pass c w
          = Some (drop k w.1, w.2 ++ (CacheItem.key <$> take k w.1))) as Hpass.
  { unfold Cache.byte_pass. rewrite Hmax. simpl.
    rewrite decide_True by done. rewrite Hcan.
    by rewrite (pass_inv_totalSize (Cache.items c) w). }
  destruct (prune_items now c _ Hpass) as (c' & Hprune & Hitems).
  simpl in Hitems.
  assert (JsMap.values (Cache.items c') ≡ₚ drop k w.1) as Hleft.
  { rewrite Hitems, delete_all_values by by apply wf_keys_match.
    symmetry. destruct w as [sorted remove].
    apply (pass_inv_prefix c sorted remove k Hwf Hinv). }
  assert (Cache.canMeasureSize c' = true) as Hcan'.
  { by rewrite (prune_canMeasureSize _ _ _ Hprune). }
  exists k, c'. cbv zeta.
  split; [done|]. split; [apply Hinv|]. split; [apply Hinv|]. split; [done|].
  split; [rewrite Hrest; lia|].
  split; [intros j Hj; rewrite Hrest; by apply Hmin|].
  split; [intros e s He Hs;
          by apply (StronglySorted_take_drop older k w.1); [apply Hinv|..]|].
  split; [done|]. split; [by rewrite Hitems, delete_all_filter|].
  split; [done|]. split; [rewrite (sizes_perm _ _ Hleft), Hrest; lia|].
  unfold Cache.size. by rewrite Hcan', totalSize_sizes, unmarked_nil.
Qed.

Lemma prune_byte_pass_minimal_witness :
  Cache.wf (three_adds max_four_bytes)
  ∧ ∃ c', Cache.prune 20 (three_adds max_four_bytes) = Some c'
          ∧ (Cache.items c').*1 = ["c"]
          ∧ sizes (JsMap.values (Cache.items c')) ≤ 4.
Proof.
  assert (Cache.wf (three_adds max_four_bytes)) as Hwf
    by (repeat apply wf_add; apply wf_new).
  split; [exact Hwf|].
  destruct (prune_byte_pass_minimal 20 (three_adds max_four_bytes) 4 Hwf eq_refl eq_refl)
    as (k & c' & _ & _ & _ & _ & _ & _ & _ & Hprune & _ & _ & Htotal & _); [lia|].
  exists c'. split; [exact Hprune|]. split; [|exact Htotal].
  vm_compute in Hprune. injection Hprune as <-. reflexivity.
Defined.

(** ** [prune] as a whole *)

Section Prune.
Import Cache.

(** In a reachable cache the byte pass ends, whatever the policy, and
    marks a prefix of [sorted]. *)
Lemma byte_pass_spec c w :
  wf c → pass_inv (items c) w →
  ∃ k, byte_pass c w = Some (drop k w.1, w.2 ++ (CacheItem.key <$> take k w.1)).
Proof.
  intros Hwf Hinv. unfold byte_pass.
  assert (Some w = Some (drop 0 w.1, w.2 ++ (CacheItem.key <$> take 0 w.1))) as Hsame.
  { destruct w. simpl. by rewrite app_nil_r. }
  destruct (maxBytes (policy c)) as [N|]; simpl; [|by exists 0%nat].
  destruct (decide (0 < N)); [|by exists 0%nat].
  destruct (canMeasureSize c); [|by exists 0%nat].
  rewrite (pass_inv_totalSize (items c) w) by done.
  destruct (byte_loop_spec N w.1 (sizes w.1) w.2) as (k & _ & Hloop & _); [lia|].
  by exists k.
Qed.

Lemma marked_spec now c :
  wf c → ∃ w, marked now c = Some w ∧ pass_inv (items c) w.
Proof.
  intros Hwf. unfold marked.
  pose proof (pass_inv_before_byte_pass now c Hwf) as Hinv.
  destruct (byte_pass_spec c _ Hwf Hinv) as (k & Hk).
  eexists. split; [exact Hk|].
  destruct (count_pass _ _) as [sorted remove]. by apply pass_inv_prefix.
Qed.

(** The store and the trace after [prune], from the keys it marked. *)
Lemma prune_spec now c w :
  wf c → marked now c = Some w →
  prune now c =
  Some (if decide (w.2 = []) then c
        else events_emit ItemsEvicted (Keys w.2)
               (with_items (delete_all w.2 (items c)) c)).
Proof.
  intros Hwf Hm.
  destruct (marked_spec now c Hwf) as (w' & Hm' & Hinv).
  rewrite Hm in Hm'. injection Hm' as <-.
  unfold prune. destruct (_ && _) eqn:Hguard.
  - rewrite Hm. cbn [mbind option_bind].
    destruct (decide (0 < Z.of_nat (List.length w.2))) as [Hlen|Hlen];
      destruct (decide (w.2 = [])) as [Hnil|Hnil]; try done.
    + rewrite Hnil in Hlen. simpl in Hlen. lia.
    + destruct (w.2); [done | simpl in Hlen; lia].
  - destruct (prune_items now c w Hm) as (c' & Hprune & _).
    unfold prune in Hprune. rewrite Hguard in Hprune. injection Hprune as <-.
    rewrite decide_True; [done|].
    apply andb_false_iff in Hguard as [Hempty|Hpol].
    + apply bool_decide_eq_false in Hempty. unfold length, JsMap.size in Hempty.
      destruct Hinv as (_ & _ & _ & Hin).
      destruct (items c) eqn:Hitems; [|simpl in Hempty; lia].
      destruct (w.2) as [|k remove]; [done|].
      specialize (Hin k (list_elem_of_here _ _)). by apply elem_of_nil in Hin.
    + unfold marked, byte_pass in Hm.
      apply orb_false_iff in Hpol as [[Hage Hitems]%orb_false_iff Hbytes].
      unfold age_pass, count_pass in Hm.
      destruct (maxAge (policy c)) as [a|]; [|done].
      destruct (maxItems (policy c)) as [i|]; [|done].
      destruct (maxBytes (policy c)) as [b|]; [|done]. simpl in *.
      apply bool_decide_eq_false in Hage, Hitems, Hbytes.
      rewrite !decide_False in Hm by lia. by injection Hm as <-.
Qed.

Lemma prune_total now c : wf c → is_Some (prune now c).
Proof.
  intros Hwf. destruct (marked_spec now c Hwf) as (w & Hm & _).
  rewrite (prune_spec now c w Hwf Hm). by eexists.
Qed.

(** The byte pass only adds to the marked keys. *)
Lemma byte_loop_extends maxBytes sorted remainingSize remove w :
  byte_loop maxBytes remainingSize sorted remove = Some w →
  ∃ extra, w.2 = remove ++ extra.
Proof.
  revert remainingSize remove.
  induction sorted as [|item sorted IH]; intros remainingSize remove; cbn [byte_loop].
  - destruct (decide _); [done|]. intros [= <-]. exists []. by rewrite app_nil_r.
  - destruct (decide _).
    + intros (extra & ->)%IH. exists (CacheItem.key item :: extra).
      by rewrite <- app_assoc.
    + intros [= <-]. exists []. by rewrite app_nil_r.
Qed.

Lemma byte_pass_extends c w w' :
  byte_pass c w = Some w' → ∃ extra, w'.2 = w.2 ++ extra.
Proof.
  unfold byte_pass.
  assert (Some w = Some w' → ∃ extra, w'.2 = w.2 ++ extra) as Hsame.
  { intros [= <-]. exists []. by rewrite app_nil_r. }
  destruct (positive_limit _); [|done].
  destruct (canMeasureSize c); [|done].
  apply byte_loop_extends.
Qed.

End Prune.

(** ** The eviction notification (claim C6) *)

Lemma emit_calls {E} (ty : nat) (ev : E) (e : EventEmitter.t) :
  (EventEmitter.emit ty ev e).2
  = (λ fn, (fn, ev)) <$> default [] (EventEmitter.listeners e !! ty).
Proof.
  unfold EventEmitter.emit, EventEmitter.hasType.
  destruct (EventEmitter.listeners e !! ty) as [fns|] eqn:Hl.
  - by rewrite bool_decide_eq_true_2 by by eexists.
  - rewrite bool_decide_eq_false_2; [done|]. by intros [? ?].
Qed.

Lemma filter_all {A} (P : A → Prop) `{!∀ x, Decision (P x)} (l : list A) :
  (∀ x, P x) → filter P l = l.
Proof.
  intros HP. induction l as [|x l IH]; [done|].
  rewrite filter_cons_True by done. by f_equal.
Qed.

(** C6. [prune] deletes every marked key from the store before it calls
    [emit]: the one [ItemsEvicted] emission it adds to the trace carries the
    marked keys in the order they were marked, calls the listeners of that
    type with them, and shows them the store after the deletions, in which
    none of the keys is left.  Every marked key was in the store, so the
    emission is made exactly when an entry was removed; when nothing is
    marked the cache, its trace included, is left as it was. *)
Theorem prune_notifies_after_delete (now : Z) (c : Cache.t) :
  Cache.wf c →
  ∃ (remove : list string) (c' : Cache.t),
    Cache.prune now c = Some c'
    ∧ (∃ sorted, Cache.marked now c = Some (sorted, remove))
    ∧ NoDup remove
    ∧ (∀ k, k ∈ remove → k ∈ (Cache.items c).*1 ∧ k ∉ (Cache.items c').*1)
    ∧ (Cache.items c').*1 = filter (λ k, k ∉ remove) (Cache.items c).*1
    ∧ (remove = [] → c' = c)
    ∧ (remove ≠ [] →
       Cache.trace c' =
       Cache.trace c ++
         [Cache.mkEmission ItemsEvicted (Keys remove)
            ((λ fn, (fn, Keys remove)) <$>
               default [] (EventEmitter.listeners (Cache.events c)
                             !! EventType_code ItemsEvicted))
            (Cache.items c')]).
Proof.
  intros Hwf.
  destruct (marked_spec now c Hwf) as ([sorted remove] & Hm & Hinv).
  pose proof (prune_spec now c _ Hwf Hm) as Hprune. simpl in Hprune.
  destruct Hinv as (_ & _ & Hnd & Hin). simpl in Hnd, Hin.
  exists remove. eexists. split; [exact Hprune|].
  split; [by exists sorted|]. split; [done|].
  destruct (decide (remove = [])) as [->|Hne].
  - split; [intros k Hk; by apply elem_of_nil in Hk|].
    split; [|done].
    symmetry. apply filter_all. intros k. apply not_elem_of_nil.
  - rewrite events_emit_items, events_emit_trace, emit_calls. simpl.
    split; [|split; [apply delete_all_keys | done]].
    intros k Hk. split; [by apply Hin|].
    rewrite delete_all_keys, list_elem_of_filter. tauto.
Qed.

Lemma prune_notifies_after_delete_witness :
  ∃ c', Cache.prune 20 three_adds_listening = Some c'
        ∧ (Cache.items c').*1 = ["b"; "c"]
        ∧ (∃ store, Cache.trace c'
                    = [Cache.mkEmission ItemsEvicted (Keys ["a"])
                         [(7%nat, Keys ["a"])] store]
                    ∧ store.*1 = ["b"; "c"]).
Proof.
  assert (Cache.wf three_adds_listening) as Hwf.
  { assert (Cache.wf (three_adds max_two_items)) as H
      by (repeat apply wf_add; apply wf_new).
    exact H. }
  destruct (prune_notifies_after_delete 20 three_adds_listening Hwf)
    as (remove & c' & Hprune & _).
  exists c'. split; [exact Hprune|].
  vm_compute in Hprune. injection Hprune as <-.
  split; [reflexivity|]. eexists. split; reflexivity.
Defined.

(** ** The count pass (claim C5) *)

Section CountPass.
Import Cache.

(** With more than [m] entries in [sorted], the count pass marks the first
    [length sorted - m] of them. *)
Lemma count_pass_prefix c sorted remove m :
  wf c → pass_inv (items c) (sorted, remove) →
  maxItems (policy c) = Some m → 0 < m → m < Z.of_nat (List.length sorted) →
  count_pass (policy c) (sorted, remove)
  = (drop (List.length sorted - Z.to_nat m) sorted,
     remove ++ (CacheItem.key <$> take (List.length sorted - Z.to_nat m) sorted)).
Proof.
  intros Hwf Hinv Hmax Hm Hlen. unfold count_pass. rewrite Hmax. simpl.
  rewrite decide_True by done. rewrite decide_True by done.
  replace (Z.to_nat (Z.of_nat (List.length sorted) - m))
    with (List.length sorted - Z.to_nat m)%nat by lia.
  f_equal. apply (mark_prefix (items c)); [by apply wf_NoDup_keys | done].
Qed.

(** Without a byte pass, [prune] marks what the age and count passes
    mark. *)
Lemma marked_without_byte_pass now c :
  positive_limit (maxBytes (policy c)) = None ∨ canMeasureSize c = false →
  marked now c
  = Some (count_pass (policy c)
            (age_pass now (policy c) (sort_by_added (JsMap.values (items c)), []))).
Proof.
  intros Hoff. unfold marked, byte_pass.
  destruct Hoff as [->| ->]; [done|]. by destruct (positive_limit _).
Qed.

(** Three adds at increasing times, of three keys, to a new cache. *)
Lemma three_adds_items p k1 k2 k3 v1 v2 v3 t1 t2 t3 :
  k1 ≠ k2 → k1 ≠ k3 → k2 ≠ k3 →
  Is.value v1 = true → Is.value v2 = true → Is.value v3 = true →
  ∃ s1 s2 s3,
    items (add t3 k3 v3 (add t2 k2 v2 (add t1 k1 v1 (new p))))
    = [(k1, CacheItem.mk k1 t1 v1 s1); (k2, CacheItem.mk k2 t2 v2 s2);
       (k3, CacheItem.mk k3 t3 v3 s3)].
Proof.
  intros H12 H13 H23 Hv1 Hv2 Hv3. unfold add.
  rewrite !add_with_items, Hv1, Hv2, Hv3.
  eexists _, _, _. cbn [items new JsMap.set].
  destruct (decide (k1 = k2)); [done|]. cbn [JsMap.set].
  destruct (decide (k1 = k3)); [done|].
  destruct (decide (k2 = k3)); [done|]. reflexivity.
Qed.

End CountPass.

Section CountPassScenario.
Import Cache.

Lemma add_policy now key v c : policy (add now key v c) = policy c.
Proof.
  unfold add, add_with. rewrite schedulePrune_policy.
  destruct (Is.value v); [|done]. destruct (canMeasureSize c); [|done].
  by destruct (decide _).
Qed.

Lemma add_trace now key v c : trace (add now key v c) = trace c.
Proof.
  unfold add, add_with. rewrite schedulePrune_trace.
  destruct (Is.value v); [|done]. destruct (canMeasureSize c); [|done].
  by destruct (decide _).
Qed.

Lemma add_events now key v c : events (add now key v c) = events c.
Proof.
  unfold add, add_with. rewrite schedulePrune_events.
  destruct (Is.value v); [|done]. destruct (canMeasureSize c); [|done].
  by destruct (decide _).
Qed.

(** [{maxItems: 2}] and three entries of increasing [added]: the count pass
    marks the first. *)
Lemma marked_three now c k1 k2 k3 (i1 i2 i3 : CacheItem.t) :
  policy c = merge defaultPolicy (mkPolicy (Some 2) None None) →
  items c = [(k1, i1); (k2, i2); (k3, i3)] →
  CacheItem.key i1 = k1 → CacheItem.key i2 = k2 → CacheItem.key i3 = k3 →
  k1 ≠ k2 → k1 ≠ k3 →
  CacheItem.added i1 < CacheItem.added i2 →
  CacheItem.added i2 < CacheItem.added i3 →
  marked now c = Some ([i2; i3], [k1]).
Proof.
  intros Hpol Hitems Hk1 Hk2 Hk3 H12 H13 Ht12 Ht23.
  rewrite marked_without_byte_pass by (left; by rewrite Hpol).
  rewrite Hpol, Hitems. f_equal.
  cbn [JsMap.values fmap list_fmap snd sort_by_added foldr insert_by_added].
  rewrite (decide_True (P := CacheItem.added i2 ≤ CacheItem.added i3)) by lia.
  cbn [insert_by_added].
  rewrite (decide_True (P := CacheItem.added i1 ≤ CacheItem.added i2)) by lia.
  unfold age_pass, count_pass, merge, defaultPolicy. simpl.
  rewrite !filter_cons, filter_nil.
  rewrite (decide_True (P := CacheItem.key i1 = CacheItem.key i1)) by done.
  rewrite (decide_False (P := CacheItem.key i1 = CacheItem.key i2)) by congruence.
  rewrite (decide_False (P := CacheItem.key i1 = CacheItem.key i3)) by congruence.
  rewrite (decide_False (P := 0 = -1)) by done.
  rewrite (decide_True (P := -1 = -1)) by done.
  by rewrite Hk1.
Qed.

End CountPassScenario.

(** C5. Under [maxItems = m > 0], when [n + m] entries, [n > 0], survive the
    age pass, the count pass marks the [n] first entries of [sorted]: they
    are [n] entries, none of them was added later than any of the [m]
    entries that stay, [prune] ends and none of them is left in the store
    and, when no byte pass follows, the store keeps every other entry the
    age pass left.  In particular, under [{maxItems: 2}], after three adds
    of three keys at increasing times [prune] leaves the two later keys and
    makes one [ItemsEvicted] emission, which carries the first key alone. *)
Theorem count_pass_evicts_oldest :
  (∀ (now : Z) (c : Cache.t) (m : Z),
     Cache.wf c → maxItems (Cache.policy c) = Some m → 0 < m →
     let w := Cache.age_pass now (Cache.policy c)
                (sort_by_added (JsMap.values (Cache.items c)), []) in
     m < Z.of_nat (List.length w.1) →
     let n := (List.length w.1 - Z.to_nat m)%nat in
     Cache.count_pass (Cache.policy c) w
     = (drop n w.1, w.2 ++ (CacheItem.key <$> take n w.1))
     ∧ List.length (take n w.1) = n
     ∧ Z.of_nat (List.length (drop n w.1)) = m
     ∧ (∀ a b, a ∈ take n w.1 → b ∈ drop n w.1 → older a b)
     ∧ (∃ c', Cache.prune now c = Some c'
              ∧ ∀ a, a ∈ take n w.1 → CacheItem.key a ∉ (Cache.items c').*1)
     ∧ (positive_limit (maxBytes (Cache.policy c)) = None
        ∨ Cache.canMeasureSize c = false →
        ∃ c', Cache.prune now c = Some c'
              ∧ (Cache.items c').*1
                = filter (λ k, k ∉ w.2 ++ (CacheItem.key <$> take n w.1))
                    (Cache.items c).*1))
  ∧ (∀ (now : Z) (k1 k2 k3 : string) (v1 v2 v3 : jsval) (t1 t2 t3 : Z),
       k1 ≠ k2 → k1 ≠ k3 → k2 ≠ k3 →
       Is.value v1 = true → Is.value v2 = true → Is.value v3 = true →
       t1 < t2 → t2 < t3 →
       ∃ c',
         Cache.prune now
           (Cache.add t3 k3 v3
              (Cache.add t2 k2 v2
                 (Cache.add t1 k1 v1 (Cache.new (mkPolicy (Some 2) None None)))))
         = Some c'
         ∧ (Cache.items c').*1 = [k2; k3]
         ∧ Cache.trace c'
           = [Cache.mkEmission ItemsEvicted (Keys [k1]) [] (Cache.items c')]).
Proof.
  split.
  - intros now c m Hwf Hmax Hm w Hlen n.
    assert (pass_inv (Cache.items c) w) as Hinv
      by by apply pass_inv_age, pass_inv_init.
    assert (Cache.count_pass (Cache.policy c) w
            = (drop n w.1, w.2 ++ (CacheItem.key <$> take n w.1))) as Hcount.
    { subst n. destruct w as [sorted remove]. by apply count_pass_prefix. }
    split; [exact Hcount|].
    split; [rewrite length_take; lia|].
    split; [rewrite length_drop; lia|].
    split.
    { intros a b. apply StronglySorted_take_drop, Hinv. }
    split.
    + destruct (marked_spec now c Hwf) as (w' & Hmarked & _).
      destruct (prune_items now c w' Hmarked) as (c' & Hprune & Hitems).
      exists c'. split; [exact Hprune|]. intros a Ha.
      unfold Cache.marked in Hmarked. fold w in Hmarked. rewrite Hcount in Hmarked.
      apply byte_pass_extends in Hmarked as (extra & Hextra). simpl in Hextra.
      rewrite Hitems, delete_all_keys, list_elem_of_filter, Hextra.
      intros [Hnot _]. apply Hnot.
      apply elem_of_app. left. apply elem_of_app. right.
      by apply list_elem_of_fmap_2.
    + intros Hoff.
      pose proof (marked_without_byte_pass now c Hoff) as Hmarked.
      fold w in Hmarked. rewrite Hcount in Hmarked.
      destruct (prune_items now c _ Hmarked) as (c' & Hprune & Hitems).
      exists c'. split; [exact Hprune|].
      by rewrite Hitems, delete_all_keys.
  - intros now k1 k2 k3 v1 v2 v3 t1 t2 t3 H12 H13 H23 Hv1 Hv2 Hv3 Ht12 Ht23.
    set (c := Cache.add t3 k3 v3 _).
    assert (Cache.wf c) as Hwf by (repeat apply wf_add; apply wf_new).
    destruct (three_adds_items (mkPolicy (Some 2) None None)
                k1 k2 k3 v1 v2 v3 t1 t2 t3) as (s1 & s2 & s3 & Hitems); try done.
    fold c in Hitems.
    assert (Cache.marked now c
            = Some ([CacheItem.mk k2 t2 v2 s2; CacheItem.mk k3 t3 v3 s3], [k1]))
      as Hmarked.
    { eapply marked_three; try exact Hitems; try done.
      subst c. by rewrite !add_policy. }
    assert (Cache.trace c = []) as Htrace by (subst c; by rewrite !add_trace).
    assert (Cache.events c = EventEmitter.new) as Hevents
      by (subst c; by rewrite !add_events).
    rewrite (prune_spec now c _ Hwf Hmarked). cbn [snd].
    rewrite (decide_False (P := [k1] = [])) by done.
    eexists. split; [reflexivity|].
    rewrite events_emit_items, events_emit_trace, emit_calls.
    cbn [Cache.items Cache.trace Cache.events Cache.with_items].
    rewrite Htrace, Hevents, Hitems.
    split; [|reflexivity].
    rewrite delete_all_keys. cbn [fmap list_fmap fst].
    rewrite !filter_cons, filter_nil.
    rewrite decide_False by (intros Hn; apply Hn, list_elem_of_here).
    rewrite decide_True by (by intros ->%list_elem_of_singleton).
    by rewrite decide_True by (by intros ->%list_elem_of_singleton).
Qed.

Lemma count_pass_evicts_oldest_witness :
  (∃ c', Cache.prune 20 (three_adds max_two_items) = Some c'
         ∧ (Cache.items c').*1 = ["b"; "c"]
         ∧ Cache.trace c'
           = [Cache.mkEmission ItemsEvicted (Keys ["a"]) [] (Cache.items c')])
  ∧ (∃ c', Cache.prune 20 (three_adds max_two_items) = Some c'
           ∧ "a" ∉ (Cache.items c').*1).
Proof.
  split.
  - apply (proj2 count_pass_evicts_oldest 20 "a" "b" "c"
             (VString "x") (VString "yy") (VString "zzz") 1 2 3);
      done || lia.
  - assert (Cache.wf (three_adds max_two_items)) as Hwf
      by (repeat apply wf_add; apply wf_new).
    destruct (proj1 count_pass_evicts_oldest 20 (three_adds max_two_items) 2
                Hwf eq_refl ltac:(lia) ltac:(vm_compute; reflexivity))
      as (_ & _ & _ & _ & (c' & Hprune & Hout) & _).
    exists c'. split; [exact Hprune|].
    apply (Hout (CacheItem.mk "a" 1 (VString "x") 1)).
    vm_compute. constructor.
Defined.

(** ** The measurability flag (claims C2 and C9) *)

Section Measurability.
Import Cache.

Lemma get_canMeasureSize key silent c :
  canMeasureSize (get key silent c).2 = canMeasureSize c.
Proof.
  unfold get. destruct (JsMap.has _ _); [by destruct (JsMap.get _ _)|].
  simpl. destruct silent; [done|]. by rewrite events_emit_canMeasureSize.
Qed.

(** No operation sets the flag back. *)
Lemma step_unmeasurable o c c' :
  canMeasureSize c = false → step o c = Some c' → canMeasureSize c' = false.
Proof.
  intros Hflag. destruct o; simpl.
  - intros [= <-]. unfold add. rewrite add_with_canMeasureSize, Hflag.
    by destruct (Is.value value).
  - intros [= <-]. by rewrite get_canMeasureSize.
  - by intros [= <-].
  - by intros [= <-].
  - intros [= <-]. unfold updatePolicy. by rewrite schedulePrune_canMeasureSize.
  - intros Hp. by rewrite (prune_canMeasureSize _ _ _ Hp).
  - unfold fire. destruct (bool_decide _); [|by intros [= <-]].
    intros Hp. by rewrite (prune_canMeasureSize _ _ _ Hp).
  - by intros [= <-].
Qed.

Lemma run_unmeasurable ops c c' :
  canMeasureSize c = false → run ops c = Some c' → canMeasureSize c' = false.
Proof.
  revert c. induction ops as [|o ops IH]; intros c Hflag; simpl.
  - by intros [= <-].
  - destruct (step o c) as [c1|] eqn:Hs; [|done]. simpl.
    apply IH. by eapply step_unmeasurable.
Qed.

Lemma totalSize_nonneg c except : wf c → 0 ≤ totalSize (items c) except.
Proof.
  intros Hwf. rewrite totalSize_sizes. apply sizes_nonneg.
  apply Forall_forall. intros i [_ Hi]%list_elem_of_filter.
  by eapply Forall_forall in Hi; [|by apply wf_sizes].
Qed.

End Measurability.

(** C2. An [add] of a value the estimator cannot measure clears
    [canMeasureSize], and from a state in which it is cleared no sequence of
    [add], [get], [remove], [clear], [updatePolicy] and [prune] (called or
    fired by the timer) sets it again; in every such state [size] is [-1]:
    not zero, and not the total of the recorded sizes, which is never
    negative. *)
Theorem unmeasurable_is_permanent :
  (∀ (now : Z) (key : string) (v : jsval) (c : Cache.t),
     Is.value v = true → byteSize v = -1 →
     Cache.canMeasureSize (Cache.add now key v c) = false)
  ∧ (∀ (ops : list Cache.op) (c c' : Cache.t),
       Cache.canMeasureSize c = false → Cache.run ops c = Some c' →
       Cache.canMeasureSize c' = false
       ∧ Cache.size c' = -1
       ∧ Cache.size c' ≠ 0
       ∧ (Cache.wf c → Cache.size c' ≠ totalSize (Cache.items c') [])).
Proof.
  split.
  - intros now key v c Hv Hsize. unfold Cache.add.
    rewrite add_with_canMeasureSize, Hv, Hsize.
    rewrite bool_decide_eq_false_2 by tauto. apply andb_false_r.
  - intros ops c c' Hflag Hrun.
    pose proof (run_unmeasurable ops c c' Hflag Hrun) as Hflag'.
    unfold Cache.size. rewrite Hflag'. repeat split; [done|].
    intros Hwf. pose proof (totalSize_nonneg c' [] (wf_run ops c c' Hwf Hrun)). lia.
Qed.

Lemma unmeasurable_is_permanent_witness :
  Cache.canMeasureSize unmeasurable_cache = false
  ∧ ∃ c', Cache.run [Cache.Add 2 "s" (VString "abc"); Cache.Get "q" false;
                     Cache.Remove "o"; Cache.UpdatePolicy max_four_bytes;
                     Cache.Prune 30; Cache.Fire 40 3; Cache.Clear;
                     Cache.Add 50 "t" (VBuffer [])] unmeasurable_cache = Some c'
          ∧ Cache.canMeasureSize c' = false ∧ Cache.size c' = -1.
Proof.
  assert (Cache.canMeasureSize unmeasurable_cache = false) as Hflag
    by (apply (proj1 unmeasurable_is_permanent 1 "o" (VObject 7)); reflexivity).
  split; [exact Hflag|].
  match goal with
  | |- ∃ c', Cache.run ?ops _ = _ ∧ _ =>
      assert (∃ c', Cache.run ops unmeasurable_cache = Some c') as [c' Hrun]
        by (eexists; vm_compute; reflexivity);
      destruct (proj2 unmeasurable_is_permanent ops unmeasurable_cache c' Hflag Hrun)
        as (Hflag' & Hsize & _)
  end.
  exists c'. split; [exact Hrun|]. split; [exact Hflag' | exact Hsize].
Defined.

Lemma set_perm {V} (k : string) (v : V) (m : JsMap.t V) :
  NoDup m.*1 → JsMap.set k v m ≡ₚ (k, v) :: JsMap.delete k m.
Proof.
  unfold JsMap.delete. induction m as [|[k' v'] m IH]; intros Hnd; [done|].
  rewrite fmap_cons in Hnd. apply NoDup_cons in Hnd as [Hk' Hnd]. simpl in Hk'.
  cbn [JsMap.set]. destruct (decide (k' = k)) as [->|Hne].
  - rewrite (filter_cons_False (λ kv : string * V, kv.1 ≠ k)) by (simpl; tauto).
    pose proof (delete_absent k m Hk') as Habs. unfold JsMap.delete in Habs.
    apply Permutation_skip. apply reflexive_eq. symmetry. exact Habs.
  - rewrite (filter_cons_True (λ kv : string * V, kv.1 ≠ k)) by done.
    rewrite IH by done. apply Permutation_swap.
Qed.

(** C9. Once [canMeasureSize] is cleared, [add] does not consult the size
    estimator: whatever the estimator is, the result is the same.  The
    entry it stores records size [0], also for a string or a Buffer, so the
    total size with the entry is the total size without it; the flag stays
    cleared, and from then on the byte pass of [prune] leaves its working
    state as it is, whatever the policy. *)
Theorem add_after_flip_records_zero
    (measure : jsval → Z) (now : Z) (key : string) (v : jsval) (c : Cache.t) :
  Cache.canMeasureSize c = false →
  Is.value v = true →
  Cache.add_with measure now key v c = Cache.add now key v c
  ∧ JsMap.get key (Cache.items (Cache.add now key v c))
    = Some (CacheItem.mk key now v 0)
  ∧ Cache.canMeasureSize (Cache.add now key v c) = false
  ∧ (Cache.wf c → ∀ except,
       totalSize (Cache.items (Cache.add now key v c)) except
       = totalSize (JsMap.delete key (Cache.items c)) except)
  ∧ (∀ ops c', Cache.run ops (Cache.add now key v c) = Some c' →
       ∀ w, Cache.byte_pass c' w = Some w).
Proof.
  intros Hflag Hv.
  assert (Cache.canMeasureSize (Cache.add now key v c) = false) as Hflag'.
  { unfold Cache.add. by rewrite add_with_canMeasureSize, Hflag, Hv. }
  split; [|split; [|split; [done|split]]].
  - unfold Cache.add, Cache.add_with. by rewrite Hflag.
  - unfold Cache.add. rewrite add_with_items, Hv, Hflag. apply get_set.
  - intros [Hnd _] except. unfold Cache.add.
    rewrite add_with_items, Hv, Hflag, !totalSize_sizes.
    unfold JsMap.values.
    erewrite sizes_perm; [|by rewrite (set_perm _ _ _ Hnd)].
    rewrite fmap_cons. unfold unmarked. rewrite filter_cons. simpl.
    destruct (decide (key ∉ except)); [|done].
    by rewrite sizes_cons.
  - intros ops c' Hrun w.
    pose proof (run_unmeasurable _ _ _ Hflag' Hrun) as Hc'.
    unfold Cache.byte_pass. rewrite Hc'. by destruct (positive_limit _).
Qed.

Lemma add_after_flip_records_zero_witness :
  JsMap.get "s" (Cache.items (Cache.add 2 "s" (VString "abc") unmeasurable_cache))
  = Some (CacheItem.mk "s" 2 (VString "abc") 0)
  ∧ byteSize (VString "abc") = 3.
Proof.
  split; [|reflexivity].
  apply (add_after_flip_records_zero byteSize 2 "s" (VString "abc") unmeasurable_cache);
    reflexivity.
Defined.

(** ** [get] and [contains] (claims C4 and C3) *)

(** C4. [get] is a total function of the model: it returns, and throws
    nothing.  For a key that is not in the store it returns [null]; with
    [silent] false it makes one [KeyNotFound] emission, which carries the
    key and shows the store as it is, and changes nothing else; with
    [silent] true it changes nothing at all.  For a key that is in the
    store it returns the value stored under it and changes nothing, so it
    emits nothing. *)
Theorem get_miss_and_hit (key : string) (silent : bool) (c : Cache.t) :
  (JsMap.has key (Cache.items c) = false →
     (Cache.get key silent c).1 = VNull
     ∧ (Cache.get key silent c).2
       = (if silent then c else Cache.events_emit KeyNotFound (Key key) c)
     ∧ Cache.items (Cache.get key silent c).2 = Cache.items c
     ∧ Cache.trace (Cache.get key silent c).2
       = Cache.trace c ++
         (if silent then []
          else [Cache.mkEmission KeyNotFound (Key key)
                  ((λ fn, (fn, Key key)) <$>
                     default [] (EventEmitter.listeners (Cache.events c)
                                   !! EventType_code KeyNotFound))
                  (Cache.items c)]))
  ∧ (JsMap.has key (Cache.items c) = true →
     ∃ item, JsMap.get key (Cache.items c) = Some item
             ∧ Cache.get key silent c = (CacheItem.value item, c)).
Proof.
  split; intros Hhas; unfold Cache.get; rewrite Hhas.
  - simpl. destruct silent.
    + by rewrite app_nil_r.
    + by rewrite events_emit_items, events_emit_trace, emit_calls.
  - destruct (has_get _ _ Hhas) as [item Hitem]. exists item.
    by rewrite Hitem.
Qed.

Lemma get_miss_and_hit_witness :
  (Cache.get "q" false (three_adds no_limits)).1 = VNull
  ∧ Cache.trace (Cache.get "q" false (three_adds no_limits)).2
    = [Cache.mkEmission KeyNotFound (Key "q") [] (Cache.items (three_adds no_limits))]
  ∧ Cache.trace (Cache.get "q" true (three_adds no_limits)).2 = []
  ∧ Cache.get "b" false (three_adds no_limits) = (VString "yy", three_adds no_limits).
Proof.
  assert (JsMap.has "q" (Cache.items (three_adds no_limits)) = false) as Hq
    by (vm_compute; reflexivity).
  assert (JsMap.has "b" (Cache.items (three_adds no_limits)) = true) as Hb
    by (vm_compute; reflexivity).
  destruct (proj1 (get_miss_and_hit "q" false (three_adds no_limits)) Hq)
    as (Hnull & _ & _ & Htrace).
  destruct (proj1 (get_miss_and_hit "q" true (three_adds no_limits)) Hq)
    as (_ & _ & _ & Hsilent).
  destruct (proj2 (get_miss_and_hit "b" false (three_adds no_limits)) Hb)
    as (item & Hitem & Hget).
  split; [exact Hnull|].
  split; [rewrite Htrace; vm_compute; reflexivity|].
  split; [rewrite Hsilent; vm_compute; reflexivity|].
  rewrite Hget. vm_compute in Hitem. injection Hitem as <-. reflexivity.
Defined.

(** [contains] tests the entry it reads from the map, which is an object
    and never empty, so its second argument changes nothing. *)
Lemma contains_is_has (key : string) (allowEmpty : bool) (c : Cache.t) :
  Cache.contains key allowEmpty c = JsMap.has key (Cache.items c).
Proof.
  unfold Cache.contains. destruct (JsMap.has key (Cache.items c)) eqn:Hhas; [|done].
  destruct (has_get _ _ Hhas) as [item ->]. simpl. apply orb_true_r.
Qed.

Section Stored.
Import Cache.

(** [add] stores nothing it takes for empty, and no other operation puts a
    value into the store. *)
Lemma stored_step o c c' :
  Forall (λ kv, empty_for_add (CacheItem.value kv.2) = false) (items c) →
  step o c = Some c' →
  Forall (λ kv, empty_for_add (CacheItem.value kv.2) = false) (items c').
Proof.
  intros H Hs. destruct o; simpl in Hs.
  - injection Hs as <-. unfold add. rewrite add_with_items.
    destruct (Is.value value) eqn:Hv; [|done].
    apply set_Forall; [|done]. simpl. unfold empty_for_add. by rewrite Hv.
  - injection Hs as <-. unfold get. destruct (JsMap.has _ _).
    + by destruct (JsMap.get _ _).
    + destruct silent; [done|]. simpl. by rewrite events_emit_items.
  - injection Hs as <-. simpl. by apply delete_Forall.
  - injection Hs as <-. constructor.
  - injection Hs as <-. unfold updatePolicy. by rewrite schedulePrune_items.
  - by eapply prune_Forall.
  - unfold fire in Hs. destruct (bool_decide _); [|by injection Hs as <-].
    by apply (prune_Forall _ _ _ _ Hs).
  - by injection Hs as <-.
Qed.

Lemma stored_run ops c c' :
  Forall (λ kv, empty_for_add (CacheItem.value kv.2) = false) (items c) →
  run ops c = Some c' →
  Forall (λ kv, empty_for_add (CacheItem.value kv.2) = false) (items c').
Proof.
  revert c. induction ops as [|o ops IH]; intros c H; simpl.
  - by intros [= <-].
  - destruct (step o c) as [c1|] eqn:Hs; [|done]. simpl.
    apply IH. by eapply stored_step.
Qed.

End Stored.

(** C3. In every cache reached from a new one by the operations of the
    class, [contains(key, allowEmpty)] is true exactly when the store has
    an entry under [key] and, when [allowEmpty] is false, the value of that
    entry is not empty for [add] (which stores a value when [is.value]
    holds of it); an entry whose value is empty for [add] is not contained
    when [allowEmpty] is false, and a key the store does not have is not
    contained.  No value in the store is empty for [add], which is the last
    part of the statement: the test on the value never excludes a key. *)
Theorem contains_stored_nonempty (p : CachePolicy) (ops : list Cache.op) (c : Cache.t)
    (key : string) (allowEmpty : bool) :
  Cache.run ops (Cache.new p) = Some c →
  (Cache.contains key allowEmpty c = true ↔
     ∃ item, JsMap.get key (Cache.items c) = Some item
             ∧ (allowEmpty = false → empty_for_add (CacheItem.value item) = false))
  ∧ (∀ item, JsMap.get key (Cache.items c) = Some item →
             empty_for_add (CacheItem.value item) = true →
             Cache.contains key false c = false)
  ∧ (JsMap.get key (Cache.items c) = None → Cache.contains key allowEmpty c = false)
  ∧ (∀ item, JsMap.get key (Cache.items c) = Some item →
             empty_for_add (CacheItem.value item) = false).
Proof.
  intros Hrun.
  assert (∀ item, JsMap.get key (Cache.items c) = Some item →
                  empty_for_add (CacheItem.value item) = false) as Hstored.
  { intros item Hitem.
    pose proof (stored_run ops (Cache.new p) c (Forall_nil_2 _) Hrun) as Hall.
    apply get_Some_elem in Hitem.
    by apply (proj1 (Forall_forall _ _) Hall (key, item)). }
  rewrite !contains_is_has.
  split; [split|split; [|split]].
  - intros Hhas. destruct (has_get _ _ Hhas) as [item Hitem].
    exists item. split; [done|]. intros _. by apply Hstored.
  - intros (item & Hitem & _). apply has_true.
    destruct (decide (key ∈ (Cache.items c).*1)) as [|Hn]; [done|].
    apply get_None in Hn. congruence.
  - intros item Hitem Hempty. rewrite (Hstored item Hitem) in Hempty. done.
  - intros Hnone. apply has_false. by apply get_None.
  - exact Hstored.
Qed.

Lemma contains_stored_nonempty_witness :
  Cache.contains "k" false
    (Cache.add 2 "n" VNull (Cache.add 1 "k" (VString "") (Cache.new no_limits))) = true
  ∧ Cache.contains "n" true
      (Cache.add 2 "n" VNull (Cache.add 1 "k" (VString "") (Cache.new no_limits))) = false
  ∧ empty_for_add (VString "") = false
  ∧ empty_for_add VNull = true.
Proof.
  destruct (contains_stored_nonempty no_limits
              [Cache.Add 1 "k" (VString ""); Cache.Add 2 "n" VNull] _ "k" false eq_refl)
    as ((_ & Hk) & _).
  destruct (contains_stored_nonempty no_limits
              [Cache.Add 1 "k" (VString ""); Cache.Add 2 "n" VNull] _ "n" true eq_refl)
    as (_ & _ & Hn & _).
  split; [|split; [|split; reflexivity]].
  - apply Hk. eexists. split; [vm_compute; reflexivity|]. intros _. reflexivity.
  - apply Hn. vm_compute. reflexivity.
Defined.

(** ** The timer (claim C10) *)

Section Timer.
Import Cache.

Lemma schedulePrune_timers c :
  timers (schedulePrune c) = rearmed c
  ∧ evictTimer (schedulePrune c) = Some (next_timer c).
Proof. unfold schedulePrune, rearmed. by destruct (evictTimer c). Qed.

Lemma add_timers now key v c :
  timers (add now key v c) = rearmed c
  ∧ evictTimer (add now key v c) = Some (next_timer c).
Proof.
  unfold add, add_with. destruct (Is.value v); [|apply schedulePrune_timers].
  destruct (canMeasureSize c);
    [destruct (decide _)|];
    exact (schedulePrune_timers (with_items _ (with_canMeasureSize _ c))).
Qed.

Lemma events_emit_same ty ev c :
  evictTimer (events_emit ty ev c) = evictTimer c
  ∧ next_timer (events_emit ty ev c) = next_timer c
  ∧ timers (events_emit ty ev c) = timers c.
Proof. unfold events_emit. by destruct (EventEmitter.emit _ _ _). Qed.

Lemma prune_timers now c c' :
  prune now c = Some c' →
  evictTimer c' = evictTimer c ∧ next_timer c' = next_timer c ∧ timers c' = timers c.
Proof.
  unfold prune. destruct (_ && _); [|by intros [= <-]].
  destruct (marked now c) as [w|]; [|done]. simpl.
  destruct (decide _); intros [= <-]; [|done].
  apply (events_emit_same _ _ (with_items _ c)).
Qed.

End Timer.

(** C10. [remove] and [clear] write the store and nothing else: the trace,
    the timers and the timer handle, like every other field, stay as they
    were, also when the key is absent.  An operation that is neither [add]
    nor [updatePolicy] arms no timer and keeps the handle; [add] and
    [updatePolicy] clear the timer of the handle and arm a new one.  So a
    timer armed before a [remove] or a [clear] is armed after it, and when
    it fires [prune] runs on the store as [remove] or [clear] left it. *)
Theorem remove_and_clear_leave_timer :
  (∀ key c, same_but_items c (Cache.remove key c)
            ∧ Cache.items (Cache.remove key c) = JsMap.delete key (Cache.items c))
  ∧ (∀ c, same_but_items c (Cache.clear c) ∧ Cache.items (Cache.clear c) = [])
  ∧ (∀ o c c',
       Cache.step o c = Some c' →
       (∀ now key v, o ≠ Cache.Add now key v) → (∀ p, o ≠ Cache.UpdatePolicy p) →
       Cache.evictTimer c' = Cache.evictTimer c
       ∧ Cache.next_timer c' = Cache.next_timer c
       ∧ Cache.timers c' ⊆ Cache.timers c)
  ∧ (∀ now key v c,
       Cache.timers (Cache.add now key v c) = rearmed c
       ∧ Cache.evictTimer (Cache.add now key v c) = Some (Cache.next_timer c))
  ∧ (∀ p c,
       Cache.timers (Cache.updatePolicy p c) = rearmed c
       ∧ Cache.evictTimer (Cache.updatePolicy p c) = Some (Cache.next_timer c))
  ∧ (∀ now h key c,
       h ∈ Cache.timers c →
       h ∈ Cache.timers (Cache.remove key c)
       ∧ Cache.fire now h (Cache.remove key c)
         = Cache.prune now (Cache.clearTimeout h (Cache.remove key c)))
  ∧ (∀ now h c,
       h ∈ Cache.timers c →
       h ∈ Cache.timers (Cache.clear c)
       ∧ Cache.fire now h (Cache.clear c)
         = Cache.prune now (Cache.clearTimeout h (Cache.clear c))).
Proof.
  split; [by intros key c|]. split; [by intros c|].
  split; [|split; [apply add_timers | split]].
  - intros o c c' Hstep Hadd Hpol. destruct o; simpl in Hstep.
    + by destruct (Hadd now key value).
    + injection Hstep as <-. unfold Cache.get.
      destruct (JsMap.has _ _); [by destruct (JsMap.get _ _)|].
      simpl. destruct silent; [done|].
      destruct (events_emit_same KeyNotFound (Key key) c) as (-> & -> & ->). done.
    + by injection Hstep as <-.
    + by injection Hstep as <-.
    + by destruct (Hpol p).
    + by destruct (prune_timers _ _ _ Hstep) as (-> & -> & ->).
    + unfold Cache.fire in Hstep. destruct (bool_decide _); [|by injection Hstep as <-].
      destruct (prune_timers _ _ _ Hstep) as (-> & -> & ->). simpl.
      split; [done|]. split; [done|]. apply list_subseteq_filter.
    + by injection Hstep as <-.
  - intros p c. apply (schedulePrune_timers (Cache.with_policy _ c)).
  - split.
    + intros now h key c Hh. split; [done|].
      unfold Cache.fire. by rewrite bool_decide_eq_true_2.
    + intros now h c Hh. split; [done|].
      unfold Cache.fire. by rewrite bool_decide_eq_true_2.
Qed.

Lemma remove_and_clear_leave_timer_witness :
  3%nat ∈ Cache.timers (three_adds max_two_items)
  ∧ Cache.timers (Cache.remove "q" (three_adds max_two_items)) = [3%nat]
  ∧ Cache.trace (Cache.remove "q" (three_adds max_two_items)) = []
  ∧ (∃ c', Cache.fire 20 3 (Cache.remove "c" (three_adds max_two_items)) = Some c'
           ∧ (Cache.items c').*1 = ["a"; "b"])
  ∧ (∃ c', Cache.fire 20 3 (Cache.clear (three_adds max_two_items)) = Some c'
           ∧ Cache.items c' = []).
Proof.
  assert (3%nat ∈ Cache.timers (three_adds max_two_items)) as Hin
    by (vm_compute; constructor).
  destruct remove_and_clear_leave_timer as (Hremove & _ & _ & _ & _ & Hfire & Hclear).
  destruct (Hremove "q" (three_adds max_two_items))
    as ((_ & _ & _ & _ & Htimers & _ & Htrace) & _).
  destruct (Hfire 20 3%nat "c" (three_adds max_two_items) Hin) as (_ & Hf).
  destruct (Hclear 20 3%nat (three_adds max_two_items) Hin) as (_ & Hc).
  split; [exact Hin|].
  split; [rewrite Htimers; vm_compute; reflexivity|].
  split; [rewrite Htrace; vm_compute; reflexivity|].
  split; eexists; (split; [rewrite Hf || rewrite Hc; vm_compute; reflexivity|]);
    vm_compute; reflexivity.
Defined.

(** ** Promise names in the compressing cache *)

Section Fresh.
Import CompressCache.

Ltac below_split H :=
  destruct H as (Hs & Ha & Hc & Hj & Hq);
  split; [|split; [|split; [|split]]]; simpl.

Lemma below_mono n n' s :
  (n ≤ n')%nat → promises_below n s → promises_below n' s.
Proof.
  intros Hle H. below_split H.
  - eapply Forall_impl; [exact Hs|]. simpl. lia.
  - intros q key p Hl. destruct (Ha _ _ _ Hl). lia.
  - intros q key p Hl. destruct (Hc _ _ _ Hl). lia.
  - intros j jb Hjb. specialize (Hj _ _ Hjb). lia.
  - intros key fns Hfns. eapply Forall_impl; [exact (Hq _ _ Hfns)|]. simpl. lia.
Qed.

Lemma below_ext n s s' :
  Loop.settled (loop s') = Loop.settled (loop s) →
  Loop.awaiting (loop s') = Loop.awaiting (loop s) →
  Loop.chained (loop s') = Loop.chained (loop s) →
  Loop.jobs (loop s') = Loop.jobs (loop s) →
  zipQueue s' = zipQueue s →
  promises_below n s → promises_below n s'.
Proof.
  unfold promises_below. simpl. by intros -> -> -> -> ->.
Qed.

Lemma below_record n p r s :
  (p < n)%nat → promises_below n s →
  promises_below n (with_loop (Loop.record p r (loop s)) s).
Proof.
  intros Hp H. below_split H; try done.
  apply Forall_app. split; [done|]. by constructor.
Qed.

Lemma below_start n jb s :
  (job_promise jb < n)%nat → promises_below n s →
  promises_below n (with_loop (Loop.start jb (loop s)) s).
Proof.
  intros Hp H. below_split H; try done.
  intros j jb' [[_ <-]|[_ Hjb]]%lookup_insert_Some; eauto.
Qed.

Lemma below_finish n j s :
  promises_below n s → promises_below n (with_loop (Loop.finish j (loop s)) s).
Proof.
  intros H. below_split H; try done.
  intros j' jb' [_ Hjb]%lookup_delete_Some; eauto.
Qed.

Lemma below_await n q key p s :
  (q < n)%nat → (p < n)%nat → promises_below n s →
  promises_below n (with_loop (Loop.await q key p (loop s)) s).
Proof.
  intros Hlq Hlp H. below_split H; try done.
  intros q' key' p' [[<- [= _ <-]]|[_ Hl]]%lookup_insert_Some; eauto.
Qed.

Lemma below_awaited n q s :
  promises_below n s → promises_below n (with_loop (Loop.awaited q (loop s)) s).
Proof.
  intros H. below_split H; try done.
  intros q' key' p' [_ Hl]%lookup_delete_Some; eauto.
Qed.

Lemma below_chain n pa key q s :
  (pa < n)%nat → (q < n)%nat → promises_below n s →
  promises_below n (with_loop (Loop.chain pa key q (loop s)) s).
Proof.
  intros Hlpa Hlq H. below_split H; try done.
  intros pa' key' q' [[<- [= _ <-]]|[_ Hl]]%lookup_insert_Some; eauto.
Qed.

Lemma below_unchain n pa s :
  promises_below n s → promises_below n (with_loop (Loop.unchain pa (loop s)) s).
Proof.
  intros H. below_split H; try done.
  intros pa' key' q' [_ Hl]%lookup_delete_Some; eauto.
Qed.

Lemma below_with_base n b s :
  promises_below n s → promises_below n (with_base b s).
Proof. by apply below_ext. Qed.

Lemma below_fresh n s :
  promises_below n s → promises_below n (with_loop (Loop.fresh (loop s)).2 s).
Proof. by apply below_ext. Qed.

Lemma below_beginZip n key value s :
  promises_below n s → promises_below n (beginZip key value s).
Proof.
  intros H. below_split H; try done.
  intros key' fns [[_ <-]|[_ Hl]]%lookup_insert_Some; eauto.
Qed.

End Fresh.

Section FreshOps.
Import CompressCache.

Local Abbreviation np s := (Loop.next_promise (loop s)).

Lemma getText_resume_below n key p r s :
  (p < n)%nat → promises_below n s →
  promises_below n (getText_resume key p r s)
  ∧ np (getText_resume key p r s) = np s.
Proof.
  intros Hp H. unfold getText_resume.
  destruct r as [v| |]; [destruct v|..]; try destruct (loader s);
    (split; [|done]);
    first [by apply below_record | by apply below_start].
Qed.

Lemma settle_unfold q r s :
  settle q r s =
  match Loop.awaiting (loop s) !! q with
  | Some (key, p) =>
      getText_resume key p r (with_loop (Loop.awaited q (Loop.record q r (loop s))) s)
  | None => with_loop (Loop.record q r (loop s)) s
  end.
Proof. reflexivity. Qed.

Lemma settle_addText_unfold pa r s :
  settle_addText pa r s =
  match Loop.chained (loop s) !! pa with
  | Some (key, q) =>
      let s1 := with_loop (Loop.unchain pa (Loop.record pa r (loop s))) s in
      match r with
      | Rejected => settle q Rejected s1
      | _ => settle q (Value (super_get key s1).1) (super_get key s1).2
      end
  | None => with_loop (Loop.record pa r (loop s)) s
  end.
Proof.
  unfold settle_addText. cbn [loop with_loop Loop.chained Loop.record].
  destruct (Loop.chained _ !! _) as [[key q]|]; [|done].
  cbv zeta. destruct r; try done; by destruct (super_get key _).
Qed.

Lemma settle_below n q r s :
  (q < n)%nat → promises_below n s →
  promises_below n (settle q r s) ∧ np (settle q r s) = np s.
Proof.
  intros Hq H. rewrite settle_unfold.
  destruct (Loop.awaiting _ !! _) as [[key p]|] eqn:Hl.
  - assert (p < n)%nat as Hp by (destruct H as (_ & Ha & _); by destruct (Ha _ _ _ Hl)).
    destruct (getText_resume_below n key p r
                (with_loop (Loop.awaited q (Loop.record q r (loop s))) s) Hp)
      as [H1 Hn1].
    { by apply (below_awaited n q (with_loop _ s)), below_record. }
    split; [exact H1 | exact Hn1].
  - split; [by apply below_record | done].
Qed.

Lemma super_get_below n key s :
  promises_below n s →
  promises_below n (super_get key s).2 ∧ np (super_get key s).2 = np s.
Proof.
  intros H. unfold super_get. destruct (Cache.get _ _ _) as [v b]. simpl.
  split; [by apply below_with_base | done].
Qed.

Lemma settle_addText_below n pa r s :
  (pa < n)%nat → promises_below n s →
  promises_below n (settle_addText pa r s) ∧ np (settle_addText pa r s) = np s.
Proof.
  intros Hpa H. rewrite settle_addText_unfold.
  destruct (Loop.chained _ !! _) as [[key q]|] eqn:Hl;
    [|split; [by apply below_record | done]].
  assert (q < n)%nat as Hq by (destruct H as (_ & _ & Hc & _); by destruct (Hc _ _ _ Hl)).
  cbv zeta. set (s1 := with_loop (Loop.unchain pa _) _).
  assert (promises_below n s1 ∧ np s1 = np s) as [H1 Hn1].
  { split; [|done]. by apply (below_unchain n pa (with_loop _ s)), below_record. }
  destruct (super_get_below n key s1 H1) as [H2 Hn2].
  destruct r as [v| |].
  - destruct (settle_below n q (Value (super_get key s1).1) _ Hq H2) as [H3 Hn3].
    split; [done | congruence].
  - destruct (settle_below n q (Value (super_get key s1).1) _ Hq H2) as [H3 Hn3].
    split; [done | congruence].
  - destruct (settle_below n q Rejected s1 Hq H1) as [H3 Hn3].
    split; [done | congruence].
Qed.

Lemma foldl_settle_below n r fns s :
  Forall (λ q, (q < n)%nat) fns → promises_below n s →
  promises_below n (foldl (λ s fn, settle fn r s) s fns)
  ∧ np (foldl (λ s fn, settle fn r s) s fns) = np s.
Proof.
  intros Hfns. revert s. induction Hfns as [|q fns Hq Hfns IH]; intros s H; [done|].
  simpl. destruct (settle_below n q r s Hq H) as [H1 Hn1].
  destruct (IH _ H1) as [H2 Hn2]. split; [done | congruence].
Qed.

Lemma endZip_below n key zipped s :
  promises_below n s →
  promises_below n (endZip key zipped s).2 ∧ np (endZip key zipped s).2 = np s.
Proof.
  intros H. unfold endZip.
  set (s1 := mk _ _ _ _ _).
  assert (promises_below n s1) as H1.
  { destruct H as (Hs & Ha & Hc & Hj & Hq).
    split; [|split; [|split; [|split]]]; try done. simpl.
    intros key' fns [_ Hl]%lookup_delete_Some. eauto. }
  destruct (zipQueue s !! key) as [fns|] eqn:Hl; [|done]. simpl.
  apply (foldl_settle_below n _ fns s1); [|done].
  destruct H as (_ & _ & _ & _ & Hq). eauto.
Qed.

Lemma addText_below key value s :
  promises_fresh s →
  (addText key value s).1 = np s
  ∧ promises_fresh (addText key value s).2
  ∧ np (addText key value s).2 = S (np s).
Proof.
  intros H. unfold promises_fresh in *.
  apply (below_mono _ (S (np s))) in H; [|lia].
  unfold addText. cbn [Loop.fresh].
  destruct (Is.empty _); simpl; (split; [done|]); (split; [|done]).
  - apply (below_record _ _ _ (with_loop _ s)); [lia|]. by apply below_fresh.
  - apply (below_start _ _ (beginZip key value (with_loop _ s))); [simpl; lia|].
    by apply below_beginZip, below_fresh.
Qed.

End FreshOps.

Section FreshSteps.
Import CompressCache.

Local Abbreviation np s := (Loop.next_promise (loop s)).

Lemma getZip_below key s :
  promises_fresh s →
  (getZip key s).1 = np s
  ∧ promises_fresh (getZip key s).2
  ∧ np (getZip key s).2 = S (np s).
Proof.
  intros H. unfold promises_fresh in *.
  apply (below_mono _ (S (np s))) in H; [|lia].
  apply below_fresh in H.
  unfold getZip. cbn [Loop.fresh].
  set (s0 := with_loop _ s) in *.
  destruct (contains key s0).
  - destruct (super_get_below _ key s0 H) as [H1 Hn1].
    destruct (super_get key s0) as [v s1]. simpl in *.
    split; [done|]. rewrite Hn1. split; [|done].
    apply below_record; [lia | done].
  - destruct (bool_decide _) eqn:Hq.
    + simpl. split; [done|]. split; [|done].
      apply bool_decide_eq_true in Hq as [fns Hfns].
      destruct H as (Hs & Ha & Hc & Hj & Hqueue).
      split; [|split; [|split; [|split]]]; try done. simpl.
      intros key' fns' [[_ <-]|[_ Hl]]%lookup_insert_Some; [|by eauto].
      apply Forall_app. split; [|constructor; [lia | constructor]].
      subst s0. simpl in *. rewrite Hfns. simpl. eauto.
    + destruct (loader s0); simpl; (split; [done|]); (split; [|done]).
      * apply below_start; [simpl; lia | done].
      * apply below_record; [lia | done].
Qed.

Lemma getText_below key s :
  promises_fresh s →
  (getText key s).1 = np s
  ∧ promises_fresh (getText key s).2
  ∧ (np s < np (getText key s).2)%nat.
Proof.
  intros H. unfold getText. cbn [Loop.fresh].
  set (s0 := with_loop _ s).
  assert (promises_fresh s0 ∧ np s0 = S (np s)) as [H0 Hn0].
  { split; [|done]. unfold promises_fresh in *. simpl.
    apply (below_fresh _ s). eapply below_mono; [|exact H]. lia. }
  destruct (zipBuffer s0 !! key) as [text|].
  - simpl. split; [done|]. split; [|lia].
    unfold promises_fresh in *. apply below_record; [simpl; lia | done].
  - destruct (getZip_below key s0 H0) as (Hq & H1 & Hn1).
    destruct (getZip key s0) as [q s1]. simpl in *.
    unfold promises_fresh in *.
    destruct (Loop.outcome_of q (loop s1)) as [r|]; simpl.
    + destruct (getText_resume_below (np s1) key (np s) r s1) as [H2 Hn2];
        [lia | done |].
      split; [done|]. rewrite Hn2. split; [done | lia].
    + split; [done|]. split; [|lia].
      apply below_await; [lia | lia | done].
Qed.

Lemma super_add_below n now key v s :
  promises_below n s → promises_below n (super_add now key v s).
Proof. apply below_with_base. Qed.

Section Codec.
Variable gzip : string → Buffer.
Variable unzip : Buffer → option string.

Lemma complete_below now j s :
  promises_fresh s →
  promises_fresh (complete gzip unzip now j s)
  ∧ (np s ≤ np (complete gzip unzip now j s))%nat.
Proof.
  intros H. unfold complete.
  destruct (Loop.jobs (loop s) !! j) as [jb|] eqn:Hjb; [|done].
  assert (job_promise jb < np s)%nat as Hp
    by (destruct H as (_ & _ & _ & Hj & _); eauto).
  set (s0 := with_loop (Loop.finish j _) s).
  assert (promises_below (np s) s0) as H0 by by apply below_finish.
  destruct jb as [value key pa|bytes p|key q|key p]; simpl in Hp.
  - destruct (endZip_below (np s) key (gzip value) s0 H0) as [H1 Hn1].
    destruct (endZip key (gzip value) s0) as [ok s1]. simpl in *.
    destruct ok.
    + destruct (settle_addText_below (np s) pa This
                  (super_add now key (VBuffer (gzip value)) s1)) as [H2 Hn2];
        [done | by apply super_add_below |].
      unfold promises_fresh. rewrite Hn2. simpl. rewrite Hn1. split; [done | lia].
    + destruct (settle_addText_below (np s) pa Rejected s1) as [H2 Hn2];
        [done | done |].
      unfold promises_fresh. rewrite Hn2, Hn1. split; [done | lia].
  - destruct (unzip bytes); (split; [|done]); by apply below_record.
  - destruct (loader s0) as [ld|]; [|done].
    destruct (addText_below key (ld key) s0 H0) as (Hpa & H1 & Hn1).
    destruct (addText key (ld key) s0) as [pa s1]. simpl in *.
    destruct (Loop.outcome_of pa (loop s1)).
    + destruct (super_get_below _ key s1 H1) as [H2 Hn2].
      destruct (super_get key s1) as [v s2]. simpl in *.
      destruct (settle_below (np s1) q (Value v) s2) as [H3 Hn3];
        [lia | done |].
      unfold promises_fresh. rewrite Hn3, Hn2. split; [done | lia].
    + split; [|simpl; lia]. unfold promises_fresh in *. simpl.
      apply below_chain; [lia | lia | done].
  - destruct (loader s0) as [ld|]; [|done].
    destruct (addText_below key (ld key) s0 H0) as (Hpa & H1 & Hn1).
    destruct (addText key (ld key) s0) as [pa s1]. simpl in *.
    split; [|lia]. unfold promises_fresh in *. simpl.
    apply below_record; [lia | done].
Qed.

(** Every operation keeps promise names below the next one. *)
Lemma step_fresh o s s' :
  promises_fresh s → step gzip unzip o s = Some s' → promises_fresh s'.
Proof.
  intros H. destruct o; simpl.
  - intros [= <-]. by apply addText_below.
  - intros [= <-]. by apply getZip_below.
  - intros [= <-]. by apply getText_below.
  - intros [= <-]. by apply complete_below.
  - destruct (Cache.step o (base s)) as [b|]; [|done]. simpl.
    intros [= <-]. by apply below_with_base.
Qed.

Lemma run_fresh ops s s' :
  promises_fresh s → run gzip unzip ops s = Some s' → promises_fresh s'.
Proof.
  revert s. induction ops as [|o ops IH]; intros s H; simpl.
  - by intros [= <-].
  - destruct (step gzip unzip o s) as [s1|] eqn:Hs; [|done]. simpl.
    apply IH. by eapply step_fresh.
Qed.

End Codec.

Lemma new_fresh ld policy : promises_fresh (new ld policy).
Proof.
  split; [constructor|]. split; [|split; [|split]]; simpl.
  - intros q key p Hl. by apply lookup_empty_Some in Hl.
  - intros q key p Hl. by apply lookup_empty_Some in Hl.
  - intros j jb Hl. by apply lookup_empty_Some in Hl.
  - intros key fns Hl. by apply lookup_empty_Some in Hl.
Qed.

Lemma reachable_fresh gzip unzip ld policy ops s :
  run gzip unzip ops (new ld policy) = Some s → promises_fresh s.
Proof. apply run_fresh, new_fresh. Qed.

End FreshSteps.

(** ** The steps of the round trip through the compressing cache *)

Section Outcomes.
Import CompressCache.

Lemma outcome_of_None p l :
  Forall (λ pr, pr.1 ≠ p) (Loop.settled l) → Loop.outcome_of p l = None.
Proof.
  unfold Loop.outcome_of. induction 1 as [|[p' r'] settled Hp' _ IH]; [done|].
  cbn [list_find]. rewrite decide_False by done.
  by destruct (list_find _ settled).
Qed.

Lemma outcome_of_last p r l :
  Forall (λ pr, pr.1 ≠ p) (Loop.settled l) →
  Loop.outcome_of p (Loop.record p r l) = Some r.
Proof.
  unfold Loop.outcome_of. cbn [Loop.settled Loop.record].
  induction 1 as [|[p' r'] settled Hp' _ IH]; cbn [app list_find].
  - by rewrite decide_True.
  - rewrite decide_False by done.
    by destruct (list_find _ (settled ++ _)) as [[i x]|]; [injection IH as <-|].
Qed.

Lemma fresh_settled_ne (n p : nat) (settled : list (promise * outcome)) :
  (n ≤ p)%nat → Forall (λ pr, (pr.1 < n)%nat) settled →
  Forall (λ pr, pr.1 ≠ p) settled.
Proof.
  intros Hle Hs. eapply Forall_impl; [exact Hs|]. intros pr. simpl. lia.
Qed.

Lemma addText_nonempty key text s :
  Is.empty (VString text) = false →
  addText key text s =
  (Loop.next_promise (loop s),
   mk (base s) (loader s) (<[key := text]> (zipBuffer s)) (<[key := []]> (zipQueue s))
      (Loop.mk (<[Loop.next_job (loop s) := Gzip text key (Loop.next_promise (loop s))]>
                  (Loop.jobs (loop s)))
               (S (Loop.next_job (loop s))) (S (Loop.next_promise (loop s)))
               (Loop.settled (loop s)) (Loop.awaiting (loop s)) (Loop.chained (loop s))
               (Loop.gzip_calls (loop s) ++ [text]))).
Proof. intros He. unfold addText. cbn [Loop.fresh]. by rewrite He. Qed.

End Outcomes.

Lemma stored_codec_lossless text : stored_unzip (stored_gzip text) = Some text.
Proof.
  unfold stored_unzip, stored_gzip. by rewrite String.string_of_list_byte_of_string.
Qed.

Section RoundTrip.
Import CompressCache.
Local Arguments Loop.outcome_of : simpl never.
Variable gzip : string → Buffer.
Variable unzip : Buffer → option string.

(** The state when the compression started by [addText(key, text)]
    completes with nothing else done in between. *)
Lemma addText_completed now key text s :
  promises_fresh s → Is.empty (VString text) = false →
  complete gzip unzip now (Loop.next_job (loop s)) (addText key text s).2 =
  mk (Cache.add now key (VBuffer (gzip text)) (base s)) (loader s)
     (delete key (<[key := text]> (zipBuffer s)))
     (delete key (<[key := []]> (zipQueue s)))
     (Loop.mk (delete (Loop.next_job (loop s))
                 (<[Loop.next_job (loop s) := Gzip text key (Loop.next_promise (loop s))]>
                    (Loop.jobs (loop s))))
              (S (Loop.next_job (loop s))) (S (Loop.next_promise (loop s)))
              (Loop.settled (loop s) ++ [(Loop.next_promise (loop s), This)])
              (Loop.awaiting (loop s)) (Loop.chained (loop s))
              (Loop.gzip_calls (loop s) ++ [text])).
Proof.
  intros Hfresh He. rewrite addText_nonempty by done. cbn [snd].
  unfold complete. simpl. rewrite lookup_insert_eq.
  unfold endZip. simpl. rewrite lookup_insert_eq. simpl.
  rewrite settle_addText_unfold. simpl.
  destruct (Loop.chained (loop s) !! Loop.next_promise (loop s)) as [[k q]|] eqn:Hl.
  - destruct Hfresh as (_ & _ & Hc & _). destruct (Hc _ _ _ Hl). lia.
  - reflexivity.
Qed.


Lemma getText_staged key text s :
  zipBuffer s !! key = Some text →
  getText key s =
  (Loop.next_promise (loop s),
   with_loop (Loop.record (Loop.next_promise (loop s)) (Value (VString text))
                (Loop.fresh (loop s)).2) s).
Proof. intros Hb. unfold getText. simpl. by rewrite Hb. Qed.

(** [getText] of a key that is stored and not staged starts [unzip] on the
    stored buffer. *)
Lemma getText_stored key bytes item s :
  promises_fresh s →
  zipBuffer s !! key = None →
  JsMap.get key (Cache.items (base s)) = Some item →
  CacheItem.value item = VBuffer bytes →
  getText key s =
  (Loop.next_promise (loop s),
   mk (base s) (loader s) (zipBuffer s) (zipQueue s)
      (Loop.mk (<[Loop.next_job (loop s) := Unzip bytes (Loop.next_promise (loop s))]>
                  (Loop.jobs (loop s)))
               (S (Loop.next_job (loop s))) (S (S (Loop.next_promise (loop s))))
               (Loop.settled (loop s)
                  ++ [(S (Loop.next_promise (loop s)), Value (VBuffer bytes))])
               (Loop.awaiting (loop s)) (Loop.chained (loop s))
               (Loop.gzip_calls (loop s)))).
Proof.
  intros Hfresh Hb Hget Hvalue.
  assert (JsMap.has key (Cache.items (base s)) = true) as Hhas.
  { apply has_true.
    destruct (decide (key ∈ (Cache.items (base s)).*1)) as [|Hn]; [done|].
    apply get_None in Hn. congruence. }
  unfold getText. simpl. rewrite Hb.
  unfold getZip. simpl. unfold contains. simpl. rewrite contains_is_has, Hhas.
  unfold super_get, Cache.get. simpl. rewrite Hhas, Hget, Hvalue. simpl.
  rewrite outcome_of_last; [done|]. simpl.
  destruct Hfresh as (Hs & _). eapply fresh_settled_ne; [|exact Hs]. lia.
Qed.

Lemma complete_unzip now j bytes p text s :
  Loop.jobs (loop s) !! j = Some (Unzip bytes p) →
  unzip bytes = Some text →
  complete gzip unzip now j s
  = with_loop (Loop.record p (Value (VString text)) (Loop.finish j (loop s))) s.
Proof. intros Hj Hu. unfold complete. by rewrite Hj, Hu. Qed.

End RoundTrip.

(** ** Calls that wait for a compression in flight (claim C8) *)

Section Queue.
Import CompressCache.
Variable gzip : string → Buffer.
Variable unzip : Buffer → option string.

(** [getZip] of a key that is not stored and has a queue registers the
    promise it returns and does nothing else. *)
Lemma getZip_queued key fns s :
  JsMap.has key (Cache.items (base s)) = false →
  zipQueue s !! key = Some fns →
  getZip key s =
  (Loop.next_promise (loop s),
   mk (base s) (loader s) (zipBuffer s)
      (<[key := fns ++ [Loop.next_promise (loop s)]]> (zipQueue s))
      (Loop.fresh (loop s)).2).
Proof.
  intros Hhas Hq. unfold getZip. simpl. unfold contains. simpl.
  by rewrite contains_is_has, Hhas, Hq.
Qed.

Lemma foldl_settle_unawaited r qs s :
  (∀ q, q ∈ qs → Loop.awaiting (loop s) !! q = None) →
  foldl (λ s fn, settle fn r s) s qs =
  with_loop
    (Loop.mk (Loop.jobs (loop s)) (Loop.next_job (loop s)) (Loop.next_promise (loop s))
       (Loop.settled (loop s) ++ ((λ q, (q, r)) <$> qs))
       (Loop.awaiting (loop s)) (Loop.chained (loop s)) (Loop.gzip_calls (loop s)))
    s.
Proof.
  revert s. induction qs as [|q qs IH]; intros s Hqs.
  - simpl. rewrite app_nil_r. by destruct s as [? ? ? ? []].
  - cbn [foldl]. rewrite settle_unfold, (Hqs q) by apply list_elem_of_here.
    rewrite IH.
    + simpl. by rewrite <- app_assoc.
    + intros q' Hq'. simpl. by apply Hqs, list_elem_of_further.
Qed.

(** The completion of the compression started by an [addText], when no
    [getText] awaits a queued promise and nothing is chained to the
    [addText]. *)
Lemma complete_gzip now j text key pa qs s :
  Loop.jobs (loop s) !! j = Some (Gzip text key pa) →
  zipQueue s !! key = Some qs →
  (∀ q, q ∈ qs → Loop.awaiting (loop s) !! q = None) →
  Loop.chained (loop s) !! pa = None →
  complete gzip unzip now j s =
  mk (Cache.add now key (VBuffer (gzip text)) (base s)) (loader s)
     (delete key (zipBuffer s)) (delete key (zipQueue s))
     (Loop.mk (delete j (Loop.jobs (loop s))) (Loop.next_job (loop s))
        (Loop.next_promise (loop s))
        (Loop.settled (loop s)
           ++ ((λ q, (q, Value (VBuffer (gzip text)))) <$> qs) ++ [(pa, This)])
        (Loop.awaiting (loop s)) (Loop.chained (loop s)) (Loop.gzip_calls (loop s))).
Proof.
  intros Hj Hq Hqs Hpa. unfold complete. rewrite Hj.
  unfold endZip. cbn [zipQueue with_loop]. rewrite Hq.
  rewrite foldl_settle_unawaited by (intros q Hin; simpl; by apply Hqs).
  rewrite settle_addText_unfold. simpl. rewrite Hpa.
  unfold with_loop, super_add, with_base, Loop.record. simpl.
  by rewrite <- app_assoc.
Qed.

End Queue.

(** ** A compression in flight while other operations run *)

Section Absent.
Import Cache.

Lemma has_set_ne {V} (k k' : string) (v : V) (m : JsMap.t V) :
  k' ≠ k → JsMap.has k (JsMap.set k' v m) = false ↔ JsMap.has k m = false.
Proof.
  intros Hne. rewrite !has_false, set_keys. destruct (decide _); [done|].
  rewrite elem_of_app, list_elem_of_singleton.
  split; [intros H ?; apply H; by left | intros H [?|?]; [done | congruence]].
Qed.

Lemma get_items key silent c : items (get key silent c).2 = items c.
Proof.
  unfold get. destruct (JsMap.has _ _); [by destruct (JsMap.get _ _)|].
  simpl. destruct silent; [done|]. by rewrite events_emit_items.
Qed.

Lemma prune_absent now key c c' :
  prune now c = Some c' →
  JsMap.has key (items c) = false → JsMap.has key (items c') = false.
Proof.
  rewrite !has_false. unfold prune. destruct (_ && _); [|by intros [= <-]].
  destruct (marked now c) as [w|]; [|done]. simpl.
  destruct (decide _); intros [= <-]; [|done].
  rewrite events_emit_items. simpl. rewrite delete_all_keys.
  intros Hk [_ Hin]%list_elem_of_filter. done.
Qed.

(** No operation but [add(key, ...)] brings [key] into the store. *)
Lemma step_absent key o c c' :
  match o with Add _ key' _ => key' ≠ key | _ => True end →
  step o c = Some c' →
  JsMap.has key (items c) = false → JsMap.has key (items c') = false.
Proof.
  destruct o; simpl.
  - intros Hne [= <-]. unfold add. rewrite add_with_items.
    destruct (Is.value value); [|done]. by rewrite has_set_ne.
  - intros _ [= <-]. by rewrite get_items.
  - intros _ [= <-]. rewrite !has_false. simpl. rewrite delete_keys.
    intros Hk [_ Hin]%list_elem_of_filter. done.
  - intros _ [= <-]. done.
  - intros _ [= <-]. unfold updatePolicy. by rewrite schedulePrune_items.
  - intros _. apply prune_absent.
  - intros _. unfold fire. destruct (bool_decide _); [|by intros [= <-]].
    intros Hp. by apply (prune_absent _ _ _ _ Hp).
  - intros _ [= <-]. done.
Qed.

End Absent.

Section Held.
Import CompressCache.
Context (key text : string) (j : nat) (pa : promise).

Ltac held_split H :=
  destruct H as ((Hn & Hj & Hc & Hq & Ha & Hh & Hb) & (As & Aa & Ac & Aj & Aq));
  split; [split; [|split; [|split; [|split; [|split; [|split]]]]]
         |split; [|split; [|split; [|split]]]]; simpl.

Lemma held_record qs p r s :
  p ∉ qs → in_flight key text j pa qs s →
  in_flight key text j pa qs (with_loop (Loop.record p r (loop s)) s).
Proof.
  intros Hp H. held_split H; try done.
  intros q Hin. rewrite fmap_app, elem_of_app. intros [Hs|Hs]; [by eapply As|].
  apply list_elem_of_singleton in Hs. simpl in Hs. by subst.
Qed.

Lemma held_fresh qs s :
  in_flight key text j pa qs s →
  in_flight key text j pa qs (with_loop (Loop.fresh (loop s)).2 s).
Proof. intros H. held_split H; done. Qed.

Lemma held_start qs jb s :
  job_promise jb ∉ qs → in_flight key text j pa qs s →
  in_flight key text j pa qs (with_loop (Loop.start jb (loop s)) s).
Proof.
  intros Hp H. held_split H; try done.
  - lia.
  - rewrite lookup_insert_ne; [done | lia].
  - intros j' jb' [[_ <-]|[_ Hjb]]%lookup_insert_Some; eauto.
Qed.

Lemma held_finish qs j' s :
  j' ≠ j → in_flight key text j pa qs s →
  in_flight key text j pa qs (with_loop (Loop.finish j' (loop s)) s).
Proof.
  intros Hne H. held_split H; try done.
  - by rewrite lookup_delete_ne.
  - intros j0 jb [_ Hjb]%lookup_delete_Some; eauto.
Qed.

Lemma held_await qs q' k p s :
  q' ∉ qs → p ∉ qs → in_flight key text j pa qs s →
  in_flight key text j pa qs (with_loop (Loop.await q' k p (loop s)) s).
Proof.
  intros Hq' Hp H. held_split H; try done.
  - intros q Hin. rewrite lookup_insert_ne; [by apply Ha | by intros ->].
  - intros q0 k0 p0 [[_ [= _ <-]]|[_ Hl]]%lookup_insert_Some; eauto.
Qed.

Lemma held_awaited qs q' s :
  in_flight key text j pa qs s →
  in_flight key text j pa qs (with_loop (Loop.awaited q' (loop s)) s).
Proof.
  intros H. held_split H; try done.
  - intros q Hin. apply lookup_delete_None. right. by apply Ha.
  - intros q0 k0 p0 [_ Hl]%lookup_delete_Some; eauto.
Qed.

Lemma held_chain qs pa' k q' s :
  pa' ≠ pa → q' ∉ qs → in_flight key text j pa qs s →
  in_flight key text j pa qs (with_loop (Loop.chain pa' k q' (loop s)) s).
Proof.
  intros Hne Hq' H. held_split H; try done.
  - by rewrite lookup_insert_ne.
  - intros pa0 k0 q0 [[_ [= _ <-]]|[_ Hl]]%lookup_insert_Some; eauto.
Qed.

Lemma held_unchain qs pa' s :
  in_flight key text j pa qs s →
  in_flight key text j pa qs (with_loop (Loop.unchain pa' (loop s)) s).
Proof.
  intros H. held_split H; try done.
  - apply lookup_delete_None. by right.
  - intros pa0 k0 q0 [_ Hl]%lookup_delete_Some; eauto.
Qed.

Lemma held_with_base qs b s :
  JsMap.has key (Cache.items b) = false → in_flight key text j pa qs s →
  in_flight key text j pa qs (with_base b s).
Proof. intros Hb' H. held_split H; done. Qed.

Lemma held_beginZip qs key' value s :
  key' ≠ key → in_flight key text j pa qs s →
  in_flight key text j pa qs (beginZip key' value s).
Proof.
  intros Hne H. held_split H; try done.
  - by rewrite lookup_insert_ne.
  - by rewrite lookup_insert_ne.
  - intros key0 fns Hne0 [[_ <-]|[_ Hl]]%lookup_insert_Some; [|by eauto].
    intros q Hin. by apply elem_of_nil in Hin.
Qed.

Local Abbreviation np s := (Loop.next_promise (loop s)).

Lemma getText_resume_held qs k p r s :
  p ∉ qs → in_flight key text j pa qs s →
  in_flight key text j pa qs (getText_resume k p r s).
Proof.
  intros Hp H. unfold getText_resume.
  destruct r as [v| |]; [destruct v|..]; try destruct (loader s);
    first [by apply held_record | by apply held_start].
Qed.

Lemma settle_held qs q' r s :
  q' ∉ qs → in_flight key text j pa qs s →
  in_flight key text j pa qs (settle q' r s).
Proof.
  intros Hq' H. rewrite settle_unfold.
  destruct (Loop.awaiting _ !! _) as [[k p]|] eqn:Hl; [|by apply held_record].
  assert (p ∉ qs) as Hp by (destruct H as (_ & _ & Aa & _); eauto).
  apply getText_resume_held; [done|].
  by apply (held_awaited qs q' (with_loop _ s)), held_record.
Qed.

Lemma super_get_held qs k s :
  in_flight key text j pa qs s → in_flight key text j pa qs (super_get k s).2.
Proof.
  intros H. unfold super_get.
  pose proof (get_items k false (base s)) as Hi.
  destruct (Cache.get _ _ _) as [v b]. simpl in *.
  apply held_with_base; [|done]. rewrite Hi. by destruct H as ((_ & _ & _ & _ & _ & Hh & _) & _).
Qed.

Lemma settle_addText_held qs pa' r s :
  pa' ∉ qs → in_flight key text j pa qs s →
  in_flight key text j pa qs (settle_addText pa' r s).
Proof.
  intros Hpa' H. rewrite settle_addText_unfold.
  destruct (Loop.chained _ !! _) as [[k q]|] eqn:Hl; [|by apply held_record].
  assert (q ∉ qs) as Hq by (destruct H as (_ & _ & _ & Ac & _); eauto).
  cbv zeta. set (s1 := with_loop (Loop.unchain pa' _) _).
  assert (in_flight key text j pa qs s1) as H1
    by (by apply (held_unchain qs pa' (with_loop _ s)), held_record).
  destruct r as [v| |]; apply settle_held; try done; by apply super_get_held.
Qed.

Lemma foldl_settle_held qs r fns s :
  (∀ q, q ∈ fns → q ∉ qs) → in_flight key text j pa qs s →
  in_flight key text j pa qs (foldl (λ s fn, settle fn r s) s fns).
Proof.
  revert s. induction fns as [|q fns IH]; intros s Hfns H; [done|].
  simpl. apply IH.
  - intros q' Hq'. by apply Hfns, list_elem_of_further.
  - apply settle_held; [|done]. apply Hfns, list_elem_of_here.
Qed.

Lemma endZip_held qs key' zipped s :
  key' ≠ key → in_flight key text j pa qs s →
  in_flight key text j pa qs (endZip key' zipped s).2.
Proof.
  intros Hne H. unfold endZip. set (s1 := mk _ _ _ _ _).
  assert (in_flight key text j pa qs s1) as H1.
  { pose proof H as H0. held_split H0; try done.
    - by rewrite lookup_delete_ne.
    - by rewrite lookup_delete_ne.
    - intros key0 fns Hne0 [_ Hl]%lookup_delete_Some. eauto. }
  destruct (zipQueue s !! key') as [fns|] eqn:Hl; [|done]. simpl.
  apply foldl_settle_held; [|done].
  destruct H as (_ & _ & _ & _ & _ & Aq). eauto.
Qed.

Lemma addText_held qs key' value s :
  key' ≠ key → np s ∉ qs → in_flight key text j pa qs s →
  in_flight key text j pa qs (addText key' value s).2.
Proof.
  intros Hne Hnp H. unfold addText. cbn [Loop.fresh].
  destruct (Is.empty _); simpl.
  - apply (held_record _ _ _ (with_loop _ s)); [done|]. by apply held_fresh.
  - apply (held_start _ _ (beginZip key' value (with_loop _ s))); [done|].
    by apply held_beginZip, held_fresh.
Qed.

Lemma getZip_held qs key' s :
  key' ≠ key → np s ∉ qs → in_flight key text j pa qs s →
  in_flight key text j pa qs (getZip key' s).2.
Proof.
  intros Hne Hnp H. apply held_fresh in H.
  unfold getZip. cbn [Loop.fresh]. set (s0 := with_loop _ s) in *.
  destruct (contains key' s0).
  - pose proof (super_get_held qs key' s0 H) as H1.
    destruct (super_get key' s0) as [v s1]. simpl in *.
    by apply held_record.
  - destruct (bool_decide _).
    + simpl. held_split H; try done.
      * by rewrite lookup_insert_ne.
      * intros key0 fns Hne0 [[_ <-]|[_ Hl]]%lookup_insert_Some; [|by eauto].
        intros q [Hin|Hin]%elem_of_app.
        -- destruct (zipQueue s !! key') as [fns|] eqn:Hl; [|by apply elem_of_nil in Hin].
           simpl in Hin. by eapply (Aq key').
        -- apply list_elem_of_singleton in Hin. by subst.
    + destruct (loader s0); simpl; first [by apply held_start | by apply held_record].
Qed.

Lemma held_below qs s :
  promises_fresh s → in_flight key text j pa qs s →
  (∀ q, q ∈ qs → (q < np s)%nat) ∧ (pa < np s)%nat.
Proof.
  intros (_ & _ & _ & Fj & Fq) ((_ & Hj & _ & Hq & _) & _). split.
  - intros q Hin. specialize (Fq _ _ Hq). rewrite Forall_forall in Fq. by apply Fq.
  - apply (Fj _ _ Hj).
Qed.

Lemma below_notin (qs : list promise) (n p : nat) :
  (∀ q, q ∈ qs → (q < n)%nat) → (n ≤ p)%nat → p ∉ qs.
Proof. intros Hqs Hle Hin. specialize (Hqs _ Hin). lia. Qed.

Lemma getZip_fst k s : (getZip k s).1 = np s.
Proof.
  unfold getZip. cbn [Loop.fresh]. destruct (contains _ _).
  - by destruct (super_get _ _).
  - destruct (bool_decide _); [done|]. by destruct (loader _).
Qed.

Lemma getText_held qs k s :
  promises_fresh s → in_flight key text j pa qs s →
  in_flight key text j pa qs (getText k s).2.
Proof.
  intros Hf H. destruct (held_below qs s Hf H) as [Hqs _].
  unfold getText. cbn [Loop.fresh]. set (s0 := with_loop _ s).
  assert (in_flight key text j pa qs s0) as H0 by by apply held_fresh.
  assert (np s ∉ qs) as Hp by (eapply below_notin; [exact Hqs | lia]).
  assert (S (np s) ∉ qs) as Hq by (eapply below_notin; [exact Hqs | lia]).
  destruct (zipBuffer s0 !! k) as [staged|] eqn:Hk.
  - simpl. by apply held_record.
  - assert (k ≠ key) as Hne.
    { intros ->. destruct H0 as ((_ & _ & _ & _ & _ & _ & Hb) & _). congruence. }
    pose proof (getZip_held qs k s0 Hne Hq H0) as H1.
    assert ((getZip k s0).1 = S (np s)) as Hq1 by apply getZip_fst.
    destruct (getZip k s0) as [q s1]. simpl in *. subst q.
    destruct (Loop.outcome_of _ (loop s1)) as [r|]; simpl.
    + by apply getText_resume_held.
    + by apply held_await.
Qed.

(** [getZip] of the key itself registers the promise it returns. *)
Lemma getZip_own qs s :
  promises_fresh s → in_flight key text j pa qs s →
  in_flight key text j pa (qs ++ [np s]) (getZip key s).2.
Proof.
  intros Hf H. destruct (held_below qs s Hf H) as [Hqs _].
  destruct Hf as (Fs & Fa & Fc & Fj & Fq).
  destruct H as ((Hn & Hj & Hc & Hq & Ha & Hh & Hb) & (As & Aa & Ac & Aj & Aq)).
  rewrite (getZip_queued key qs s Hh Hq). cbn [snd].
  assert (∀ p, (p < np s)%nat → p ∉ qs → p ∉ qs ++ [np s]) as Hout.
  { intros p Hlt Hp [Hin|Hin]%elem_of_app; [done|].
    apply list_elem_of_singleton in Hin. lia. }
  split; [split; [|split; [|split; [|split; [|split; [|split]]]]]
         |split; [|split; [|split; [|split]]]]; simpl; try done.
  - apply lookup_insert_eq.
  - intros q [Hin|Hin]%elem_of_app; [by apply Ha|].
    apply list_elem_of_singleton in Hin. subst q.
    destruct (Loop.awaiting (loop s) !! np s) as [[k p]|] eqn:Hl; [|done].
    destruct (Fa _ _ _ Hl). lia.
  - intros q [Hin|Hin]%elem_of_app; [by apply As|].
    apply list_elem_of_singleton in Hin. subst q.
    intros ([p r] & Heq & Hel)%list_elem_of_fmap. simpl in Heq.
    rewrite Forall_forall in Fs. specialize (Fs _ Hel). simpl in Fs. lia.
  - intros q0 k p Hl. apply Hout; [by destruct (Fa _ _ _ Hl) | by eapply Aa].
  - intros pa0 k q Hl. apply Hout; [by destruct (Fc _ _ _ Hl) | by eapply Ac].
  - intros j0 jb Hl. apply Hout; [by eapply Fj | by eapply Aj].
  - intros key' fns Hne Hl q Hin. rewrite lookup_insert_ne in Hl by done.
    apply Hout; [|by eapply Aq].
    specialize (Fq _ _ Hl). rewrite Forall_forall in Fq. by apply Fq.
Qed.

Section Codec.
Variable gzip : string → Buffer.
Variable unzip : Buffer → option string.

Lemma complete_held qs now j' s :
  promises_fresh s → in_flight key text j pa qs s →
  leaves_queue key s (Complete now j') →
  in_flight key text j pa qs (complete gzip unzip now j' s).
Proof.
  intros Hf H Hl. simpl in Hl. unfold complete.
  destruct (Loop.jobs (loop s) !! j') as [jb|] eqn:Hjb; [|done].
  destruct (held_below qs s Hf H) as [Hqs Hpa].
  assert (j' ≠ j) as Hne.
  { intros ->. destruct H as ((_ & Hj & _) & _). rewrite Hj in Hjb.
    injection Hjb as <-. by apply Hl. }
  assert (job_promise jb ∉ qs) as Hp by (destruct H as (_ & _ & _ & _ & Aj & _); eauto).
  assert (np s ∉ qs) as Hnp by (eapply below_notin; [exact Hqs | lia]).
  set (s0 := with_loop (Loop.finish j' _) s).
  assert (in_flight key text j pa qs s0) as H0 by by apply held_finish.
  destruct jb as [value key' pa'|bytes p|key' q|key' p]; simpl in Hp.
  - pose proof (endZip_held qs key' (gzip value) s0 Hl H0) as H1.
    destruct (endZip key' (gzip value) s0) as [ok s1]. simpl in H1.
    destruct ok; apply settle_addText_held; try done.
    unfold super_add. apply held_with_base; [|done].
    unfold Cache.add. rewrite add_with_items. simpl.
    apply has_set_ne; [done|]. by destruct H1 as ((_ & _ & _ & _ & _ & Hh & _) & _).
  - destruct (unzip bytes); by apply held_record.
  - destruct (loader s0) as [ld|]; [|done].
    pose proof (addText_held qs key' (ld key') s0 Hl Hnp H0) as H1.
    assert ((addText key' (ld key') s0).1 = np s) as Hpa1
      by (unfold addText; cbn [Loop.fresh]; by destruct (Is.empty _)).
    destruct (addText key' (ld key') s0) as [pa1 s1]. simpl in *. subst pa1.
    destruct (Loop.outcome_of _ (loop s1)).
    + pose proof (super_get_held qs key' s1 H1) as H2.
      destruct (super_get key' s1) as [v s2]. simpl in *.
      by apply settle_held.
    + apply held_chain; [lia | done | done].
  - destruct (loader s0) as [ld|]; [|done].
    pose proof (addText_held qs key' (ld key') s0 Hl Hnp H0) as H1.
    destruct (addText key' (ld key') s0) as [pa1 s1]. simpl in *.
    by apply held_record.
Qed.

(** An operation that leaves the queue of [key] alone leaves the
    compression of the key in flight and its queue as it is. *)
Lemma step_held qs o s s' :
  promises_fresh s → in_flight key text j pa qs s →
  leaves_queue key s o → step gzip unzip o s = Some s' →
  in_flight key text j pa qs s'.
Proof.
  intros Hf H Hl. destruct (held_below qs s Hf H) as [Hqs Hpa].
  assert (np s ∉ qs) as Hnp by (eapply below_notin; [exact Hqs | lia]).
  destruct o as [key' value|key'|key'|now j'|o]; simpl.
  - intros [= <-]. by apply addText_held.
  - intros [= <-]. by apply getZip_held.
  - intros [= <-]. by apply getText_held.
  - intros [= <-]. by apply complete_held.
  - destruct (Cache.step o (base s)) as [b|] eqn:Hb; [|done]. simpl.
    intros [= <-]. apply held_with_base; [|done].
    eapply step_absent; [|exact Hb|by destruct H as ((_ & _ & _ & _ & _ & Hh & _) & _)].
    by destruct o.
Qed.

End Codec.

End Held.

Section QueueInFlight.
Import CompressCache.
Variable gzip : string → Buffer.
Variable unzip : Buffer → option string.

Local Arguments Loop.outcome_of : simpl never.

Lemma find_settled_ne (q : promise) (pr : promise * outcome) l :
  pr.1 ≠ q →
  (λ x : nat * (promise * outcome), x.2.2) <$> list_find (λ pr, pr.1 = q) (pr :: l)
  = (λ x : nat * (promise * outcome), x.2.2) <$> list_find (λ pr, pr.1 = q) l.
Proof.
  intros Hne. cbn [list_find]. rewrite decide_False by done.
  by destruct (list_find _ l) as [[i x]|].
Qed.

(** A promise not settled before is settled by the first entry made for
    it. *)
Lemma outcome_of_queued (q : promise) (r : outcome) (l : Loop.t) settled qs rest :
  Loop.settled l = settled ++ ((λ q, (q, r)) <$> qs) ++ rest →
  q ∉ settled.*1 → q ∈ qs →
  Loop.outcome_of q l = Some r.
Proof.
  unfold Loop.outcome_of. intros -> Hs Hin.
  induction settled as [|pr settled IH].
  - clear Hs. cbn [app]. induction qs as [|q0 qs IH]; [by apply elem_of_nil in Hin|].
    rewrite fmap_cons. cbn [app]. destruct (decide (q0 = q)) as [->|Hne].
    + cbn [list_find]. by rewrite decide_True.
    + rewrite find_settled_ne by done. apply IH.
      apply elem_of_cons in Hin as [->|Hin]; done.
  - cbn [app]. rewrite fmap_cons, not_elem_of_cons in Hs. destruct Hs as [Hne Hs].
    rewrite find_settled_ne by done. by apply IH.
Qed.

(** While the compression is in flight, whatever else runs. *)
Lemma waits_held key text s qs s2 :
  promises_fresh s →
  Is.empty (VString text) = false →
  JsMap.has key (Cache.items (base s)) = false →
  waits gzip unzip key (addText key text s).2 qs s2 →
  promises_fresh s2
  ∧ in_flight key text (Loop.next_job (loop s)) (Loop.next_promise (loop s)) qs s2
  ∧ NoDup qs.
Proof.
  intros Hf He Hhas Hw. induction Hw as [|qs s' Hw IH|qs s' o s'' Hw IH Hl Hstep].
  - split; [by apply addText_below|]. split; [|constructor].
    rewrite addText_nonempty by done. cbn [snd].
    destruct Hf as (_ & _ & Fc & _).
    split; [split; [|split; [|split; [|split; [|split; [|split]]]]]
           |split; [|split; [|split; [|split]]]]; simpl; try done.
    + lia.
    + apply lookup_insert_eq.
    + destruct (Loop.chained (loop s) !! Loop.next_promise (loop s)) as [[k q]|] eqn:Hl;
        [|done].
      destruct (Fc _ _ _ Hl). lia.
    + apply lookup_insert_eq.
    + intros q Hin. by apply elem_of_nil in Hin.
    + apply lookup_insert_eq.
    + intros q Hin. by apply elem_of_nil in Hin.
    + intros q0 k p _. apply not_elem_of_nil.
    + intros pa k q _. apply not_elem_of_nil.
    + intros j jb _. apply not_elem_of_nil.
    + intros key' fns _ _ q _. apply not_elem_of_nil.
  - destruct IH as (Hf' & H' & Hnd).
    destruct (held_below _ _ _ _ qs s' Hf' H') as [Hqs _].
    rewrite getZip_fst.
    split; [by apply getZip_below|]. split; [by apply getZip_own|].
    apply NoDup_app. split; [done|]. split; [|apply NoDup_singleton].
    intros q Hin Hin'. apply list_elem_of_singleton in Hin'.
    specialize (Hqs _ Hin). lia.
  - destruct IH as (Hf' & H' & Hnd).
    split; [by eapply step_fresh|]. split; [|done]. by eapply step_held.
Qed.

End QueueInFlight.

Section QueueClaim.
Import CompressCache.
Variable gzip : string → Buffer.
Variable unzip : Buffer → option string.

Local Arguments Loop.outcome_of : simpl never.

(** C8, amended.  For a key the store does not hold, from every reachable
    state: after [addText(key, text)] of a text that is not empty, and for
    as long as what else runs is no [addText] of the key, no [add] of the
    key to the store and no completion of a compression or of a load for
    the key, every call of [getZip(key)] returns a new pending promise,
    appends it to the queue of the key and starts no operation; when the
    compression completes, the promises of these calls are fulfilled in the
    order of the calls, each with the one buffer [gzip text], then the
    promise of [addText] is fulfilled and the queue is dropped; [gzip] is
    called once for the [addText], with [text], and by none of these calls
    nor by the completion. *)
Theorem getZip_in_flight_queues (s : t) (key text : string) (now : Z)
    (qs : list promise) (s2 : t) :
  promises_fresh s →
  Is.empty (VString text) = false →
  JsMap.has key (Cache.items (base s)) = false →
  waits gzip unzip key (addText key text s).2 qs s2 →
  queues_in_flight gzip unzip now key text s qs s2.
Proof.
  intros Hf He Hhas Hw.
  destruct (waits_held gzip unzip key text s qs s2 Hf He Hhas Hw) as (Hf2 & H2 & Hnd).
  destruct (held_below _ _ _ _ qs s2 Hf2 H2) as [Hqs _].
  pose proof H2 as ((Hn & Hj & Hc & Hq & Ha & Hh & Hb) & (As & _)).
  unfold queues_in_flight. cbv zeta.
  rewrite (getZip_queued key qs s2 Hh Hq).
  rewrite (complete_gzip gzip unzip now _ text key _ qs s2 Hj Hq Ha Hc).
  rewrite addText_nonempty by done. cbn [fst snd]. simpl.
  split; [done|]. split; [done|]. split; [done|]. split.
  { apply Forall_forall. intros q Hin. apply outcome_of_None.
    apply Forall_forall. intros pr Hpr Heq. apply (As q Hin).
    apply list_elem_of_fmap. by exists pr. }
  split. { intros Hin. specialize (Hqs _ Hin). lia. }
  split; [apply lookup_insert_eq|]. split; [done|]. split; [done|]. split; [done|].
  split; [done|]. split; [|split; [apply lookup_delete_eq | done]].
  apply Forall_forall. intros q Hin.
  eapply outcome_of_queued; [reflexivity | by apply As | done].
Qed.

End QueueClaim.

Lemma getZip_in_flight_queues_witness :
  ∃ qs s2,
    waits stored_gzip stored_unzip "k"
      (CompressCache.addText "k" "b" (CompressCache.new None None)).2 qs s2
    ∧ qs = [1; 3; 5]%nat
    ∧ queues_in_flight stored_gzip stored_unzip 7 "k" "b"
        (CompressCache.new None None) qs s2.
Proof.
  assert (∃ qs s2,
            waits stored_gzip stored_unzip "k"
              (CompressCache.addText "k" "b" (CompressCache.new None None)).2 qs s2
            ∧ qs = [1; 3; 5]%nat) as (qs & s2 & Hw & Hqs).
  { eexists _, _. split.
    - apply waits_call.
      eapply (waits_other _ _ _ _ _ _ (CompressCache.Complete 8 1));
        [eapply (waits_other _ _ _ _ _ _ (CompressCache.GetText "k"));
           [apply waits_call;
            eapply (waits_other _ _ _ _ _ _ (CompressCache.AddText "j" "x"));
              [apply waits_call, waits_none | discriminate | reflexivity]
           | exact I | reflexivity]
        | vm_compute; discriminate | reflexivity].
    - vm_compute. reflexivity. }
  exists qs, s2. split; [exact Hw|]. split; [exact Hqs|].
  apply (getZip_in_flight_queues stored_gzip stored_unzip
           (CompressCache.new None None) "k" "b" 7 qs s2 (new_fresh None None));
    [reflexivity | reflexivity | exact Hw].
Defined.

(** C8 as the claim states it fails for a key the store already holds:
    while "b" is being compressed for "k", a [getZip("k")] is fulfilled at
    once with the buffer stored before, compressed from "a", and its
    promise is not in the queue of "k". *)
Lemma getZip_of_stored_key_not_queued :
  promises_fresh holds_k
  ∧ Is.empty (VString "b") = false
  ∧ waits stored_gzip stored_unzip "k" holds_k_compressing_b
      ([] ++ [(CompressCache.getZip "k" holds_k_compressing_b).1])
      (CompressCache.getZip "k" holds_k_compressing_b).2
  ∧ ¬ queues_in_flight stored_gzip stored_unzip 7 "k" "b" holds_k
        ([] ++ [(CompressCache.getZip "k" holds_k_compressing_b).1])
        (CompressCache.getZip "k" holds_k_compressing_b).2
  ∧ CompressCache.zipQueue (CompressCache.getZip "k" holds_k_compressing_b).2 !! "k"
    = Some []
  ∧ CompressCache.Loop.outcome_of (CompressCache.getZip "k" holds_k_compressing_b).1
      (CompressCache.loop (CompressCache.getZip "k" holds_k_compressing_b).2)
    = Some (CompressCache.Value (VBuffer (stored_gzip "a")))
  ∧ stored_gzip "a" ≠ stored_gzip "b".
Proof.
  split; [apply complete_below, addText_below, new_fresh|].
  split; [reflexivity|]. split; [apply waits_call, waits_none|].
  split; [|split; [|split]].
  - intros (_ & Hq & _). vm_compute in Hq. discriminate.
  - vm_compute. reflexivity.
  - vm_compute. reflexivity.
  - vm_compute. discriminate.
Qed.

(** ** Further properties of the cache *)

(** X1. [prune] ends on every reachable cache: the loop of the byte pass
    never runs out of entries before the total is within the limit. *)
Theorem prune_ends (now : Z) (c : Cache.t) :
  Cache.wf c → ∃ c', Cache.prune now c = Some c' ∧ Cache.wf c'.
Proof.
  intros Hwf. destruct (prune_total now c Hwf) as [c' Hc'].
  exists c'. split; [done|]. by eapply wf_prune.
Qed.

Lemma prune_ends_witness :
  ∃ c', Cache.prune 20 (three_adds max_four_bytes) = Some c' ∧ Cache.wf c'.
Proof.
  apply (prune_ends 20 (three_adds max_four_bytes)).
  repeat apply wf_add. apply wf_new.
Defined.

(** X2. [add(key, v)] of a value that is not absent, then [get(key)],
    returns [v] and notifies nothing. *)
Theorem get_after_add (now : Z) (key : string) (v : jsval) (silent : bool) (c : Cache.t) :
  Is.value v = true →
  Cache.get key silent (Cache.add now key v c) = (v, Cache.add now key v c).
Proof.
  intros Hv. unfold Cache.get, Cache.add. rewrite add_with_items, Hv.
  by rewrite has_set, get_set.
Qed.

Lemma get_after_add_witness :
  Cache.get "s" false (Cache.add 9 "s" (VString "abc") (three_adds no_limits))
  = (VString "abc", Cache.add 9 "s" (VString "abc") (three_adds no_limits)).
Proof. apply (get_after_add 9 "s" (VString "abc") false). reflexivity. Defined.

(** X3. After [remove(key)], and after [clear()], [contains(key)] is
    false. *)
Theorem not_contained_after_remove (key : string) (allowEmpty : bool) (c : Cache.t) :
  Cache.contains key allowEmpty (Cache.remove key c) = false
  ∧ Cache.contains key allowEmpty (Cache.clear c) = false.
Proof.
  rewrite !contains_is_has. split; apply has_false.
  - apply delete_not_elem.
  - apply not_elem_of_nil.
Qed.

(** X4. [updatePolicy] replaces the policy by the new one merged over the
    defaults and arms a timer; when that timer fires, [prune] runs under
    the new policy, with no [add] in between. *)
Theorem updatePolicy_schedules_prune (now : Z) (p : CachePolicy) (c : Cache.t) :
  let c' := Cache.updatePolicy p c in
  Cache.policy c' = merge defaultPolicy p
  ∧ Cache.items c' = Cache.items c
  ∧ Cache.next_timer c ∈ Cache.timers c'
  ∧ Cache.fire now (Cache.next_timer c) c'
    = Cache.prune now (Cache.clearTimeout (Cache.next_timer c) c')
  ∧ Cache.policy (Cache.clearTimeout (Cache.next_timer c) c') = merge defaultPolicy p.
Proof.
  intros c'. subst c'. unfold Cache.updatePolicy.
  destruct (schedulePrune_timers (Cache.with_policy (merge defaultPolicy p) c))
    as [Htimers _].
  assert (Cache.next_timer c ∈ Cache.timers
            (Cache.schedulePrune (Cache.with_policy (merge defaultPolicy p) c))) as Hin.
  { rewrite Htimers. unfold rearmed. apply elem_of_app. right. apply list_elem_of_here. }
  split; [by rewrite schedulePrune_policy|].
  split; [by rewrite schedulePrune_items|].
  split; [done|]. split.
  - unfold Cache.fire. by rewrite bool_decide_eq_true_2.
  - change (Cache.policy (Cache.schedulePrune
                            (Cache.with_policy (merge defaultPolicy p) c))
            = merge defaultPolicy p).
    by rewrite schedulePrune_policy.
Qed.

(** ** The staged text while other operations run *)

Section Staging.
Import CompressCache.
Variable gzip : string → Buffer.
Variable unzip : Buffer → option string.

Lemma getText_resume_zipBuffer key p r s :
  zipBuffer (getText_resume key p r s) = zipBuffer s.
Proof.
  unfold getText_resume.
  destruct r as [v| |]; [destruct v|..]; try destruct (loader s); done.
Qed.

Lemma settle_zipBuffer q r s : zipBuffer (settle q r s) = zipBuffer s.
Proof.
  rewrite settle_unfold. destruct (Loop.awaiting _ !! _) as [[key p]|]; [|done].
  by rewrite getText_resume_zipBuffer.
Qed.

Lemma super_get_zipBuffer key s : zipBuffer (super_get key s).2 = zipBuffer s.
Proof. unfold super_get. by destruct (Cache.get _ _ _). Qed.

Lemma settle_addText_zipBuffer pa r s : zipBuffer (settle_addText pa r s) = zipBuffer s.
Proof.
  rewrite settle_addText_unfold.
  destruct (Loop.chained _ !! _) as [[key q]|]; [|done]. cbv zeta.
  destruct r; rewrite settle_zipBuffer, ?super_get_zipBuffer; done.
Qed.

Lemma foldl_settle_zipBuffer r fns s :
  zipBuffer (foldl (λ s fn, settle fn r s) s fns) = zipBuffer s.
Proof.
  revert s. induction fns as [|q fns IH]; intros s; [done|].
  simpl. by rewrite IH, settle_zipBuffer.
Qed.

Lemma endZip_zipBuffer key zipped s :
  zipBuffer (endZip key zipped s).2 = delete key (zipBuffer s).
Proof.
  unfold endZip. destruct (zipQueue s !! key); [|done].
  simpl. by rewrite foldl_settle_zipBuffer.
Qed.

Lemma addText_zipBuffer key value s :
  zipBuffer (addText key value s).2
  = if Is.empty (VString value) then zipBuffer s else <[key := value]> (zipBuffer s).
Proof.
  unfold addText. cbn [Loop.fresh]. by destruct (Is.empty (VString value)).
Qed.

Lemma addText_other key key' value s :
  key' ≠ key → zipBuffer (addText key' value s).2 !! key = zipBuffer s !! key.
Proof.
  intros Hne. rewrite addText_zipBuffer.
  destruct (Is.empty (VString value)); [done|]. by rewrite lookup_insert_ne.
Qed.

Lemma getZip_zipBuffer key s : zipBuffer (getZip key s).2 = zipBuffer s.
Proof.
  unfold getZip. cbn [Loop.fresh]. set (s0 := with_loop _ s).
  destruct (contains key s0).
  - pose proof (super_get_zipBuffer key s0) as Hg.
    destruct (super_get key s0) as [v s1]. exact Hg.
  - destruct (bool_decide _); [done|]. by destruct (loader s0).
Qed.

Lemma getText_zipBuffer key s : zipBuffer (getText key s).2 = zipBuffer s.
Proof.
  unfold getText. simpl. destruct (zipBuffer s !! key); [done|].
  pose proof (getZip_zipBuffer key (with_loop (Loop.fresh (loop s)).2 s)) as Hz.
  simpl in Hz. destruct (getZip key _) as [q s1]. simpl in Hz.
  destruct (Loop.outcome_of q (loop s1)); simpl; [|done].
  by rewrite getText_resume_zipBuffer.
Qed.

(** An operation that leaves the staging of [key] alone leaves the staged
    text of [key] as it is. *)
Lemma step_staged key o s s' :
  leaves_staging key s o → step gzip unzip o s = Some s' →
  zipBuffer s' !! key = zipBuffer s !! key.
Proof.
  destruct o as [key' value|key'|key'|now j|o]; simpl.
  - intros Hne [= <-]. by apply addText_other.
  - intros _ [= <-]. by rewrite getZip_zipBuffer.
  - intros _ [= <-]. by rewrite getText_zipBuffer.
  - intros Hj [= <-]. unfold complete.
    destruct (Loop.jobs (loop s) !! j) as [jb|]; [|done].
    destruct jb as [value key' pa|bytes p|key' q|key' p].
    + pose proof (endZip_zipBuffer key' (gzip value)
                    (with_loop (Loop.finish j (loop s)) s)) as Hz.
      destruct (endZip key' (gzip value) _) as [ok s1]. simpl in Hz.
      destruct ok; rewrite settle_addText_zipBuffer; simpl; rewrite Hz;
        by rewrite lookup_delete_ne.
    + by destruct (unzip bytes).
    + simpl. destruct (loader s) as [ld|]; [|done].
      pose proof (addText_other key key' (ld key')
                    (with_loop (Loop.finish j (loop s)) s) Hj) as Hz.
      destruct (addText key' (ld key') _) as [pa s1]. simpl in Hz.
      destruct (Loop.outcome_of pa (loop s1)); [|done].
      pose proof (super_get_zipBuffer key' s1) as Hg.
      destruct (super_get key' s1) as [v s2]. simpl in Hg.
      by rewrite settle_zipBuffer, Hg.
    + simpl. destruct (loader s) as [ld|]; [|done].
      pose proof (addText_other key key' (ld key')
                    (with_loop (Loop.finish j (loop s)) s) Hj) as Hz.
      by destruct (addText key' (ld key') _) as [pa s1].
  - intros _. destruct (Cache.step o (base s)); [|done]. by intros [= <-].
Qed.

Lemma run_staged key ops s s' :
  quiet gzip unzip key ops s → run gzip unzip ops s = Some s' →
  zipBuffer s' !! key = zipBuffer s !! key.
Proof.
  revert s. induction ops as [|o ops IH]; intros s; simpl.
  - by intros _ [= <-].
  - intros [Ho Hq]. destruct (step gzip unzip o s) as [s1|] eqn:Hs; [|done]. simpl.
    intros Hrun. rewrite (IH s1 Hq Hrun). by eapply step_staged.
Qed.

(** X5. After [addText(key, text)] of a text that is not empty, for as long
    as the operations that run (calls of any method, timers, completions)
    are no [addText] of the key and complete neither a compression nor a
    load for the key, [getText(key)] is fulfilled at once with [text]. *)
Theorem getText_while_in_flight (s s' : t) (key text : string) (ops : list op) :
  promises_fresh s →
  Is.empty (VString text) = false →
  quiet gzip unzip key ops (addText key text s).2 →
  run gzip unzip ops (addText key text s).2 = Some s' →
  Loop.outcome_of (getText key s').1 (loop (getText key s').2)
  = Some (Value (VString text)).
Proof.
  intros Hfresh He Hquiet Hrun.
  assert (promises_fresh s') as Hfresh'.
  { eapply run_fresh; [|exact Hrun]. by apply addText_below. }
  assert (zipBuffer s' !! key = Some text) as Hstaged.
  { rewrite (run_staged key ops _ s' Hquiet Hrun), addText_zipBuffer, He.
    apply lookup_insert_eq. }
  rewrite (getText_staged key text s' Hstaged). simpl.
  apply outcome_of_last. simpl.
  destruct Hfresh' as (Hs & _). eapply fresh_settled_ne; [|exact Hs]. lia.
Qed.

End Staging.

Lemma getText_while_in_flight_witness :
  ∃ s',
    CompressCache.run stored_gzip stored_unzip
      [CompressCache.GetZip "k"; CompressCache.AddText "j" "other";
       CompressCache.Complete 9 1; CompressCache.GetText "j";
       CompressCache.Base (Cache.Prune 20)]
      (CompressCache.addText "k" "hello" (CompressCache.new None None)).2 = Some s'
    ∧ CompressCache.Loop.outcome_of (CompressCache.getText "k" s').1
        (CompressCache.loop (CompressCache.getText "k" s').2)
      = Some (CompressCache.Value (VString "hello")).
Proof.
  match goal with
  | |- ∃ s', CompressCache.run _ _ ?ops ?s1 = _ ∧ _ =>
      assert (∃ s', CompressCache.run stored_gzip stored_unzip ops s1 = Some s')
        as [s' Hrun] by (eexists; vm_compute; reflexivity);
      exists s'; split; [exact Hrun|];
      apply (getText_while_in_flight stored_gzip stored_unzip
               (CompressCache.new None None) s' "k" "hello" ops
               (new_fresh None None) eq_refl);
        [|exact Hrun]
  end.
  vm_compute. repeat split; discriminate.
Defined.

(** ** Two compressions of one key in flight *)

Section Overlap.
Import CompressCache.
Variable gzip : string → Buffer.
Variable unzip : Buffer → option string.

Local Arguments Loop.outcome_of : simpl never.

(** The completion of a compression whose key has no queue any more:
    [endZip] throws after its two deletions, [super.add] is not reached and
    the [addText] is rejected. *)
Lemma complete_gzip_no_queue now j text key pa s :
  Loop.jobs (loop s) !! j = Some (Gzip text key pa) →
  zipQueue s !! key = None →
  Loop.chained (loop s) !! pa = None →
  complete gzip unzip now j s =
  mk (base s) (loader s) (delete key (zipBuffer s)) (delete key (zipQueue s))
     (Loop.record pa Rejected (Loop.finish j (loop s))).
Proof.
  intros Hj Hq Hpa. unfold complete. rewrite Hj.
  unfold endZip. cbn [zipQueue with_loop]. rewrite Hq.
  rewrite settle_addText_unfold. cbn [loop with_loop Loop.chained Loop.finish].
  by rewrite Hpa.
Qed.

(** X6. A second [addText] of a key, made while the compression started by
    the first is in flight, replaces the queue of the key, and of the two
    compressions only the one that completes first is stored.  The promise
    a [getZip] registered before the second [addText] is settled by
    neither completion, in either order.  When the first compression
    completes first, the first [addText] is fulfilled, the second is
    rejected ([endZip] finds no queue and throws before [super.add]) and
    the store keeps the buffer of the first text; when the second
    completes first, the second [addText] is fulfilled, the first is
    rejected and the store keeps the buffer of the second text. *)
Theorem second_addText_replaces_queue (s : t) (key text text' : string) (now now' : Z) :
  promises_fresh s →
  Is.empty (VString text) = false →
  Is.empty (VString text') = false →
  JsMap.has key (Cache.items (base s)) = false →
  let j := Loop.next_job (loop s) in
  let pa := (addText key text s).1 in
  let s1 := (addText key text s).2 in
  let q := (getZip key s1).1 in
  let s2 := (getZip key s1).2 in
  let pa' := (addText key text' s2).1 in
  let s3 := (addText key text' s2).2 in
  let first_then_second :=
    complete gzip unzip now' (S j) (complete gzip unzip now j s3) in
  let second_then_first :=
    complete gzip unzip now' j (complete gzip unzip now (S j) s3) in
  zipQueue s2 !! key = Some [q]
  ∧ zipQueue s3 !! key = Some []
  ∧ Loop.jobs (loop s3) !! j = Some (Gzip text key pa)
  ∧ Loop.jobs (loop s3) !! S j = Some (Gzip text' key pa')
  ∧ (Loop.jobs (loop first_then_second) !! j = None
     ∧ Loop.jobs (loop first_then_second) !! S j = None
     ∧ Loop.outcome_of q (loop first_then_second) = None
     ∧ Loop.outcome_of pa (loop first_then_second) = Some This
     ∧ Loop.outcome_of pa' (loop first_then_second) = Some Rejected
     ∧ zipBuffer first_then_second !! key = None
     ∧ CacheItem.value <$> JsMap.get key (Cache.items (base first_then_second))
       = Some (VBuffer (gzip text)))
  ∧ (Loop.jobs (loop second_then_first) !! j = None
     ∧ Loop.jobs (loop second_then_first) !! S j = None
     ∧ Loop.outcome_of q (loop second_then_first) = None
     ∧ Loop.outcome_of pa (loop second_then_first) = Some Rejected
     ∧ Loop.outcome_of pa' (loop second_then_first) = Some This
     ∧ zipBuffer second_then_first !! key = None
     ∧ CacheItem.value <$> JsMap.get key (Cache.items (base second_then_first))
       = Some (VBuffer (gzip text'))).
Proof.
  intros Hf He He' Hhas. cbv zeta.
  rewrite (addText_nonempty key text s He). cbn [fst snd].
  set (s1 := mk _ _ _ _ _).
  rewrite (getZip_queued key [] s1 Hhas) by apply lookup_insert_eq.
  cbn [fst snd app]. subst s1. cbn [loop zipQueue base zipBuffer loader Loop.fresh snd
    Loop.next_promise Loop.jobs Loop.next_job Loop.settled Loop.awaiting Loop.chained
    Loop.gzip_calls].
  rewrite insert_insert_eq.
  set (s2 := mk _ _ _ _ _).
  rewrite (addText_nonempty key text' s2 He'). cbn [fst snd]. subst s2.
  cbn [loop zipQueue base zipBuffer loader Loop.next_promise Loop.jobs Loop.next_job
    Loop.settled Loop.awaiting Loop.chained Loop.gzip_calls].
  rewrite !insert_insert_eq.
  set (s3 := mk _ _ _ _ _).
  destruct Hf as (Fs & Fa & Fc & Fj & Fq).
  assert (∀ p, (Loop.next_promise (loop s) ≤ p)%nat →
               Loop.chained (loop s) !! p = None) as Hchained.
  { intros p Hp. destruct (Loop.chained (loop s) !! p) as [[k q0]|] eqn:Hl; [|done].
    destruct (Fc _ _ _ Hl). lia. }
  assert (∀ p, (Loop.next_promise (loop s) ≤ p)%nat →
               Forall (λ pr, pr.1 ≠ p) (Loop.settled (loop s))) as Hsettled.
  { intros p Hp. eapply fresh_settled_ne; [exact Hp | exact Fs]. }
  rewrite (complete_gzip gzip unzip now _ text key (Loop.next_promise (loop s)) [] s3);
    [|subst s3; simpl; rewrite lookup_insert_ne by lia; apply lookup_insert_eq
     |apply lookup_insert_eq
     |intros q0 Hin; by apply elem_of_nil in Hin
     |apply Hchained; lia].
  rewrite (complete_gzip gzip unzip now _ text' key
             (S (S (Loop.next_promise (loop s)))) [] s3);
    [|subst s3; simpl; apply lookup_insert_eq
     |apply lookup_insert_eq
     |intros q0 Hin; by apply elem_of_nil in Hin
     |apply Hchained; lia].
  rewrite (complete_gzip_no_queue now' (S (Loop.next_job (loop s))) text' key
             (S (S (Loop.next_promise (loop s)))));
    [|subst s3; simpl; rewrite lookup_delete_ne by lia; apply lookup_insert_eq
     |apply lookup_delete_eq
     |apply Hchained; lia].
  rewrite (complete_gzip_no_queue now' (Loop.next_job (loop s)) text key
             (Loop.next_promise (loop s)));
    [|subst s3; simpl; rewrite lookup_delete_ne by lia;
      rewrite lookup_insert_ne by lia; apply lookup_insert_eq
     |apply lookup_delete_eq
     |apply Hchained; lia].
  subst s3. cbn -[Cache.add Loop.outcome_of].
  split; [apply lookup_insert_eq|]. split; [apply lookup_insert_eq|].
  split; [rewrite lookup_insert_ne by lia; apply lookup_insert_eq|].
  split; [apply lookup_insert_eq|].
  split; [split; [|split; [|split; [|split; [|split; [|split]]]]]
         |split; [|split; [|split; [|split; [|split; [|split]]]]]].
  - rewrite lookup_delete_ne by lia. apply lookup_delete_eq.
  - apply lookup_delete_eq.
  - apply outcome_of_None. simpl. rewrite !Forall_app. split; [split|].
    + apply Hsettled. lia.
    + constructor; [simpl; lia | constructor].
    + constructor; [simpl; lia | constructor].
  - apply (outcome_of_queued _ This _ (Loop.settled (loop s))
             [Loop.next_promise (loop s)]
             [(S (S (Loop.next_promise (loop s))), Rejected)]).
    + simpl. by rewrite <- app_assoc.
    + intros Hin. apply list_elem_of_fmap in Hin as (pr & Hpr & Hin).
      apply (proj1 (Forall_forall _ _) (Hsettled _ (le_n _)) pr Hin).
      symmetry. exact Hpr.
    + apply list_elem_of_singleton. reflexivity.
  - apply outcome_of_last. simpl. rewrite Forall_app. split.
    + apply Hsettled. lia.
    + constructor; [simpl; lia | constructor].
  - rewrite lookup_delete_eq. reflexivity.
  - unfold Cache.add. rewrite add_with_items. cbn [Is.value]. by rewrite get_set.
  - apply lookup_delete_eq.
  - rewrite lookup_delete_ne by lia. apply lookup_delete_eq.
  - apply outcome_of_None. simpl. rewrite !Forall_app. split; [split|].
    + apply Hsettled. lia.
    + constructor; [simpl; lia | constructor].
    + constructor; [simpl; lia | constructor].
  - apply outcome_of_last. simpl. rewrite Forall_app. split.
    + apply Hsettled. lia.
    + constructor; [simpl; lia | constructor].
  - apply (outcome_of_queued _ This _ (Loop.settled (loop s))
             [S (S (Loop.next_promise (loop s)))]
             [(Loop.next_promise (loop s), Rejected)]).
    + simpl. by rewrite <- app_assoc.
    + intros Hin. apply list_elem_of_fmap in Hin as (pr & Hpr & Hin).
      assert (Loop.next_promise (loop s) ≤ S (S (Loop.next_promise (loop s))))%nat
        as Hle by lia.
      apply (proj1 (Forall_forall _ _) (Hsettled _ Hle) pr Hin).
      symmetry. exact Hpr.
    + apply list_elem_of_singleton. reflexivity.
  - rewrite lookup_delete_eq. reflexivity.
  - unfold Cache.add. rewrite add_with_items. cbn [Is.value]. by rewrite get_set.
Qed.

End Overlap.

Lemma second_addText_replaces_queue_witness :
  let s := CompressCache.new None None in
  let j := CompressCache.Loop.next_job (CompressCache.loop s) in
  let pa := (CompressCache.addText "k" "b" s).1 in
  let s1 := (CompressCache.addText "k" "b" s).2 in
  let q := (CompressCache.getZip "k" s1).1 in
  let s2 := (CompressCache.getZip "k" s1).2 in
  let pa' := (CompressCache.addText "k" "c" s2).1 in
  let s3 := (CompressCache.addText "k" "c" s2).2 in
  let first_then_second :=
    CompressCache.complete stored_gzip stored_unzip 8 (S j)
      (CompressCache.complete stored_gzip stored_unzip 7 j s3) in
  let second_then_first :=
    CompressCache.complete stored_gzip stored_unzip 8 j
      (CompressCache.complete stored_gzip stored_unzip 7 (S j) s3) in
  CompressCache.zipQueue s2 !! "k" = Some [q]
  ∧ CompressCache.zipQueue s3 !! "k" = Some []
  ∧ CompressCache.Loop.jobs (CompressCache.loop s3) !! j
    = Some (CompressCache.Gzip "b" "k" pa)
  ∧ CompressCache.Loop.jobs (CompressCache.loop s3) !! S j
    = Some (CompressCache.Gzip "c" "k" pa')
  ∧ (CompressCache.Loop.jobs (CompressCache.loop first_then_second) !! j = None
     ∧ CompressCache.Loop.jobs (CompressCache.loop first_then_second) !! S j = None
     ∧ CompressCache.Loop.outcome_of q (CompressCache.loop first_then_second) = None
     ∧ CompressCache.Loop.outcome_of pa (CompressCache.loop first_then_second)
       = Some CompressCache.This
     ∧ CompressCache.Loop.outcome_of pa' (CompressCache.loop first_then_second)
       = Some CompressCache.Rejected
     ∧ CompressCache.zipBuffer first_then_second !! "k" = None
     ∧ CacheItem.value
         <$> JsMap.get "k" (Cache.items (CompressCache.base first_then_second))
       = Some (VBuffer (stored_gzip "b")))
  ∧ (CompressCache.Loop.jobs (CompressCache.loop second_then_first) !! j = None
     ∧ CompressCache.Loop.jobs (CompressCache.loop second_then_first) !! S j = None
     ∧ CompressCache.Loop.outcome_of q (CompressCache.loop second_then_first) = None
     ∧ CompressCache.Loop.outcome_of pa (CompressCache.loop second_then_first)
       = Some CompressCache.Rejected
     ∧ CompressCache.Loop.outcome_of pa' (CompressCache.loop second_then_first)
       = Some CompressCache.This
     ∧ CompressCache.zipBuffer second_then_first !! "k" = None
     ∧ CacheItem.value
         <$> JsMap.get "k" (Cache.items (CompressCache.base second_then_first))
       = Some (VBuffer (stored_gzip "c"))).
Proof.
  apply (second_addText_replaces_queue stored_gzip stored_unzip
           (CompressCache.new None None) "k" "b" "c" 7 8 (new_fresh None None));
    reflexivity.
Defined.

(** ** The round trip while other operations run (claim C7) *)

Section Resumes.
Import CompressCache.

Lemma resumes_refl s : resumes s s.
Proof. by repeat split. Qed.

Lemma resumes_trans s1 s2 s3 : resumes s1 s2 → resumes s2 s3 → resumes s1 s3.
Proof.
  intros (Hi & Hb & Hq & Hn & Hj) (Hi' & Hb' & Hq' & Hn' & Hj').
  split; [congruence|]. split; [congruence|]. split; [congruence|].
  split; [lia|]. intros j Hlt. rewrite Hj' by lia. by apply Hj.
Qed.

Lemma resumes_start jb s : resumes s (with_loop (Loop.start jb (loop s)) s).
Proof.
  repeat split; simpl; [lia|]. intros j Hlt. apply lookup_insert_ne. lia.
Qed.

Lemma getText_resume_resumes key p r s : resumes s (getText_resume key p r s).
Proof.
  unfold getText_resume.
  destruct r as [v| |]; [destruct v|..]; try destruct (loader s);
    first [apply resumes_start | by repeat split].
Qed.

Lemma settle_resumes q r s : resumes s (settle q r s).
Proof.
  rewrite settle_unfold. destruct (Loop.awaiting _ !! _) as [[key p]|].
  - eapply resumes_trans; [|apply getText_resume_resumes]. by repeat split.
  - by repeat split.
Qed.

Lemma super_get_resumes key s : resumes s (super_get key s).2.
Proof.
  unfold super_get. pose proof (get_items key false (base s)) as Hi.
  destruct (Cache.get key false (base s)) as [v b]. simpl in *.
  by repeat split.
Qed.

Lemma settle_addText_resumes pa r s : resumes s (settle_addText pa r s).
Proof.
  rewrite settle_addText_unfold.
  destruct (Loop.chained _ !! _) as [[key q]|]; [|by repeat split]. cbv zeta.
  destruct r.
  - eapply resumes_trans; [|apply settle_resumes].
    eapply resumes_trans; [|apply super_get_resumes]. by repeat split.
  - eapply resumes_trans; [|apply settle_resumes].
    eapply resumes_trans; [|apply super_get_resumes]. by repeat split.
  - eapply resumes_trans; [|apply settle_resumes]. by repeat split.
Qed.

Lemma foldl_settle_resumes r fns s :
  resumes s (foldl (λ s fn, settle fn r s) s fns).
Proof.
  revert s. induction fns as [|q fns IH]; intros s; [apply resumes_refl|].
  simpl. eapply resumes_trans; [apply settle_resumes | apply IH].
Qed.

End Resumes.

Section Compressing.
Import CompressCache.
Variable gzip : string → Buffer.
Variable unzip : Buffer → option string.
Context (key text : string) (j : nat) (pa : promise).

Lemma compressing_resumes s s' :
  resumes s s' → compressing key text j pa s → compressing key text j pa s'.
Proof.
  intros (_ & Hb & Hq & Hn & Hj) (Hlt & Hjob & Hqueue & Hstaged).
  split; [lia|]. split; [by rewrite Hj|]. split; [by rewrite Hq | by rewrite Hb].
Qed.

Lemma compressing_loop l s :
  Loop.jobs l = Loop.jobs (loop s) → Loop.next_job l = Loop.next_job (loop s) →
  compressing key text j pa s → compressing key text j pa (with_loop l s).
Proof.
  intros Hj Hn (Hlt & Hjob & Hqueue & Hstaged).
  split; [simpl; lia|]. split; [simpl; by rewrite Hj|]. done.
Qed.

Lemma compressing_with_base b s :
  compressing key text j pa s → compressing key text j pa (with_base b s).
Proof. by intros (Hlt & Hjob & Hqueue & Hstaged). Qed.

Lemma addText_compressing key' value s :
  key' ≠ key → compressing key text j pa s →
  compressing key text j pa (addText key' value s).2.
Proof.
  intros Hne (Hlt & Hjob & Hqueue & Hstaged). unfold addText. cbn [Loop.fresh].
  destruct (Is.empty (VString value)); [done|].
  split; [simpl; lia|]. split; [simpl; rewrite lookup_insert_ne; [done | lia]|].
  split; simpl; by rewrite lookup_insert_ne.
Qed.

Lemma getZip_compressing key' s :
  compressing key text j pa s → compressing key text j pa (getZip key' s).2.
Proof.
  intros H. unfold getZip. cbn [Loop.fresh]. set (s0 := with_loop _ s).
  assert (compressing key text j pa s0) as H0 by by apply compressing_loop.
  destruct (contains key' s0).
  - pose proof (super_get_resumes key' s0) as Hr.
    destruct (super_get key' s0) as [v s1]. simpl in Hr. simpl.
    apply compressing_loop; [done | done |]. by eapply compressing_resumes.
  - destruct (bool_decide _).
    + destruct H0 as (Hlt & Hjob & Hqueue & Hstaged).
      split; [done|]. split; [done|]. split; [|done]. simpl.
      destruct (decide (key' = key)) as [->|Hne].
      * rewrite lookup_insert_eq. by eexists.
      * by rewrite lookup_insert_ne.
    + destruct (loader s0); simpl.
      * eapply compressing_resumes; [apply resumes_start | done].
      * by apply compressing_loop.
Qed.

Lemma getText_compressing key' s :
  compressing key text j pa s → compressing key text j pa (getText key' s).2.
Proof.
  intros H. unfold getText. cbn [Loop.fresh]. set (s0 := with_loop _ s).
  assert (compressing key text j pa s0) as H0 by by apply compressing_loop.
  destruct (zipBuffer s0 !! key'); [by apply compressing_loop|].
  pose proof (getZip_compressing key' s0 H0) as Hz.
  destruct (getZip key' s0) as [q s1]. simpl in Hz.
  destruct (Loop.outcome_of q (loop s1)); simpl.
  - eapply compressing_resumes; [apply getText_resume_resumes | done].
  - by apply compressing_loop.
Qed.

Lemma complete_compressing now j' s :
  leaves_staging key s (Complete now j') → compressing key text j pa s →
  compressing key text j pa (complete gzip unzip now j' s).
Proof.
  intros Hleave H. unfold complete. simpl in Hleave.
  destruct (Loop.jobs (loop s) !! j') as [jb|] eqn:Hjb; [|done].
  assert (j' ≠ j) as Hj'.
  { intros ->. destruct H as (_ & Hjob & _). rewrite Hjob in Hjb.
    injection Hjb as <-. done. }
  set (s0 := with_loop (Loop.finish j' (loop s)) s).
  assert (compressing key text j pa s0) as H0.
  { destruct H as (Hlt & Hjob & Hqueue & Hstaged).
    split; [done|]. split; [simpl; by rewrite lookup_delete_ne|]. done. }
  destruct jb as [value key' pa'|bytes p|key' q|key' p].
  - unfold endZip. set (s1 := mk _ _ _ _ _).
    assert (compressing key text j pa s1) as H1.
    { destruct H0 as (Hlt & Hjob & Hqueue & Hstaged).
      split; [done|]. split; [done|]. split; simpl; by rewrite lookup_delete_ne. }
    destruct (zipQueue s0 !! key') as [fns|].
    + eapply compressing_resumes; [apply settle_addText_resumes|].
      unfold super_add. apply compressing_with_base.
      eapply compressing_resumes; [apply foldl_settle_resumes | exact H1].
    + eapply compressing_resumes; [apply settle_addText_resumes | exact H1].
  - destruct (unzip bytes); by apply compressing_loop.
  - destruct (loader s0) as [ld|]; [|exact H0].
    pose proof (addText_compressing key' (ld key') s0 Hleave H0) as Ha.
    destruct (addText key' (ld key') s0) as [pa' s1]. simpl in Ha.
    destruct (Loop.outcome_of pa' (loop s1)).
    + pose proof (super_get_resumes key' s1) as Hr.
      destruct (super_get key' s1) as [v s2]. simpl in Hr.
      eapply compressing_resumes; [apply settle_resumes|].
      by eapply compressing_resumes.
    + by apply compressing_loop.
  - destruct (loader s0) as [ld|]; [|exact H0].
    pose proof (addText_compressing key' (ld key') s0 Hleave H0) as Ha.
    destruct (addText key' (ld key') s0) as [pa' s1]. simpl in Ha.
    by apply compressing_loop.
Qed.

Lemma step_compressing o s s' :
  leaves_staging key s o → step gzip unzip o s = Some s' →
  compressing key text j pa s → compressing key text j pa s'.
Proof.
  destruct o as [key' value|key'|key'|now j'|o]; simpl.
  - intros Hne [= <-]. by apply addText_compressing.
  - intros _ [= <-]. apply getZip_compressing.
  - intros _ [= <-]. apply getText_compressing.
  - intros Hj [= <-]. by apply complete_compressing.
  - intros _. destruct (Cache.step o (base s)); [|done]. by intros [= <-].
Qed.

Lemma run_compressing ops s s' :
  quiet gzip unzip key ops s → run gzip unzip ops s = Some s' →
  compressing key text j pa s → compressing key text j pa s'.
Proof.
  revert s. induction ops as [|o ops IH]; intros s; simpl.
  - by intros _ [= <-].
  - intros [Ho Hq]. destruct (step gzip unzip o s) as [s1|] eqn:Hs; [|done]. simpl.
    intros Hrun H. apply (IH s1 Hq Hrun). by eapply step_compressing.
Qed.

(** When the compression completes, the store holds the compressed buffer
    under the key, nothing is staged for the key and the operation is
    over. *)
Lemma complete_compressed now s :
  compressing key text j pa s →
  (∃ size, JsMap.get key (Cache.items (base (complete gzip unzip now j s)))
           = Some (CacheItem.mk key now (VBuffer (gzip text)) size))
  ∧ zipBuffer (complete gzip unzip now j s) !! key = None
  ∧ Loop.jobs (loop (complete gzip unzip now j s)) !! j = None.
Proof.
  intros (Hlt & Hjob & [fns Hqueue] & Hstaged). unfold complete. rewrite Hjob.
  unfold endZip. cbn [zipQueue with_loop]. rewrite Hqueue.
  set (s1 := mk _ _ _ _ _).
  pose proof (foldl_settle_resumes (Value (VBuffer (gzip text))) fns s1)
    as (Hi2 & Hb2 & _ & Hn2 & Hj2).
  set (s2 := foldl _ s1 fns) in *.
  pose proof (settle_addText_resumes pa This
                (super_add now key (VBuffer (gzip text)) s2))
    as (Hi3 & Hb3 & _ & Hn3 & Hj3).
  split; [|split].
  - rewrite Hi3. unfold super_add. cbn [base with_base].
    unfold Cache.add. rewrite add_with_items. cbn [Is.value].
    eexists. apply get_set.
  - rewrite Hb3. unfold super_add. cbn [zipBuffer with_base]. rewrite Hb2.
    subst s1. simpl. apply lookup_delete_eq.
  - rewrite Hj3 by (unfold super_add; simpl; subst s1; simpl in *; lia).
    unfold super_add. cbn [loop with_base].
    rewrite Hj2 by (subst s1; simpl; lia).
    subst s1. simpl. apply lookup_delete_eq.
Qed.

End Compressing.

Section RoundTripClaim.
Import CompressCache.
Local Arguments Loop.outcome_of : simpl never.
Variable gzip : string → Buffer.
Variable unzip : Buffer → option string.
Hypothesis unzip_gzip : ∀ text, unzip (gzip text) = Some text.

(** C7, amended.  With [unzip] a left inverse of [gzip], from every
    reachable state: after [addText(key, text)] of a text that is not
    empty, and whatever else runs in between (calls of any method, timers,
    completions) as long as it is no [addText] of the key and completes no
    other compression and no load for the key, the compression is still in
    flight and [getText(key)] is fulfilled at once with the staged text.
    When the compression then completes, the store holds the compressed
    buffer under [key] and nothing is staged; from there on, and whatever
    runs in between, as long as the store still holds that buffer under
    [key] and the key is not staged again, [getText(key)] starts [unzip] on
    the buffer, its promise is pending, and it is fulfilled with [text]
    when [unzip] completes. *)
Theorem addText_getText_roundtrip (s s' : t) (key text : string) (ops : list op)
    (now : Z) :
  promises_fresh s →
  Is.empty (VString text) = false →
  quiet gzip unzip key ops (addText key text s).2 →
  run gzip unzip ops (addText key text s).2 = Some s' →
  round_trip gzip unzip now key text s s'.
Proof.
  intros Hfresh He Hquiet Hrun.
  pose proof (addText_below key text s Hfresh) as (Hpa & Hfresh1 & Hn1).
  assert (compressing key text (Loop.next_job (loop s)) (addText key text s).1
            (addText key text s).2) as Hc1.
  { rewrite addText_nonempty by done. unfold compressing. simpl.
    split; [lia|]. split; [apply lookup_insert_eq|].
    split; [rewrite lookup_insert_eq; by eexists | apply lookup_insert_eq]. }
  pose proof (run_compressing gzip unzip key text _ _ ops _ s' Hquiet Hrun Hc1) as Hc.
  assert (promises_fresh s') as Hfresh' by (eapply run_fresh; [exact Hfresh1 | exact Hrun]).
  unfold round_trip. cbv zeta.
  split; [apply Hc|]. split.
  { destruct Hc as (_ & _ & _ & Hstaged).
    rewrite (getText_staged key text s' Hstaged). simpl.
    apply outcome_of_last. simpl.
    destruct Hfresh' as (Hs & _). eapply fresh_settled_ne; [|exact Hs]. lia. }
  destruct (complete_compressed gzip unzip key text _ _ now s' Hc)
    as ([size Hget] & Hb & Hj).
  set (s2 := complete gzip unzip now (Loop.next_job (loop s)) s') in *.
  assert (promises_fresh s2) as Hfresh2 by by apply complete_below.
  split; [|split; [exact Hb | split; [exact Hj|]]].
  { unfold Cache.get. rewrite Hget.
    destruct (JsMap.has key (Cache.items (base s2))) eqn:Hhas; [done|].
    apply has_false, get_None in Hhas. congruence. }
  intros ops2 s3 now' Hrun2 Hheld Hb3.
  assert (promises_fresh s3) as Hfresh3 by (eapply run_fresh; [exact Hfresh2 | exact Hrun2]).
  assert (∃ item, JsMap.get key (Cache.items (base s3)) = Some item
                  ∧ CacheItem.value item = VBuffer (gzip text)) as (item & Hget3 & Hvalue).
  { unfold Cache.get in Hheld.
    destruct (JsMap.has key (Cache.items (base s3))); [|done].
    destruct (JsMap.get key (Cache.items (base s3))) as [item|]; [|done].
    by exists item. }
  rewrite (getText_stored key (gzip text) item s3 Hfresh3 Hb3 Hget3 Hvalue).
  cbn [fst snd]. split; [|split].
  - simpl. apply lookup_insert_eq.
  - apply outcome_of_None. simpl. apply Forall_app. split.
    + destruct Hfresh3 as (Hs & _). eapply fresh_settled_ne; [|exact Hs]. lia.
    + constructor; [simpl; lia | constructor].
  - erewrite complete_unzip; [|simpl; apply lookup_insert_eq | apply unzip_gzip].
    simpl. apply outcome_of_last. simpl. apply Forall_app. split.
    + destruct Hfresh3 as (Hs & _). eapply fresh_settled_ne; [|exact Hs]. lia.
    + constructor; [simpl; lia | constructor].
Qed.

End RoundTripClaim.

Lemma addText_getText_roundtrip_witness :
  ∃ s',
    CompressCache.run stored_gzip stored_unzip
      [CompressCache.GetText "k"; CompressCache.AddText "j" "other";
       CompressCache.GetZip "k"; CompressCache.Complete 9 1;
       CompressCache.Base (Cache.Prune 20)]
      (CompressCache.addText "k" "hello" (CompressCache.new None None)).2 = Some s'
    ∧ round_trip stored_gzip stored_unzip 10 "k" "hello" (CompressCache.new None None) s'.
Proof.
  match goal with
  | |- ∃ s', CompressCache.run _ _ ?ops ?s1 = _ ∧ _ =>
      assert (∃ s', CompressCache.run stored_gzip stored_unzip ops s1 = Some s')
        as [s' Hrun] by (eexists; vm_compute; reflexivity);
      exists s'; split; [exact Hrun|];
      apply (addText_getText_roundtrip stored_gzip stored_unzip stored_codec_lossless
               (CompressCache.new None None) s' "k" "hello" ops 10
               (new_fresh None None) eq_refl);
        [|exact Hrun]
  end.
  vm_compute. repeat split; discriminate.
Defined.

(** C7 as the claim states it fails when an earlier [addText] of the key is
    still in flight: while "old" is being compressed for "k",
    [addText("k", "new")] stages "new"; when the earlier compression
    completes, [endZip] drops the staged text and the queue of "k" and the
    store takes the buffer of "old".  With the compression of "new" still
    in flight, [getText("k")] is not answered from the staging: it unzips
    the stored buffer and gives "old".  When the compression of "new"
    completes, [endZip] finds no queue, that [addText] is rejected, and the
    store keeps the buffer of "old". *)
Lemma getText_after_overlapping_addText :
  promises_fresh (CompressCache.addText "k" "old" (CompressCache.new None None)).2
  ∧ Is.empty (VString "new") = false
  ∧ ∃ s',
      CompressCache.run stored_gzip stored_unzip [CompressCache.Complete 5 0]
        (CompressCache.addText "k" "new"
           (CompressCache.addText "k" "old" (CompressCache.new None None)).2).2
      = Some s'
      ∧ ¬ round_trip stored_gzip stored_unzip 7 "k" "new"
            (CompressCache.addText "k" "old" (CompressCache.new None None)).2 s'
      ∧ CompressCache.Loop.jobs (CompressCache.loop s') !! 1%nat
        = Some (CompressCache.Gzip "new" "k" 1%nat)
      ∧ CompressCache.zipBuffer s' !! "k" = None
      ∧ CompressCache.Loop.outcome_of (CompressCache.getText "k" s').1
          (CompressCache.loop (CompressCache.getText "k" s').2) = None
      ∧ CompressCache.Loop.outcome_of (CompressCache.getText "k" s').1
          (CompressCache.loop
             (CompressCache.complete stored_gzip stored_unzip 6 2
                (CompressCache.getText "k" s').2))
        = Some (CompressCache.Value (VString "old"))
      ∧ CompressCache.Loop.outcome_of 1%nat
          (CompressCache.loop (CompressCache.complete stored_gzip stored_unzip 7 1 s'))
        = Some CompressCache.Rejected
      ∧ (Cache.get "k" true
           (CompressCache.base (CompressCache.complete stored_gzip stored_unzip 7 1 s'))).1
        = VBuffer (stored_gzip "old")
      ∧ "old" ≠ "new".
Proof.
  split; [apply addText_below, new_fresh|]. split; [reflexivity|].
  eexists. split; [vm_compute; reflexivity|].
  split; [|split; [|split; [|split; [|split; [|split; [|split]]]]]].
  - intros (_ & Hstaged & _). vm_compute in Hstaged. discriminate.
  - vm_compute. reflexivity.
  - vm_compute. reflexivity.
  - vm_compute. reflexivity.
  - vm_compute. reflexivity.
  - vm_compute. reflexivity.
  - vm_compute. reflexivity.
  - discriminate.
Qed.

(** ** What [prune] evicts, all passes together *)

Section Oldest.
Import Cache.

(** In a list in ascending order of [added], the entries added before
    [oldest] are a prefix. *)
Lemma sorted_filter_older oldest (l : list CacheItem.t) :
  StronglySorted older l →
  ∃ m, (m ≤ List.length l)%nat
    ∧ filter (λ i, CacheItem.added i < oldest) l = take m l
    ∧ Forall (λ i, CacheItem.added i < oldest) (take m l)
    ∧ Forall (λ i, oldest ≤ CacheItem.added i) (drop m l).
Proof.
  induction 1 as [|x l Hl IH Hx].
  - exists 0%nat. repeat split; simpl; [lia|constructor|constructor].
  - destruct (decide (CacheItem.added x < oldest)) as [Hlt|Hge].
    + destruct IH as (m & Hm & Hf & Ht & Hd). exists (S m).
      rewrite filter_cons_True by done. cbn [take drop].
      repeat split; [simpl; lia | by rewrite Hf | by constructor | done].
    + exists 0%nat. rewrite filter_cons_False by done. cbn [take drop].
      assert (Forall (λ i, oldest ≤ CacheItem.added i) l) as Hall.
      { eapply Forall_impl; [exact Hx|]. unfold older. intros i Hi. simpl in Hi. lia. }
      repeat split; [simpl; lia | | constructor | constructor; [lia | done]].
      clear -Hall. induction Hall as [|y l' Hy Hall IH']; [done|].
      by rewrite filter_cons_False by lia.
Qed.

Lemma age_pass_oldest now c :
  wf c →
  ∃ k, (k ≤ List.length (by_age c))%nat
    ∧ age_pass now (policy c) (by_age c, [])
      = (drop k (by_age c), CacheItem.key <$> take k (by_age c))
    ∧ (∀ A, positive_limit (maxAge (policy c)) = Some A →
            Forall (λ i, CacheItem.added i < now - A) (take k (by_age c))
            ∧ Forall (λ i, now - A ≤ CacheItem.added i) (drop k (by_age c)))
    ∧ (positive_limit (maxAge (policy c)) = None → k = 0%nat).
Proof.
  intros Hwf. unfold age_pass.
  destruct (positive_limit (maxAge (policy c))) as [A|] eqn:HA.
  - destruct (sorted_filter_older (now - A) (by_age c)) as (m & Hm & Hf & Ht & Hd);
      [apply sort_by_added_sorted|].
    exists m. split; [done|]. split; [|split; [|done]].
    + rewrite Hf. cbn [app]. f_equal.
      apply (mark_prefix (items c) (by_age c) [] m);
        [by apply wf_NoDup_keys | by apply pass_inv_init].
    + intros A' [= <-]. done.
  - exists 0%nat. split; [lia|]. split; [done|]. split; [done | done].
Qed.

Lemma pass_inv_oldest c k :
  wf c →
  pass_inv (items c) (drop k (by_age c), CacheItem.key <$> take k (by_age c)).
Proof.
  intros Hwf. apply (pass_inv_prefix c (by_age c) [] k Hwf), pass_inv_init, Hwf.
Qed.

Lemma count_pass_oldest c k1 :
  wf c → (k1 ≤ List.length (by_age c))%nat →
  ∃ k2, (k1 ≤ k2 ≤ List.length (by_age c))%nat
    ∧ count_pass (policy c)
        (drop k1 (by_age c), CacheItem.key <$> take k1 (by_age c))
      = (drop k2 (by_age c), CacheItem.key <$> take k2 (by_age c))
    ∧ (∀ N, positive_limit (maxItems (policy c)) = Some N →
            Z.of_nat (List.length (by_age c) - k2) ≤ N
            ∧ ((k1 < k2)%nat → Z.of_nat (List.length (by_age c) - k2) = N))
    ∧ (positive_limit (maxItems (policy c)) = None → k2 = k1).
Proof.
  intros Hwf Hk1. pose proof (pass_inv_oldest c k1 Hwf) as Hinv.
  unfold count_pass.
  destruct (positive_limit (maxItems (policy c))) as [N|] eqn:HN.
  - assert (0 < N) as HposN.
    { unfold positive_limit in HN. destruct (maxItems (policy c)); [|done].
      destruct (decide _); [|done]. by injection HN as <-. }
    rewrite length_drop.
    destruct (decide (N < Z.of_nat (List.length (by_age c) - k1))) as [Hgt|Hle].
    + set (m := Z.to_nat (Z.of_nat (List.length (by_age c) - k1) - N)).
      exists (k1 + m)%nat. split; [lia|]. split; [|split; [|done]].
      * rewrite (mark_prefix (items c) _ _ m); [|by apply wf_NoDup_keys | done].
        by rewrite drop_drop, <- fmap_app, take_take_drop.
      * intros N' [= <-]. lia.
    + exists k1. split; [lia|]. split; [done|]. split; [|done].
      intros N' [= <-]. lia.
  - exists k1. split; [lia|]. split; [done|]. split; [done | done].
Qed.

Lemma byte_pass_oldest c k2 :
  wf c → (k2 ≤ List.length (by_age c))%nat →
  ∃ k, (k2 ≤ k ≤ List.length (by_age c))%nat
    ∧ byte_pass c (drop k2 (by_age c), CacheItem.key <$> take k2 (by_age c))
      = Some (drop k (by_age c), CacheItem.key <$> take k (by_age c))
    ∧ (∀ B, positive_limit (maxBytes (policy c)) = Some B → canMeasureSize c = true →
            sizes (drop k (by_age c)) ≤ B
            ∧ ∀ j, (k2 ≤ j < k)%nat → B < sizes (drop j (by_age c)))
    ∧ (positive_limit (maxBytes (policy c)) = None ∨ canMeasureSize c = false → k = k2).
Proof.
  intros Hwf Hk2. pose proof (pass_inv_oldest c k2 Hwf) as Hinv.
  unfold byte_pass.
  assert (∃ k, (k2 ≤ k ≤ List.length (by_age c))%nat
            ∧ Some (drop k2 (by_age c), CacheItem.key <$> take k2 (by_age c))
              = Some (drop k (by_age c), CacheItem.key <$> take k (by_age c))
            ∧ k = k2) as Hsame by (exists k2; split; [lia | done]).
  destruct (positive_limit (maxBytes (policy c))) as [B|] eqn:HB.
  - assert (0 < B) as HposB.
    { unfold positive_limit in HB. destruct (maxBytes (policy c)); [|done].
      destruct (decide _); [|done]. by injection HB as <-. }
    destruct (canMeasureSize c) eqn:Hcan.
    + rewrite (pass_inv_totalSize (items c) _ Hinv). cbn [fst snd].
      destruct (byte_loop_spec B (drop k2 (by_age c)) (sizes (drop k2 (by_age c)))
                  (CacheItem.key <$> take k2 (by_age c)))
        as (kb & Hkb & Hloop & Hend & Hmin); [lia|].
      rewrite length_drop in Hkb.
      assert (∀ j, sizes (drop (k2 + j) (by_age c))
                   = sizes (drop k2 (by_age c)) - sizes (take j (drop k2 (by_age c))))
        as Hsizes.
      { intros j. rewrite (sizes_take_drop j (drop k2 (by_age c))), drop_drop. lia. }
      exists (k2 + kb)%nat. split; [lia|]. split; [|split].
      * rewrite Hloop, drop_drop. by rewrite <- fmap_app, take_take_drop.
      * intros B' [= <-] _. split; [rewrite Hsizes; lia|].
        intros j Hj. replace j with (k2 + (j - k2))%nat by lia.
        rewrite Hsizes. apply Hmin. lia.
      * intros [?|?]; done.
    + destruct Hsame as (k & Hk & Heq & ->). exists k2.
      split; [lia|]. split; [done|]. split; [done | done].
  - destruct Hsame as (k & Hk & Heq & ->). exists k2.
    split; [lia|]. split; [done|]. split; [done | done].
Qed.

(** [prune] marks the [k] oldest entries, for the least [k] that leaves the
    rest within the policy. *)
Lemma marked_oldest now c :
  wf c →
  ∃ k, (k ≤ List.length (by_age c))%nat
    ∧ marked now c = Some (drop k (by_age c), CacheItem.key <$> take k (by_age c))
    ∧ within_policy now (policy c) (canMeasureSize c) (drop k (by_age c))
    ∧ (∀ j, (j < k)%nat →
            ¬ within_policy now (policy c) (canMeasureSize c) (drop j (by_age c))).
Proof.
  intros Hwf.
  destruct (age_pass_oldest now c Hwf) as (k1 & Hk1 & Hage & HA & HA0).
  destruct (count_pass_oldest c k1 Hwf Hk1) as (k2 & Hk2 & Hcount & HN & HN0).
  destruct (byte_pass_oldest c k2 Hwf) as (k & Hk & Hbyte & HB & HB0); [lia|].
  exists k. split; [lia|]. split; [|split].
  - unfold marked. fold (by_age c). by rewrite Hage, Hcount.
  - split; [|split].
    + intros A HAe. destruct (HA A HAe) as [_ Hd].
      replace k with (k1 + (k - k1))%nat by lia. rewrite <- drop_drop.
      by apply Forall_drop.
    + intros N HNe. destruct (HN N HNe) as [Hle _]. rewrite length_drop. lia.
    + intros B HBe Hcan. by destruct (HB B HBe Hcan).
  - intros j Hj (Wa & Wn & Wb).
    destruct (decide (j < k1)%nat) as [Hj1|Hj1].
    + destruct (positive_limit (maxAge (policy c))) as [A|] eqn:HAe;
        [|specialize (HA0 eq_refl); lia].
      destruct (HA A eq_refl) as [Ht _]. specialize (Wa A eq_refl).
      destruct (lookup_lt_is_Some_2 (by_age c) j) as [x Hx]; [lia|].
      assert (x ∈ take k1 (by_age c)) as Hin1 by (apply elem_of_take; eauto).
      assert (x ∈ drop j (by_age c)) as Hin2.
      { apply list_elem_of_lookup. exists 0%nat. rewrite lookup_drop.
        by rewrite Nat.add_0_r. }
      rewrite Forall_forall in Ht, Wa. specialize (Ht x Hin1). specialize (Wa x Hin2).
      simpl in *. lia.
    + destruct (decide (j < k2)%nat) as [Hj2|Hj2].
      * destruct (positive_limit (maxItems (policy c))) as [N|] eqn:HNe;
          [|specialize (HN0 eq_refl); lia].
        destruct (HN N eq_refl) as [_ Heq]. specialize (Wn N eq_refl).
        rewrite length_drop in Wn. specialize (Heq ltac:(lia)). lia.
      * destruct (positive_limit (maxBytes (policy c))) as [B|] eqn:HBe;
          [|specialize (HB0 (or_introl eq_refl)); lia].
        destruct (canMeasureSize c) eqn:Hcan;
          [|specialize (HB0 (or_intror eq_refl)); lia].
        destruct (HB B eq_refl eq_refl) as [_ Hmin]. specialize (Wb B eq_refl eq_refl).
        specialize (Hmin j ltac:(lia)). lia.
Qed.

End Oldest.

Section PruneFacts.
Import Cache.

Lemma prune_policy now c c' : prune now c = Some c' → policy c' = policy c.
Proof.
  unfold prune. destruct (_ && _); [|by intros [= <-]].
  destruct (marked now c) as [w|]; [|done]. simpl.
  destruct (decide _); intros [= <-]; [|done].
  unfold events_emit. by destruct (EventEmitter.emit _ _ _).
Qed.

Lemma within_policy_perm now p measurable l l' :
  l ≡ₚ l' → within_policy now p measurable l → within_policy now p measurable l'.
Proof.
  intros Hp (Wa & Wn & Wb). split; [|split].
  - intros A HA. rewrite <- Hp. by apply Wa.
  - intros N HN. rewrite <- Hp. by apply Wn.
  - intros B HB Hm. rewrite <- (sizes_perm _ _ Hp). by apply Wb.
Qed.

Lemma by_age_perm c : by_age c ≡ₚ JsMap.values (items c).
Proof. apply sort_by_added_perm. Qed.

(** What [prune] does, from the number of entries it marks. *)
Lemma prune_oldest now c :
  wf c →
  ∃ k c',
    (k ≤ List.length (by_age c))%nat
    ∧ prune now c = Some c'
    ∧ marked now c = Some (drop k (by_age c), CacheItem.key <$> take k (by_age c))
    ∧ items c' = delete_all (CacheItem.key <$> take k (by_age c)) (items c)
    ∧ JsMap.values (items c') ≡ₚ drop k (by_age c)
    ∧ within_policy now (policy c) (canMeasureSize c) (drop k (by_age c))
    ∧ (∀ j, (j < k)%nat →
            ¬ within_policy now (policy c) (canMeasureSize c) (drop j (by_age c))).
Proof.
  intros Hwf. destruct (marked_oldest now c Hwf) as (k & Hk & Hm & Hw & Hmin).
  destruct (prune_items now c _ Hm) as (c' & Hp & Hi). simpl in Hi.
  exists k, c'. split; [done|]. split; [done|]. split; [done|]. split; [done|].
  split; [|split; [done | done]].
  rewrite Hi, delete_all_values by by apply wf_keys_match.
  destruct (pass_inv_oldest c k Hwf) as (Hperm & _). simpl in Hperm. by rewrite Hperm.
Qed.

End PruneFacts.

(** X7. [prune] evicts the [k] oldest entries of the store, for the least
    [k] that leaves the rest within every positive limit of the policy (age,
    count and, when sizes can be measured, bytes).  The entries that stay
    are the others, as they were and in the order of the store; no evicted
    entry was added later than one that stays; the [ItemsEvicted]
    notification, made when [k > 0], lists the evicted keys oldest first. *)
Theorem prune_evicts_oldest_first (now : Z) (c : Cache.t) :
  Cache.wf c →
  ∃ (k : nat) (c' : Cache.t),
    let evicted := take k (by_age c) in
    (k ≤ List.length (by_age c))%nat
    ∧ Cache.prune now c = Some c'
    ∧ Cache.items c'
      = filter (λ kv, kv.1 ∉ (CacheItem.key <$> evicted)) (Cache.items c)
    ∧ JsMap.values (Cache.items c') ≡ₚ drop k (by_age c)
    ∧ (∀ e s, e ∈ evicted → s ∈ JsMap.values (Cache.items c') →
              CacheItem.added e ≤ CacheItem.added s)
    ∧ (k = 0%nat → c' = c)
    ∧ (k ≠ 0%nat →
       Cache.trace c' =
       Cache.trace c ++
         [Cache.mkEmission ItemsEvicted (Keys (CacheItem.key <$> evicted))
            ((λ fn, (fn, Keys (CacheItem.key <$> evicted))) <$>
               default [] (EventEmitter.listeners (Cache.events c)
                             !! EventType_code ItemsEvicted))
            (Cache.items c')])
    ∧ within_policy now (Cache.policy c) (Cache.canMeasureSize c) (drop k (by_age c))
    ∧ (∀ j, (j < k)%nat →
            ¬ within_policy now (Cache.policy c) (Cache.canMeasureSize c)
                (drop j (by_age c))).
Proof.
  intros Hwf.
  destruct (prune_oldest now c Hwf) as (k & c' & Hk & Hp & Hm & Hi & Hperm & Hw & Hmin).
  exists k, c'. cbv zeta.
  split; [done|]. split; [done|]. split; [by rewrite Hi, delete_all_filter|].
  split; [done|]. split; [|split; [|split; [|split; [done | done]]]].
  - intros e s He Hs. rewrite Hperm in Hs.
    apply (StronglySorted_take_drop older k (by_age c)); [|done|done].
    apply sort_by_added_sorted.
  - intros ->. rewrite (prune_spec now c _ Hwf Hm) in Hp.
    cbn [snd take fmap list_fmap] in Hp.
    rewrite decide_True in Hp by done. by injection Hp as <-.
  - intros Hne. rewrite (prune_spec now c _ Hwf Hm) in Hp. cbn [snd] in Hp.
    rewrite decide_False in Hp.
    + injection Hp as <-. rewrite events_emit_items, events_emit_trace, emit_calls.
      reflexivity.
    + destruct k as [|k]; [done|]. destruct (by_age c); [simpl in Hk; lia | done].
Qed.

Lemma prune_evicts_oldest_first_witness :
  ∃ c', Cache.prune 20 (three_adds all_limits) = Some c'
        ∧ (Cache.items c').*1 = ["c"].
Proof.
  assert (Cache.wf (three_adds all_limits)) as Hwf
    by (repeat apply wf_add; apply wf_new).
  destruct (prune_evicts_oldest_first 20 (three_adds all_limits) Hwf)
    as (k & c' & _ & Hprune & _).
  exists c'. split; [exact Hprune|].
  vm_compute in Hprune. injection Hprune as <-. reflexivity.
Defined.

Section Enforced.
Import Cache.

(** After [prune] the store is within the policy, in the terms of the
    class. *)
Lemma prune_enforces now c c' :
  wf c →
  prune now c = Some c' →
  (∀ A, positive_limit (maxAge (policy c)) = Some A →
        ∀ k i, (k, i) ∈ items c' → now - A ≤ CacheItem.added i)
  ∧ (∀ N, positive_limit (maxItems (policy c)) = Some N → length c' ≤ N)
  ∧ (∀ B, positive_limit (maxBytes (policy c)) = Some B →
          canMeasureSize c = true → size c' ≤ B).
Proof.
  intros Hwf Hp.
  destruct (prune_oldest now c Hwf) as (k & c'' & _ & Hp' & _ & _ & Hperm & Hw & _).
  rewrite Hp in Hp'. injection Hp' as <-.
  apply (within_policy_perm _ _ _ _ (JsMap.values (items c'))) in Hw; [|done].
  destruct Hw as (Wa & Wn & Wb). split; [|split].
  - intros A HA key i Hin. specialize (Wa A HA). rewrite Forall_forall in Wa.
    apply (Wa i). unfold JsMap.values. apply list_elem_of_fmap. by exists (key, i).
  - intros N HN. specialize (Wn N HN). unfold length, JsMap.size.
    unfold JsMap.values in Wn. by rewrite length_fmap in Wn.
  - intros B HB Hcan. unfold size.
    rewrite (prune_canMeasureSize _ _ _ Hp), Hcan, totalSize_sizes, unmarked_nil.
    by apply Wb.
Qed.

End Enforced.

(** X8. After [prune], the cache is within every positive limit of its
    policy: under [maxAge = A > 0] no entry was added before [now - A];
    under [maxItems = N > 0] [length] is at most [N]; under
    [maxBytes = B > 0], when sizes can be measured, [size] is at most
    [B]. *)
Theorem prune_within_policy (now : Z) (c c' : Cache.t) :
  Cache.wf c →
  Cache.prune now c = Some c' →
  (∀ A, positive_limit (maxAge (Cache.policy c)) = Some A →
        ∀ k i, (k, i) ∈ Cache.items c' → now - A ≤ CacheItem.added i)
  ∧ (∀ N, positive_limit (maxItems (Cache.policy c)) = Some N → Cache.length c' ≤ N)
  ∧ (∀ B, positive_limit (maxBytes (Cache.policy c)) = Some B →
          Cache.canMeasureSize c = true → Cache.size c' ≤ B).
Proof. apply prune_enforces. Qed.

Lemma prune_within_policy_witness :
  ∃ c', Cache.prune 20 (three_adds all_limits) = Some c'
        ∧ Cache.length c' ≤ 2 ∧ Cache.size c' ≤ 4.
Proof.
  assert (Cache.wf (three_adds all_limits)) as Hwf
    by (repeat apply wf_add; apply wf_new).
  destruct (prune_total 20 (three_adds all_limits) Hwf) as [c' Hprune].
  exists c'. split; [exact Hprune|].
  destruct (prune_within_policy 20 (three_adds all_limits) c' Hwf Hprune)
    as (_ & Hn & Hb).
  split; [apply Hn | apply Hb]; reflexivity.
Defined.

(** X9. [prune] run again at the same time changes nothing and notifies
    nothing: what one [prune] leaves is within the policy. *)
Theorem prune_idempotent (now : Z) (c c' : Cache.t) :
  Cache.wf c →
  Cache.prune now c = Some c' →
  Cache.prune now c' = Some c'.
Proof.
  intros Hwf Hp.
  assert (Cache.wf c') as Hwf' by by eapply wf_prune.
  destruct (prune_oldest now c Hwf) as (k & c'' & _ & Hp' & _ & _ & Hperm & Hw & _).
  rewrite Hp in Hp'. injection Hp' as <-.
  destruct (marked_oldest now c' Hwf') as (k' & Hk' & Hm' & _ & Hmin').
  assert (k' = 0%nat) as ->.
  { destruct k' as [|k']; [done|]. exfalso. apply (Hmin' 0%nat); [lia|].
    rewrite (prune_policy _ _ _ Hp), (prune_canMeasureSize _ _ _ Hp).
    eapply within_policy_perm; [|exact Hw].
    change (drop 0 (by_age c')) with (by_age c').
    rewrite <- Hperm. symmetry. apply by_age_perm. }
  rewrite (prune_spec now c' _ Hwf' Hm'). cbn [snd take fmap list_fmap].
  by rewrite decide_True.
Qed.

Lemma prune_idempotent_witness :
  ∃ c', Cache.prune 20 (three_adds all_limits) = Some c'
        ∧ Cache.prune 20 c' = Some c'.
Proof.
  assert (Cache.wf (three_adds all_limits)) as Hwf
    by (repeat apply wf_add; apply wf_new).
  destruct (prune_total 20 (three_adds all_limits) Hwf) as [c' Hprune].
  exists c'. split; [exact Hprune|].
  exact (prune_idempotent 20 (three_adds all_limits) c' Hwf Hprune).
Defined.

(** X10. Under a positive [maxAge = A], with no positive [maxItems] and no
    byte pass, [prune] removes exactly the entries added before [now - A]:
    an entry added at [now - A] stays. *)
Theorem prune_by_age (now : Z) (c c' : Cache.t) (A : Z) :
  Cache.wf c →
  positive_limit (maxAge (Cache.policy c)) = Some A →
  positive_limit (maxItems (Cache.policy c)) = None →
  positive_limit (maxBytes (Cache.policy c)) = None ∨ Cache.canMeasureSize c = false →
  Cache.prune now c = Some c' →
  Cache.items c' = filter (λ kv, now - A ≤ CacheItem.added kv.2) (Cache.items c).
Proof.
  intros Hwf HA HN HB Hp.
  destruct (age_pass_oldest now c Hwf) as (k1 & Hk1 & Hage & Hold & _).
  destruct (Hold A HA) as [Ht Hd].
  destruct (count_pass_oldest c k1 Hwf Hk1) as (k2 & Hk2 & Hcount & _ & HN0).
  rewrite (HN0 HN) in Hcount.
  destruct (byte_pass_oldest c k1 Hwf Hk1) as (k & Hk & Hbyte & _ & HB0).
  rewrite (HB0 HB) in Hbyte.
  assert (Cache.marked now c
          = Some (drop k1 (by_age c), CacheItem.key <$> take k1 (by_age c))) as Hm.
  { unfold Cache.marked. fold (by_age c). by rewrite Hage, Hcount. }
  destruct (prune_items now c _ Hm) as (c'' & Hp' & Hi).
  rewrite Hp in Hp'. injection Hp' as <-. cbn [snd] in Hi.
  rewrite Hi, delete_all_filter. apply filter_ext_elem. intros [key i] Hin.
  cbn [fst snd].
  assert (CacheItem.key i = key) as Hkey.
  { pose proof (wf_keys_match c Hwf) as Hkeys. rewrite Forall_forall in Hkeys.
    apply (Hkeys (key, i) Hin). }
  assert (i ∈ by_age c) as Hi0.
  { rewrite by_age_perm. unfold JsMap.values. apply list_elem_of_fmap.
    by exists (key, i). }
  assert (NoDup (CacheItem.key <$> by_age c)) as Hnd.
  { rewrite by_age_perm. by apply wf_NoDup_keys. }
  rewrite <- (take_drop k1 (by_age c)) in Hi0, Hnd.
  rewrite fmap_app in Hnd. apply NoDup_app in Hnd as (_ & Hdisj & _).
  rewrite Forall_forall in Ht, Hd.
  apply elem_of_app in Hi0 as [Hi0|Hi0].
  - specialize (Ht i Hi0). simpl in Ht. split; [|lia].
    intros Hn. exfalso. apply Hn. rewrite <- Hkey. by apply list_elem_of_fmap_2.
  - specialize (Hd i Hi0). simpl in Hd. split; [done|].
    intros _ Hin'. apply (Hdisj key Hin'). rewrite <- Hkey. by apply list_elem_of_fmap_2.
Qed.

Lemma prune_by_age_witness :
  ∃ c', Cache.prune 20 (three_adds max_age_18) = Some c'
        ∧ (Cache.items c').*1 = ["b"; "c"].
Proof.
  assert (Cache.wf (three_adds max_age_18)) as Hwf
    by (repeat apply wf_add; apply wf_new).
  destruct (prune_total 20 (three_adds max_age_18) Hwf) as [c' Hprune].
  exists c'. split; [exact Hprune|].
  rewrite (prune_by_age 20 (three_adds max_age_18) c' 18 Hwf eq_refl eq_refl
             (or_introl eq_refl) Hprune).
  vm_compute. reflexivity.
Defined.

(** ** The timer, the flag and the sizes of a reachable cache *)

Section Reachable.
Import Cache.

Lemma one_timer_rearmed c : one_timer c → rearmed c = [next_timer c].
Proof.
  unfold rearmed. intros [Ht|(h & Ht & He)]; rewrite Ht.
  - by destruct (evictTimer c).
  - rewrite He. by rewrite filter_cons_False, filter_nil by (simpl; tauto).
Qed.

Lemma one_timer_schedulePrune c : one_timer c → one_timer (schedulePrune c).
Proof.
  intros H. destruct (schedulePrune_timers c) as [Ht He].
  right. exists (next_timer c). by rewrite Ht, (one_timer_rearmed c H).
Qed.

Lemma one_timer_same c c' :
  timers c' = timers c → evictTimer c' = evictTimer c → one_timer c → one_timer c'.
Proof. unfold one_timer. by intros -> ->. Qed.

Lemma one_timer_step o c c' : one_timer c → step o c = Some c' → one_timer c'.
Proof.
  intros H. destruct o; simpl.
  - intros [= <-]. destruct (add_timers now key value c) as [Ht He].
    right. exists (next_timer c). by rewrite Ht, (one_timer_rearmed c H).
  - intros [= <-]. eapply one_timer_same; [| |exact H]; unfold get;
      (destruct (JsMap.has _ _); [by destruct (JsMap.get _ _)|]);
      simpl; (destruct silent; [done|]); apply events_emit_same.
  - intros [= <-]. by eapply one_timer_same.
  - intros [= <-]. by eapply one_timer_same.
  - intros [= <-]. unfold updatePolicy.
    apply one_timer_schedulePrune. by eapply one_timer_same.
  - intros Hp. destruct (prune_timers _ _ _ Hp) as (He & _ & Ht).
    by eapply one_timer_same.
  - unfold fire. destruct (bool_decide _) eqn:Hin; [|by intros [= <-]].
    apply bool_decide_eq_true in Hin.
    intros Hp. destruct (prune_timers _ _ _ Hp) as (He & _ & Ht).
    left. rewrite Ht. simpl.
    destruct H as [H|(h0 & H & _)]; rewrite H in Hin |- *; [done|].
    apply list_elem_of_singleton in Hin as ->.
    by rewrite filter_cons_False, filter_nil by (simpl; tauto).
  - intros [= <-]. by eapply one_timer_same.
Qed.

Lemma one_timer_run ops c c' : one_timer c → run ops c = Some c' → one_timer c'.
Proof.
  revert c. induction ops as [|o ops IH]; intros c H; simpl.
  - by intros [= <-].
  - destruct (step o c) as [c1|] eqn:Hs; [|done]. simpl.
    apply IH. by eapply one_timer_step.
Qed.

End Reachable.

(** X11. However many times [add] and [updatePolicy] are called before the
    timer fires, at most one timer is armed with [prune] in a reachable
    cache, and it is the one whose handle the instance holds: each call
    clears the timer armed before and arms one. *)
Theorem one_prune_pending (p : CachePolicy) (ops : list Cache.op) (c : Cache.t) :
  Cache.run ops (Cache.new p) = Some c →
  one_timer c
  ∧ (∀ now key v, Cache.timers (Cache.add now key v c) = [Cache.next_timer c])
  ∧ (∀ p', Cache.timers (Cache.updatePolicy p' c) = [Cache.next_timer c]).
Proof.
  intros Hrun.
  assert (one_timer c) as H by (eapply one_timer_run; [|exact Hrun]; by left).
  split; [done|]. split.
  - intros now key v. destruct (add_timers now key v c) as [Ht _].
    by rewrite Ht, one_timer_rearmed.
  - intros p'. unfold Cache.updatePolicy.
    destruct (schedulePrune_timers (Cache.with_policy (merge defaultPolicy p') c))
      as [Ht _].
    rewrite Ht. by apply (one_timer_rearmed (Cache.with_policy _ c)).
Qed.

Lemma one_prune_pending_witness :
  Cache.timers (three_adds no_limits) = [3%nat]
  ∧ Cache.evictTimer (three_adds no_limits) = Some 3%nat.
Proof.
  destruct (one_prune_pending no_limits
              [Cache.Add 1 "a" (VString "x"); Cache.Add 2 "b" (VString "yy")]
              (Cache.add 2 "b" (VString "yy")
                 (Cache.add 1 "a" (VString "x") (Cache.new no_limits)))
              eq_refl) as (_ & Hadd & _).
  split; [|reflexivity].
  exact (Hadd 3 "c" (VString "zzz")).
Defined.

Section Unlimited.
Import Cache.

Lemma prune_unlimited now c : unlimited (policy c) → prune now c = Some c.
Proof.
  intros (Ha & Hn & Hb). unfold prune. destruct (_ && _); [|done].
  unfold marked, age_pass, count_pass, byte_pass. rewrite Ha, Hn, Hb. done.
Qed.

Lemma get_policy key silent c : policy (get key silent c).2 = policy c.
Proof.
  unfold get. destruct (JsMap.has _ _); [by destruct (JsMap.get _ _)|].
  simpl. destruct silent; [done|]. unfold events_emit.
  by destruct (EventEmitter.emit _ _ _).
Qed.

Lemma get_trace key silent c :
  ∃ new, trace (get key silent c).2 = trace c ++ new
         ∧ Forall (λ em, em_type em = KeyNotFound) new.
Proof.
  unfold get. destruct (JsMap.has _ _).
  - exists []. rewrite app_nil_r. by destruct (JsMap.get _ _).
  - simpl. destruct silent; [exists []; by rewrite app_nil_r|].
    rewrite events_emit_trace. eexists. split; [done|]. by constructor.
Qed.

(** Under a policy with no positive limit, an operation other than
    [updatePolicy], [remove] and [clear] keeps the policy and every key, and
    notifies at most a missing key. *)
Lemma step_unlimited o c c' :
  unlimited (policy c) → keeps_entries o → step o c = Some c' →
  policy c' = policy c
  ∧ (∀ k, k ∈ (items c).*1 → k ∈ (items c').*1)
  ∧ ∃ new, trace c' = trace c ++ new ∧ Forall (λ em, em_type em = KeyNotFound) new.
Proof.
  intros Hu Hk.
  assert (∃ new : list Emission,
            trace c = trace c ++ new ∧ Forall (λ em, em_type em = KeyNotFound) new)
    as Hsame by (exists []; by rewrite app_nil_r).
  destruct o; simpl in Hk |- *; try done.
  - intros [= <-]. split; [apply add_policy|]. split; [|by rewrite add_trace].
    intros k Hin. unfold add. rewrite add_with_items.
    destruct (Is.value value); [|done].
    rewrite set_keys. destruct (decide _); [done|].
    apply elem_of_app. by left.
  - intros [= <-]. split; [apply get_policy|]. split; [|apply get_trace].
    by rewrite get_items.
  - intros Hp. rewrite (prune_unlimited now c Hu) in Hp. by injection Hp as <-.
  - unfold fire. destruct (bool_decide _); [|intros [= <-]; done].
    rewrite (prune_unlimited now (clearTimeout h c)) by done.
    by intros [= <-].
  - by intros [= <-].
Qed.

End Unlimited.

(** X12. A cache whose policy has no positive limit (the default policy,
    or limits of [0] or [-1]) never evicts: whatever is added, read, pruned
    or fired, as long as the policy is not replaced, every key stays in the
    store until the caller removes it, and no [ItemsEvicted] notification
    is made. *)
Theorem no_limit_no_eviction (ops : list Cache.op) (c c' : Cache.t) :
  unlimited (Cache.policy c) →
  Forall keeps_entries ops →
  Cache.run ops c = Some c' →
  (∀ k, k ∈ (Cache.items c).*1 → k ∈ (Cache.items c').*1)
  ∧ ∃ new, Cache.trace c' = Cache.trace c ++ new
           ∧ Forall (λ em, Cache.em_type em = KeyNotFound) new.
Proof.
  intros Hu Hops. revert c Hu.
  induction Hops as [|o ops Ho Hops IH]; intros c Hu; simpl.
  - intros [= <-]. split; [done|]. exists []. by rewrite app_nil_r.
  - destruct (Cache.step o c) as [c1|] eqn:Hs; [|done]. simpl. intros Hrun.
    destruct (step_unlimited o c c1 Hu Ho Hs) as (Hp & Hk & new1 & Ht1 & Hn1).
    destruct (IH c1) as (Hk' & new2 & Ht2 & Hn2); [by rewrite Hp | done |].
    split; [by auto|]. exists (new1 ++ new2).
    rewrite Ht2, Ht1, <- app_assoc. split; [done|]. by apply Forall_app.
Qed.

Lemma no_limit_no_eviction_witness :
  ∃ c', Cache.run [Cache.Add 4 "d" (VString "w"); Cache.Get "q" false; Cache.Prune 1000;
                   Cache.Fire 1001 4]
          (three_adds (mkPolicy (Some (-1)) None (Some 0))) = Some c'
        ∧ (Cache.items c').*1 = ["a"; "b"; "c"; "d"]
        ∧ Forall (λ em, Cache.em_type em = KeyNotFound) (Cache.trace c').
Proof.
  eexists. split; [vm_compute; reflexivity|]. split; [vm_compute; reflexivity|].
  match goal with
  | |- Forall _ (Cache.trace ?c') =>
      destruct (no_limit_no_eviction
                  [Cache.Add 4 "d" (VString "w"); Cache.Get "q" false; Cache.Prune 1000;
                   Cache.Fire 1001 4]
                  (three_adds (mkPolicy (Some (-1)) None (Some 0))) c')
        as (_ & new & Ht & Hn)
  end.
  - repeat split.
  - repeat constructor.
  - vm_compute. reflexivity.
  - vm_compute in Ht. destruct new as [|em new]; [discriminate|].
    injection Ht as <- <-. exact Hn.
Defined.

Section Accounts.
Import Cache.

Lemma sizes_get_delete (key : string) (m : store) :
  NoDup m.*1 →
  sizes (JsMap.values m)
  = default 0 (CacheItem.size <$> JsMap.get key m) + sizes (JsMap.values (JsMap.delete key m)).
Proof.
  unfold JsMap.values, JsMap.delete. induction m as [|[k i] m IH]; intros Hnd; [done|].
  rewrite fmap_cons in Hnd. apply NoDup_cons in Hnd as [Hk Hnd]. simpl in Hk.
  rewrite fmap_cons, sizes_cons. cbn [JsMap.get snd].
  destruct (decide (k = key)) as [->|Hne].
  - rewrite (filter_cons_False (λ kv : string * CacheItem.t, kv.1 ≠ key)) by (simpl; tauto).
    pose proof (delete_absent key m Hk) as Habs. unfold JsMap.delete in Habs.
    replace (filter (λ kv : string * CacheItem.t, kv.1 ≠ key) m) with m
      by (symmetry; exact Habs).
    simpl. lia.
  - rewrite (filter_cons_True (λ kv : string * CacheItem.t, kv.1 ≠ key)) by done.
    rewrite fmap_cons, sizes_cons, (IH Hnd). simpl.
    rewrite !Z.add_assoc, (Z.add_comm (CacheItem.size i)). reflexivity.
Qed.

Lemma measured_step o c c' :
  (canMeasureSize c = true → Forall (λ kv, measured kv.2) (items c)) →
  step o c = Some c' →
  canMeasureSize c' = true → Forall (λ kv, measured kv.2) (items c').
Proof.
  intros H Hs Hcan'.
  assert (canMeasureSize c = true) as Hcan.
  { destruct (canMeasureSize c) eqn:Hc; [done|].
    by rewrite (step_unmeasurable o c c' Hc Hs) in Hcan'. }
  specialize (H Hcan). destruct o; simpl in Hs.
  - injection Hs as <-. unfold add in *.
    rewrite add_with_canMeasureSize in Hcan'. rewrite add_with_items, Hcan.
    destruct (Is.value value); [|done].
    rewrite Hcan in Hcan'. apply bool_decide_eq_true in Hcan'.
    destruct (decide (byteSize value = -1)) as [|_]; [done|].
    apply set_Forall; [|done]. split; [done|]. simpl.
    pose proof (byteSize_ge value). lia.
  - injection Hs as <-. by rewrite get_items.
  - injection Hs as <-. simpl. by apply delete_Forall.
  - injection Hs as <-. constructor.
  - injection Hs as <-. unfold updatePolicy. by rewrite schedulePrune_items.
  - by eapply prune_Forall.
  - unfold fire in Hs. destruct (bool_decide _); [|by injection Hs as <-].
    by apply (prune_Forall _ _ _ _ Hs).
  - by injection Hs as <-.
Qed.

Lemma measured_run ops c c' :
  (canMeasureSize c = true → Forall (λ kv, measured kv.2) (items c)) →
  run ops c = Some c' →
  canMeasureSize c' = true → Forall (λ kv, measured kv.2) (items c').
Proof.
  revert c. induction ops as [|o ops IH]; intros c H; simpl.
  - by intros [= <-].
  - destruct (step o c) as [c1|] eqn:Hs; [|done]. simpl.
    apply IH. by eapply measured_step.
Qed.


End Accounts.

(** X13. While sizes can be measured, every value a reachable cache stores
    is a string or a Buffer and the size recorded for it is its length, so
    [size] is the sum of the byte sizes of the stored values. *)
Theorem measurable_sizes_exact (p : CachePolicy) (ops : list Cache.op) (c : Cache.t) :
  Cache.run ops (Cache.new p) = Some c →
  Cache.canMeasureSize c = true →
  Forall (λ kv, measured kv.2) (Cache.items c)
  ∧ Cache.size c
    = foldr (λ kv total, byteSize (CacheItem.value kv.2) + total) 0 (Cache.items c).
Proof.
  intros Hrun Hcan.
  assert (Forall (λ kv, measured kv.2) (Cache.items c)) as H.
  { eapply measured_run; [|exact Hrun|exact Hcan]. intros _. constructor. }
  split; [done|].
  unfold Cache.size. rewrite Hcan, totalSize_sizes, unmarked_nil. unfold JsMap.values.
  induction H as [|[k i] m [Hi _] Hm IH]; [done|].
  rewrite fmap_cons, sizes_cons. simpl in *. by rewrite IH, Hi.
Qed.

Lemma measurable_sizes_exact_witness :
  Cache.size (three_adds no_limits) = 6
  ∧ Forall (λ kv, measured kv.2) (Cache.items (three_adds no_limits)).
Proof.
  destruct (measurable_sizes_exact no_limits
              [Cache.Add 1 "a" (VString "x"); Cache.Add 2 "b" (VString "yy");
               Cache.Add 3 "c" (VString "zzz")]
              (three_adds no_limits) eq_refl eq_refl) as [H Hsize].
  split; [|exact H]. rewrite Hsize. vm_compute. reflexivity.
Defined.

(** X14. [add] of a string or a Buffer to a reachable cache that can
    measure sizes: a key already there keeps its place in the order of the
    store and [length] stays, a new key goes last and [length] grows by
    one; [size] changes by the byte size of the value less the size
    recorded for the entry it replaces. *)
Theorem add_accounts (now : Z) (key : string) (v : jsval) (c : Cache.t) :
  Cache.wf c →
  Cache.canMeasureSize c = true →
  byteSize v ≠ -1 →
  let c' := Cache.add now key v c in
  (Cache.items c').*1
  = (if JsMap.has key (Cache.items c) then (Cache.items c).*1
     else (Cache.items c).*1 ++ [key])
  ∧ Cache.length c'
    = Cache.length c + (if JsMap.has key (Cache.items c) then 0 else 1)
  ∧ Cache.size c'
    = Cache.size c
      - default 0 (CacheItem.size <$> JsMap.get key (Cache.items c))
      + byteSize v
  ∧ Cache.canMeasureSize c' = true.
Proof.
  intros Hwf Hcan Hsize c'. subst c'.
  assert (Is.value v = true) as Hv by (destruct v; done).
  assert (Cache.canMeasureSize (Cache.add now key v c) = true) as Hcan'.
  { unfold Cache.add. rewrite add_with_canMeasureSize, Hv, Hcan.
    by rewrite bool_decide_eq_true_2. }
  assert ((Cache.items (Cache.add now key v c)).*1
          = (if JsMap.has key (Cache.items c) then (Cache.items c).*1
             else (Cache.items c).*1 ++ [key])) as Hkeys.
  { unfold Cache.add. rewrite add_with_items, Hv, set_keys. unfold JsMap.has.
    destruct (decide (key ∈ (Cache.items c).*1)).
    - by rewrite bool_decide_eq_true_2.
    - by rewrite bool_decide_eq_false_2. }
  split; [done|]. split; [|split; [|done]].
  - unfold Cache.length, JsMap.size.
    rewrite <- (length_fmap fst (Cache.items (Cache.add now key v c))), Hkeys.
    destruct (JsMap.has key (Cache.items c)).
    + rewrite length_fmap. lia.
    + rewrite length_app, length_fmap. simpl. lia.
  - unfold Cache.size. rewrite Hcan, Hcan', !totalSize_sizes, !unmarked_nil.
    destruct Hwf as [Hnd _].
    rewrite (sizes_get_delete key (Cache.items c) Hnd).
    unfold Cache.add. rewrite add_with_items, Hv, Hcan.
    destruct (decide (byteSize v = -1)) as [|_]; [done|].
    unfold JsMap.values at 1.
    erewrite sizes_perm; [|by rewrite (set_perm _ _ _ Hnd)].
    rewrite fmap_cons, sizes_cons. simpl. unfold JsMap.values. lia.
Qed.

Lemma add_accounts_witness :
  Cache.size (Cache.add 9 "b" (VString "12345") (three_adds no_limits)) = 9
  ∧ Cache.length (Cache.add 9 "b" (VString "12345") (three_adds no_limits)) = 3
  ∧ (Cache.items (Cache.add 9 "b" (VString "12345") (three_adds no_limits))).*1
    = ["a"; "b"; "c"].
Proof.
  assert (Cache.wf (three_adds no_limits)) as Hwf
    by (repeat apply wf_add; apply wf_new).
  destruct (add_accounts 9 "b" (VString "12345") (three_adds no_limits) Hwf eq_refl)
    as (Hkeys & Hlen & Hsize & _); [discriminate|].
  split; [|split].
  - rewrite Hsize. vm_compute. reflexivity.
  - rewrite Hlen. vm_compute. reflexivity.
  - rewrite Hkeys. vm_compute. reflexivity.
Defined.

(** ** The event emitter *)

Section Emitter.
Import EventEmitter.

Lemma subscribe_listeners ty fn (e : t) :
  listeners (subscribe ty fn e).2
  = <[ty := default [] (listeners e !! ty) ++ [fn]]> (listeners e).
Proof.
  unfold subscribe, hasType. cbn [snd listeners].
  destruct (listeners e !! ty) as [fns|] eqn:Hl.
  - by rewrite bool_decide_eq_true_2 by by eexists.
  - rewrite bool_decide_eq_false_2; [done|]. by intros [? ?].
Qed.

Lemma filter_type_absent (subs : list (nat * listener)) ty :
  ty ∉ subs.*1 → filter (λ s, s.1 = ty) subs = [].
Proof.
  induction subs as [|[ty' fn] subs IH]; [done|].
  rewrite fmap_cons, not_elem_of_cons. intros [Hne Hin].
  rewrite filter_cons_False by (simpl; intros Heq; by apply Hne). by apply IH.
Qed.

Lemma subscribe_all_listeners subs (e : t) ty :
  listeners (subscribe_all subs e) !! ty
  = if bool_decide (ty ∈ subs.*1)
    then Some (default [] (listeners e !! ty) ++ (filter (λ s, s.1 = ty) subs).*2)
    else listeners e !! ty.
Proof.
  unfold subscribe_all. revert e.
  induction subs as [|[ty' fn] subs IH]; intros e; [done|].
  cbn [foldl fst snd]. rewrite IH, subscribe_listeners, fmap_cons. cbn [fst].
  destruct (decide (ty' = ty)) as [->|Hne].
  - rewrite lookup_insert_eq. cbn [default].
    rewrite (bool_decide_eq_true_2 (ty ∈ ty :: subs.*1)) by apply list_elem_of_here.
    rewrite (filter_cons_True (λ s : nat * listener, s.1 = ty)) by done.
    rewrite fmap_cons. cbn [snd].
    destruct (decide (ty ∈ subs.*1)) as [Hin|Hin].
    + rewrite bool_decide_eq_true_2 by done. unfold id. by rewrite <- app_assoc.
    + rewrite bool_decide_eq_false_2 by done. by rewrite filter_type_absent.
  - rewrite lookup_insert_ne by done.
    rewrite (filter_cons_False (λ s : nat * listener, s.1 = ty)) by done.
    destruct (decide (ty ∈ subs.*1)) as [Hin|Hin].
    + rewrite !bool_decide_eq_true_2; [done | by apply list_elem_of_further | done].
    + rewrite !bool_decide_eq_false_2; [done | | done].
      rewrite not_elem_of_cons. split; [congruence | done].
Qed.

End Emitter.

(** X15. [emit] delivers to exactly the listeners subscribed to the type,
    in the order they subscribed, a listener subscribed twice being called
    twice; listeners of other types are not called; the result is [true]
    exactly when a listener was ever subscribed to the type. *)
Theorem emit_reaches_subscribers {E} (subs : list (nat * EventEmitter.listener))
    (ty : nat) (ev : E) :
  EventEmitter.emit ty ev (subscribe_all subs EventEmitter.new)
  = (bool_decide (ty ∈ subs.*1),
     (λ fn, (fn, ev)) <$> (filter (λ s, s.1 = ty) subs).*2).
Proof.
  unfold EventEmitter.emit, EventEmitter.hasType.
  rewrite subscribe_all_listeners. cbn [EventEmitter.new EventEmitter.listeners].
  rewrite lookup_empty. cbn [default app].
  destruct (decide (ty ∈ subs.*1)) as [Hin|Hin].
  - rewrite (bool_decide_eq_true_2 (ty ∈ subs.*1)) by done.
    by rewrite bool_decide_eq_true_2 by by eexists.
  - rewrite (bool_decide_eq_false_2 (ty ∈ subs.*1)) by done.
    rewrite bool_decide_eq_false_2; [|by intros [? ?]].
    by rewrite filter_type_absent.
Qed.

(** X16. [unsubscribeAll(type)] of a type that has an entry in the listener
    table empties the entry and leaves it there: [emit] of the type then
    calls no listener and still returns [true]; the other types keep their
    listeners.  For a type with no entry it returns [false] and changes
    nothing.  [unsubscribeAll()] drops every entry: [emit] then returns
    [false] for every type. *)
Theorem unsubscribeAll_silences {E} (e : EventEmitter.t) (ty : nat) (ev : E) :
  (EventEmitter.hasType ty e = true →
   (EventEmitter.unsubscribeAll (Some ty) e).1 = true
   ∧ EventEmitter.emit ty ev (EventEmitter.unsubscribeAll (Some ty) e).2 = (true, [])
   ∧ ∀ ty', ty' ≠ ty →
       EventEmitter.emit ty' ev (EventEmitter.unsubscribeAll (Some ty) e).2
       = EventEmitter.emit ty' ev e)
  ∧ (EventEmitter.hasType ty e = false →
     EventEmitter.unsubscribeAll (Some ty) e = (false, e))
  ∧ EventEmitter.emit ty ev (EventEmitter.unsubscribeAll None e).2 = (false, []).
Proof.
  split; [|split].
  - intros Hhas. unfold EventEmitter.unsubscribeAll. rewrite Hhas. cbn [fst snd].
    split; [done|]. unfold EventEmitter.emit, EventEmitter.hasType.
    cbn [EventEmitter.listeners]. split.
    + rewrite lookup_insert_eq. by rewrite bool_decide_eq_true_2 by by eexists.
    + intros ty' Hne. by rewrite lookup_insert_ne.
  - intros Hhas. unfold EventEmitter.unsubscribeAll. by rewrite Hhas.
  - unfold EventEmitter.emit, EventEmitter.hasType. cbn.
    rewrite lookup_empty. rewrite bool_decide_eq_false_2; [done|]. by intros [? ?].
Qed.

Lemma unsubscribeAll_silences_witness :
  let e := subscribe_all [(0, 7); (1, 8); (0, 9)]%nat EventEmitter.new in
  EventEmitter.emit 0%nat (Key "k") e = (true, [(7%nat, Key "k"); (9%nat, Key "k")])
  ∧ EventEmitter.emit 0%nat (Key "k") (EventEmitter.unsubscribeAll (Some 0%nat) e).2
    = (true, [])
  ∧ EventEmitter.emit 1%nat (Key "k") (EventEmitter.unsubscribeAll (Some 0%nat) e).2
    = (true, [(8%nat, Key "k")]).
Proof.
  intros e. split; [vm_compute; reflexivity|].
  destruct (unsubscribeAll_silences e 0%nat (Key "k")) as (Hsome & _ & _).
  destruct Hsome as (_ & Hemit & Hother); [vm_compute; reflexivity|].
  split; [exact Hemit|]. rewrite (Hother 1%nat) by discriminate.
  vm_compute. reflexivity.
Defined.

(** ** Misses, empty texts and unreadable buffers in the compressing cache *)

Section Misses.
Import CompressCache.
Variable gzip : string → Buffer.
Variable unzip : Buffer → option string.

Local Arguments Loop.outcome_of : simpl never.

(** [getZip] of a key that is neither stored nor queued, without a
    loader. *)
Lemma getZip_missing key s :
  loader s = None →
  JsMap.has key (Cache.items (base s)) = false →
  zipQueue s !! key = None →
  getZip key s
  = (Loop.next_promise (loop s),
     with_loop (Loop.record (Loop.next_promise (loop s)) (Value VNull)
                  (Loop.fresh (loop s)).2) s).
Proof.
  intros Hld Hhas Hq. unfold getZip. cbn [Loop.fresh]. unfold contains.
  cbn [base with_loop zipQueue loader]. rewrite contains_is_has, Hhas, Hq, Hld.
  rewrite bool_decide_eq_false_2; [done|]. by intros [? ?].
Qed.

End Misses.

Lemma fresh_notin_settled (s : CompressCache.t) (p : nat) :
  promises_fresh s →
  (CompressCache.Loop.next_promise (CompressCache.loop s) ≤ p)%nat →
  p ∉ (CompressCache.Loop.settled (CompressCache.loop s)).*1.
Proof.
  intros (Hs & _) Hle ([p' r] & Heq & Hin)%list_elem_of_fmap. simpl in Heq. subst p'.
  rewrite Forall_forall in Hs. specialize (Hs _ Hin). simpl in Hs. lia.
Qed.

(** X17. A compressing cache without a loader, asked for a key that is
    neither stored nor being compressed: [getZip] and [getText] are
    fulfilled at once with [null]; nothing is started, stored or queued,
    and, unlike [get] of the base class, no [KeyNotFound] notification is
    made. *)
Theorem miss_without_loader (s : CompressCache.t) (key : string) :
  promises_fresh s →
  CompressCache.loader s = None →
  JsMap.has key (Cache.items (CompressCache.base s)) = false →
  CompressCache.zipQueue s !! key = None →
  CompressCache.zipBuffer s !! key = None →
  (let r := CompressCache.getZip key s in
   CompressCache.Loop.outcome_of r.1 (CompressCache.loop r.2)
   = Some (CompressCache.Value VNull)
   ∧ CompressCache.base r.2 = CompressCache.base s
   ∧ CompressCache.zipQueue r.2 = CompressCache.zipQueue s
   ∧ CompressCache.Loop.jobs (CompressCache.loop r.2)
     = CompressCache.Loop.jobs (CompressCache.loop s))
  ∧ (let r := CompressCache.getText key s in
     CompressCache.Loop.outcome_of r.1 (CompressCache.loop r.2)
     = Some (CompressCache.Value VNull)
     ∧ CompressCache.base r.2 = CompressCache.base s
     ∧ CompressCache.zipQueue r.2 = CompressCache.zipQueue s
     ∧ CompressCache.Loop.jobs (CompressCache.loop r.2)
       = CompressCache.Loop.jobs (CompressCache.loop s)).
Proof.
  intros Hf Hld Hhas Hq Hb. pose proof Hf as (Hs & _). split.
  - rewrite (getZip_missing key s Hld Hhas Hq). cbv zeta. cbn [fst snd].
    split; [|done]. apply outcome_of_last. simpl.
    eapply fresh_settled_ne; [|exact Hs]. lia.
  - unfold CompressCache.getText. cbn [CompressCache.Loop.fresh].
    set (s0 := CompressCache.with_loop _ s). change (CompressCache.zipBuffer s0) with
      (CompressCache.zipBuffer s). rewrite Hb.
    rewrite (getZip_missing key s0 Hld Hhas Hq).
    assert (CompressCache.Loop.outcome_of
              (CompressCache.Loop.next_promise (CompressCache.loop s0))
              (CompressCache.loop
                 (CompressCache.with_loop
                    (CompressCache.Loop.record
                       (CompressCache.Loop.next_promise (CompressCache.loop s0))
                       (CompressCache.Value VNull)
                       (CompressCache.Loop.fresh (CompressCache.loop s0)).2) s0))
            = Some (CompressCache.Value VNull)) as ->.
    { apply outcome_of_last. simpl. eapply fresh_settled_ne; [|exact Hs]. lia. }
    unfold CompressCache.getText_resume. cbn [CompressCache.loader CompressCache.with_loop].
    subst s0. cbn [CompressCache.loader CompressCache.with_loop]. rewrite Hld.
    cbv zeta. cbn [fst snd]. split; [|done].
    eapply (outcome_of_queued _ _ _ (CompressCache.Loop.settled (CompressCache.loop s))
              [S (CompressCache.Loop.next_promise (CompressCache.loop s));
               CompressCache.Loop.next_promise (CompressCache.loop s)] []).
    + simpl. by rewrite <- app_assoc.
    + by apply fresh_notin_settled.
    + apply list_elem_of_further, list_elem_of_here.
Qed.


Lemma miss_without_loader_witness :
  CompressCache.Loop.outcome_of (CompressCache.getText "k" (CompressCache.new None None)).1
    (CompressCache.loop (CompressCache.getText "k" (CompressCache.new None None)).2)
  = Some (CompressCache.Value VNull)
  ∧ CompressCache.base (CompressCache.getText "k" (CompressCache.new None None)).2
    = CompressCache.base (CompressCache.new None None).
Proof.
  destruct (miss_without_loader (CompressCache.new None None) "k" (new_fresh None None)
              eq_refl eq_refl eq_refl eq_refl) as (_ & Hout & Hbase & _).
  split; [exact Hout | exact Hbase].
Defined.

(** X18. [addText] of the empty text does nothing but return a promise
    fulfilled with [undefined]: nothing is staged, queued, compressed or
    stored, and an entry already stored under the key stays as it is. *)
Theorem addText_of_empty_text (s : CompressCache.t) (key : string) :
  promises_fresh s →
  let r := CompressCache.addText key "" s in
  CompressCache.Loop.outcome_of r.1 (CompressCache.loop r.2)
  = Some (CompressCache.Value VUndefined)
  ∧ CompressCache.base r.2 = CompressCache.base s
  ∧ CompressCache.zipBuffer r.2 = CompressCache.zipBuffer s
  ∧ CompressCache.zipQueue r.2 = CompressCache.zipQueue s
  ∧ CompressCache.Loop.jobs (CompressCache.loop r.2)
    = CompressCache.Loop.jobs (CompressCache.loop s)
  ∧ CompressCache.Loop.gzip_calls (CompressCache.loop r.2)
    = CompressCache.Loop.gzip_calls (CompressCache.loop s).
Proof.
  intros (Hs & _). cbv zeta. unfold CompressCache.addText.
  cbn [CompressCache.Loop.fresh Is.empty]. rewrite bool_decide_eq_true_2 by done.
  cbn [fst snd]. split; [|done].
  apply outcome_of_last. simpl. eapply fresh_settled_ne; [|exact Hs]. lia.
Qed.

Lemma addText_of_empty_text_witness :
  CompressCache.base (CompressCache.addText "k" "" holds_k).2 = CompressCache.base holds_k
  ∧ CompressCache.Loop.outcome_of (CompressCache.addText "k" "" holds_k).1
      (CompressCache.loop (CompressCache.addText "k" "" holds_k).2)
    = Some (CompressCache.Value VUndefined).
Proof.
  assert (promises_fresh holds_k) as Hf
    by (apply complete_below, addText_below, new_fresh).
  destruct (addText_of_empty_text holds_k "k" Hf) as (Hout & Hbase & _).
  split; [exact Hbase | exact Hout].
Defined.

Section Unreadable.
Import CompressCache.
Variable gzip : string → Buffer.
Variable unzip : Buffer → option string.

Local Arguments Loop.outcome_of : simpl never.

(** X19. [getText] of a key under which the store holds a Buffer starts
    [unzip] on that Buffer, whoever stored it; when [unzip] cannot read it,
    the promise of [getText] is rejected, and the entry stays in the
    store. *)
Theorem getText_of_unreadable_buffer (s : t) (key : string) (item : CacheItem.t)
    (bytes : Buffer) (now : Z) :
  promises_fresh s →
  zipBuffer s !! key = None →
  JsMap.get key (Cache.items (base s)) = Some item →
  CacheItem.value item = VBuffer bytes →
  unzip bytes = None →
  let p := (getText key s).1 in
  let s1 := (getText key s).2 in
  let s2 := complete gzip unzip now (Loop.next_job (loop s)) s1 in
  Loop.jobs (loop s1) !! Loop.next_job (loop s) = Some (Unzip bytes p)
  ∧ Loop.outcome_of p (loop s1) = None
  ∧ Loop.outcome_of p (loop s2) = Some Rejected
  ∧ base s2 = base s.
Proof.
  intros Hf Hb Hget Hv Hu. cbv zeta.
  rewrite (getText_stored key bytes item s Hf Hb Hget Hv). cbn [fst snd].
  pose proof Hf as (Hs & _).
  split; [simpl; apply lookup_insert_eq|]. split.
  - apply outcome_of_None. simpl. apply Forall_app. split.
    + eapply fresh_settled_ne; [|exact Hs]. lia.
    + constructor; [simpl; lia | constructor].
  - unfold complete. cbn [loop Loop.jobs]. rewrite lookup_insert_eq, Hu.
    cbn [base with_loop]. split; [|done].
    apply outcome_of_last. simpl. apply Forall_app. split.
    + eapply fresh_settled_ne; [|exact Hs]. lia.
    + constructor; [simpl; lia | constructor].
Qed.

End Unreadable.

Lemma getText_of_unreadable_buffer_witness :
  CompressCache.Loop.outcome_of (CompressCache.getText "k" holds_empty_buffer).1
    (CompressCache.loop
       (CompressCache.complete stored_gzip strict_unzip 9 0
          (CompressCache.getText "k" holds_empty_buffer).2))
  = Some CompressCache.Rejected.
Proof.
  assert (promises_fresh holds_empty_buffer) as Hf
    by (apply below_with_base, new_fresh).
  destruct (getText_of_unreadable_buffer stored_gzip strict_unzip holds_empty_buffer "k"
              (CacheItem.mk "k" 1 (VBuffer []) 0) [] 9 Hf eq_refl eq_refl eq_refl eq_refl)
    as (_ & _ & Hout & _).
  exact Hout.
Defined.

(** ** A miss served by the loader *)

Section Loader.
Import CompressCache.
Variable gzip : string → Buffer.
Variable unzip : Buffer → option string.
Hypothesis unzip_gzip : ∀ text, unzip (gzip text) = Some text.

Local Arguments Loop.outcome_of : simpl never.




End Loader.


Section EmptyLoad.
Import CompressCache.
Variable gzip : string → Buffer.
Variable unzip : Buffer → option string.

Local Arguments Loop.outcome_of : simpl never.


End EmptyLoad.


(** X22. [add], then the timer it armed: when the timer fires, [prune] runs
    and leaves the cache within every positive limit of its policy, and no
    timer is armed any more. *)
Theorem add_then_timer_enforces_policy
    (p : CachePolicy) (ops : list Cache.op) (c : Cache.t)
    (now now' : Z) (key : string) (v : jsval) :
  Cache.run ops (Cache.new p) = Some c →
  let c1 := Cache.add now key v c in
  ∃ c2,
    Cache.fire now' (Cache.next_timer c) c1 = Some c2
    ∧ Cache.timers c2 = []
    ∧ (∀ A, positive_limit (maxAge (Cache.policy c)) = Some A →
          ∀ k i, (k, i) ∈ Cache.items c2 → now' - A ≤ CacheItem.added i)
    ∧ (∀ N, positive_limit (maxItems (Cache.policy c)) = Some N → Cache.length c2 ≤ N)
    ∧ (∀ B, positive_limit (maxBytes (Cache.policy c)) = Some B →
            Cache.canMeasureSize c1 = true → Cache.size c2 ≤ B).
Proof.
  intros Hrun c1.
  assert (Cache.wf c1) as Hwf1 by (apply wf_add; by eapply reachable_wf).
  assert (one_timer c) as H1 by (eapply one_timer_run; [|exact Hrun]; by left).
  assert (Cache.timers c1 = [Cache.next_timer c]) as Ht.
  { destruct (add_timers now key v c) as [Ht _]. subst c1.
    by rewrite Ht, one_timer_rearmed. }
  set (c1' := Cache.clearTimeout (Cache.next_timer c) c1).
  assert (Cache.wf c1') as Hwf1' by exact Hwf1.
  destruct (prune_total now' c1' Hwf1') as [c2 Hp].
  exists c2. split; [|split].
  - unfold Cache.fire. rewrite Ht.
    rewrite bool_decide_eq_true_2 by apply list_elem_of_here. exact Hp.
  - destruct (prune_timers _ _ _ Hp) as (_ & _ & Ht2). rewrite Ht2. subst c1'.
    cbn [Cache.timers Cache.clearTimeout]. rewrite Ht.
    by rewrite filter_cons_False, filter_nil by (simpl; tauto).
  - replace (Cache.policy c) with (Cache.policy c1') by apply add_policy.
    exact (prune_enforces now' c1' c2 Hwf1' Hp).
Qed.

Lemma add_then_timer_enforces_policy_witness :
  ∃ c2, Cache.fire 20 3 (three_adds all_limits) = Some c2
        ∧ Cache.timers c2 = [] ∧ Cache.length c2 ≤ 2.
Proof.
  destruct (add_then_timer_enforces_policy all_limits
              [Cache.Add 1 "a" (VString "x"); Cache.Add 2 "b" (VString "yy")]
              (Cache.add 2 "b" (VString "yy")
                 (Cache.add 1 "a" (VString "x") (Cache.new all_limits)))
              3 20 "c" (VString "zzz") eq_refl)
    as (c2 & Hfire & Htimers & _ & Hn & _).
  exists c2. split; [exact Hfire|]. split; [exact Htimers|].
  apply Hn. reflexivity.
Defined.

(** X23. [totalSize(items, except)] is the total of all entries less the
    total of the entries whose key is in [except]; a key of [except] that
    is not in the store, or is listed twice, changes nothing. *)
Theorem totalSize_except (m : store) (except : list string) :
  Forall (λ kv, CacheItem.key kv.2 = kv.1) m →
  totalSize m except
  = totalSize m [] - totalSize (filter (λ kv, kv.1 ∈ except) m) [].
Proof.
  intros Hkeys. rewrite !totalSize_sizes, !unmarked_nil.
  unfold JsMap.values, unmarked, store, JsMap.t in *.
  induction Hkeys as [|[k i] m Hk Hm IH]; [done|].
  simpl in Hk. rewrite fmap_cons, sizes_cons. cbn [snd].
  destruct (decide (k ∈ except)) as [Hin|Hin].
  - rewrite (filter_cons_True (λ kv : string * CacheItem.t, kv.1 ∈ except)) by done.
    rewrite (filter_cons_False (λ i, CacheItem.key i ∉ except))
      by (rewrite Hk; by intros Hn).
    rewrite fmap_cons, sizes_cons. cbn [snd]. rewrite IH. lia.
  - rewrite (filter_cons_False (λ kv : string * CacheItem.t, kv.1 ∈ except)) by done.
    rewrite (filter_cons_True (λ i, CacheItem.key i ∉ except)) by by rewrite Hk.
    rewrite sizes_cons, IH. lia.
Qed.

Lemma totalSize_except_witness :
  totalSize (Cache.items (three_adds no_limits)) ["b"; "q"; "b"] = 4.
Proof.
  rewrite (totalSize_except (Cache.items (three_adds no_limits)) ["b"; "q"; "b"]).
  - vm_compute. reflexivity.
  - apply wf_keys_match. repeat apply wf_add. apply wf_new.
Defined.

(** ** [getZip] of a key the store holds *)

Section StoredKey.
Import CompressCache.
Local Arguments Loop.outcome_of : simpl never.

(** X24. [getZip] of a key the store holds is fulfilled at once with the
    stored value, whatever is in flight for the key: it registers nothing
    in a queue, starts no operation, calls no [gzip], and leaves the store
    and the staging as they are. *)
Theorem stored_key_getZip_at_once (s : t) (key : string) (item : CacheItem.t) :
  promises_fresh s →
  JsMap.get key (Cache.items (base s)) = Some item →
  Loop.outcome_of (getZip key s).1 (loop (getZip key s).2)
  = Some (Value (CacheItem.value item))
  ∧ zipQueue (getZip key s).2 = zipQueue s
  ∧ zipBuffer (getZip key s).2 = zipBuffer s
  ∧ Loop.jobs (loop (getZip key s).2) = Loop.jobs (loop s)
  ∧ Loop.gzip_calls (loop (getZip key s).2) = Loop.gzip_calls (loop s)
  ∧ base (getZip key s).2 = base s.
Proof.
  intros Hfresh Hget.
  assert (JsMap.has key (Cache.items (base s)) = true) as Hhas.
  { apply has_true.
    destruct (decide (key ∈ (Cache.items (base s)).*1)) as [|Hn]; [done|].
    apply get_None in Hn. congruence. }
  unfold getZip. simpl. unfold contains. simpl. rewrite contains_is_has, Hhas.
  unfold super_get, Cache.get. simpl. rewrite Hhas, Hget. simpl.
  split; [|done].
  apply outcome_of_last. simpl.
  destruct Hfresh as (Hs & _). eapply fresh_settled_ne; [|exact Hs]. lia.
Qed.

End StoredKey.

Lemma stored_key_getZip_at_once_witness :
  CompressCache.zipQueue holds_k_compressing_b !! "k" = Some []
  ∧ CompressCache.Loop.outcome_of (CompressCache.getZip "k" holds_k_compressing_b).1
      (CompressCache.loop (CompressCache.getZip "k" holds_k_compressing_b).2)
    = Some (CompressCache.Value (VBuffer (stored_gzip "a")))
  ∧ CompressCache.zipQueue (CompressCache.getZip "k" holds_k_compressing_b).2
    = CompressCache.zipQueue holds_k_compressing_b.
Proof.
  assert (promises_fresh holds_k_compressing_b) as Hfresh
    by (apply addText_below, complete_below, addText_below, new_fresh).
  assert (JsMap.get "k" (Cache.items (CompressCache.base holds_k_compressing_b))
          = Some (CacheItem.mk "k" 5 (VBuffer (stored_gzip "a")) 1)) as Hget
    by (vm_compute; reflexivity).
  destruct (stored_key_getZip_at_once holds_k_compressing_b "k" _ Hfresh Hget)
    as (Hout & Hqueue & _).
  split; [vm_compute; reflexivity|]. split; [exact Hout | exact Hqueue].
Defined.
